(** * Two-level subspace-correction preconditioner (demos/subspace_correction/pulley.py)
      and halo construction (firedrake/halo.py): a shallow embedding.

    Python objects become records, attribute mutation becomes explicit state
    passing, exceptions become the [Raise] branch of a small error monad.
    Scalars (PETSc.ScalarType) are kept abstract behind the [Scalar] class, so
    that every statement below is about the order and shape of the arithmetic
    the code performs, and is instantiated at exact integers and at binary64
    floats where a concrete run is needed. *)

From Stdlib Require Import ZArith Floats.
From stdpp Require Import base tactics option list numbers strings sorting gmap.

Set Default Proof Using "Type".

(** ** Exceptions and the error monad

    A call returns a value, with the objects it updated, or raises; what the
    objects hold after a raise is not followed. *)

Inductive exn : Set :=
  | NameError
  | NotImplementedError
  | AssertionError
  | IndexError
  | ValueError
  | RuntimeError
  | AttributeError
  | KeyError
  | PETScError.

Inductive result (A : Type) : Type :=
  | Ok (a : A)
  | Raise (e : exn).
Arguments Ok {A} a.
Arguments Raise {A} e.

#[global] Instance result_ret : MRet result := @Ok.
#[global] Instance result_bind : MBind result := λ A B f m,
  match m with Ok a => f a | Raise e => Raise e end.

(** The value of a call that also returns the updated object. *)
Definition value_of {A B} (m : result (A * B)) : result A :=
  match m with Ok (a, _) => Ok a | Raise e => Raise e end.

(** Forget which exception was raised. *)
Definition returned {A} (m : result A) : option A :=
  match m with Ok a => Some a | Raise _ => None end.

Definition py_assert (b : bool) : result unit :=
  if b then Ok () else Raise AssertionError.

(** [foldM f l a]: a Python [for] loop over [l] threading the state [a]; the
    first exception leaves the loop. *)
Fixpoint foldM {A B} (f : A → B → result A) (l : list B) (a : A) : result A :=
  match l with
  | [] => Ok a
  | b :: l => a' ← f a b; foldM f l a'
  end.

(** ** Scalars *)

Class Scalar (R : Type) := {
  s0 : R;
  s1 : R;
  sadd : R → R → R;
  smul : R → R → R;
}.

Definition Z_Scalar : Scalar Z :=
  {| s0 := 0%Z; s1 := 1%Z; sadd := Z.add; smul := Z.mul |}.

Definition float_Scalar : Scalar float :=
  {| s0 := PrimFloat.zero; s1 := PrimFloat.one;
     sadd := PrimFloat.add; smul := PrimFloat.mul |}.

(** ** numpy / PETSc array primitives *)

Section arrays.
Context {A : Type}.

(** [l[i]] on an array: IndexError out of range. *)
Definition np_index (l : list A) (i : nat) : result A :=
  match l !! i with Some a => Ok a | None => Raise IndexError end.

(** [l[a:b]]: a slice clamps to the array and never raises. *)
Definition np_slice (l : list A) (a b : nat) : list A := take (b - a) (drop a l).

(** [l[a:]] *)
Definition np_slice_from (l : list A) (a : nat) : list A := drop a l.

(** [v.reshape(-1, bsize)]: the rows of width [bsize]; ValueError when the
    width is zero or does not divide the size. *)
Definition np_reshape (bsize : nat) (v : list A) : result (list (list A)) :=
  if decide (bsize = 0) then Raise ValueError
  else if decide (length v `mod` bsize = 0)
       then Ok (reshape (replicate (length v / bsize) bsize) v)
       else Raise ValueError.

(** The next four act on the rows of a reshaped array ([A] is then the row
    type).  [rows[idx]] with an index array: the selected rows, IndexError
    when an index is out of range. *)
Definition np_take (rows : list A) (idx : list nat) : result (list A) :=
  mapM (np_index rows) idx.

(** Broadcasting a block of [k] rows to [n] rows: the rows themselves when
    [k = n], the single row repeated when [k = 1], ValueError otherwise. *)
Definition np_broadcast (n : nat) (src : list A) : result (list A) :=
  if decide (length src = n) then Ok src
  else match src with
       | [r] => Ok (replicate n r)
       | _ => Raise ValueError
       end.

(** [rows[idx] = vals], element by element in index order: with a repeated
    index the last assignment stays. *)
Definition np_put (rows : list A) (idx : list nat) (vals : list A) : list A :=
  foldl (λ acc gv, <[gv.1 := gv.2]> acc) rows (zip idx vals).

(** The value that the assignments [zs], made in order, leave at index [g]:
    that of the last one aimed at [g], if there is one. *)
Fixpoint assigned (zs : list (nat * A)) (g : nat) : option A :=
  match zs with
  | [] => None
  | (g0, v) :: zs =>
      match assigned zs g with
      | Some w => Some w
      | None => if decide (g0 = g) then Some v else None
      end
  end.

(** [rows[idx] = r] for one row value [r]: IndexError out of range. *)
Definition np_put_const (rows : list A) (idx : list nat) (r : A) : result (list A) :=
  if decide (Forall (λ g, g < length rows) idx)
  then Ok (np_put rows idx (replicate (length idx) r))
  else Raise IndexError.

(** [enumerate(l)] *)
Definition enumerate (l : list A) : list (nat * A) := zip (seq 0 (length l)) l.
End arrays.

(** Offset/value pairs as returned by the patch builders: patch [i] owns
    [value[offset[i]:offset[i+1]]].  The entries are offsets, dof numbers and
    cell numbers, none of them negative. *)
Record Patches := { offset : list nat; value : list nat }.

(** [p.value[p.offset[i]:p.offset[i+1]]] *)
Definition patch_slice (p : Patches) (i : nat) : result (list nat) :=
  lo ← np_index (offset p) i;
  hi ← np_index (offset p) (i + 1);
  Ok (np_slice (value p) lo hi).

(** [numpy.concatenate]: ValueError on an empty sequence of arrays. *)
Definition np_concatenate (ls : list (list nat)) : result (list nat) :=
  match ls with [] => Raise ValueError | _ => Ok (mjoin ls) end.

(** [numpy.unique]: the sorted distinct values. *)
Definition np_unique (l : list nat) : list nat :=
  merge_sort Nat.le (remove_dups l).

(** [numpy.dstack([dim*rows + c for c in range(dim)]).flatten()]: every
    listed node expanded over the [dim] components of its block. *)
Definition expand_rows (dim : nat) (rows : list nat) : list nat :=
  r ← rows; (λ c, dim * r + c) <$> seq 0 dim.

Section scalars.
Context {R : Type} `{Scalar R}.

Definition row_add (a b : list R) : list R := zip_with sadd a b.

(** A PETSc matrix: its sizes, fixed by [setSizes], and its entries. *)
Record Mat := { nrows : nat; ncols : nat; entry : nat → nat → R }.

(** [Vec.set(0)] keeps the size of the vector. *)
Definition vec_set0 (v : list R) : list R := replicate (length v) s0.

(** [Mat.createVecs()] / [createVecLeft()], followed by [set(0)]. *)
Definition createVec (n : nat) : list R := replicate n s0.

(** [Mat.zeroRowsColumns(rows)] with petsc4py's default [diag=1]: every listed
    row and column is zeroed and its diagonal entry set to one. *)
Definition zeroRowsColumns (rows : list nat) (m : Mat) : result Mat :=
  if decide (Forall (λ r, r < nrows m) rows)
  then Ok {| nrows := nrows m; ncols := ncols m;
             entry := λ i j,
               if bool_decide (i ∈ rows) || bool_decide (j ∈ rows)
               then (if decide (i = j) then s1 else s0)
               else entry m i j |}
  else Raise PETScError.

(** Reading entry [j] of a vector whose size has been checked. *)
Definition vget (x : list R) (j : nat) : R := default s0 (x !! j).

Definition dot (n : nat) (a : nat → R) (x : list R) : R :=
  foldl (λ acc j, sadd acc (smul (a j) (vget x j))) s0 (seq 0 n).

(** [Mat.mult(x, y)]: [y = A x], one dot product per row; PETSc refuses
    vectors whose sizes do not fit the matrix. *)
Definition Mat_mult (m : Mat) (x y : list R) : result (list R) :=
  if decide (length x = ncols m ∧ length y = nrows m)
  then Ok ((λ i, dot (ncols m) (entry m i) x) <$> seq 0 (nrows m))
  else Raise PETScError.

(** [Mat.multTranspose(x, y)]: [y = Aᵗ x], accumulated row by row of the
    stored matrix; no transposed matrix is formed. *)
Definition Mat_multTranspose (m : Mat) (x y : list R) : result (list R) :=
  if decide (length x = nrows m ∧ length y = ncols m)
  then Ok (foldl (λ acc i, zip_with sadd acc
                             ((λ j, smul (entry m i j) (vget x i)) <$> seq 0 (ncols m)))
                 (replicate (ncols m) s0) (seq 0 (nrows m)))
  else Raise PETScError.

Definition Mat_transpose (m : Mat) : Mat :=
  {| nrows := ncols m; ncols := nrows m; entry := λ i j, entry m j i |}.
End scalars.
Arguments Mat R : clear implicits.

(** ** demos/subspace_correction/pulley.py *)

Module pulley.

Definition Mesh := nat.

(** The attributes of a function space that the preconditioner reads.
    [rank], [dim] and [dof_dset.cdim] are Firedrake's: the number of axes of
    [shape] and, twice, the number of components per node. *)
Record FunctionSpace := {
  fs_mesh : Mesh;
  family : string;
  degree : nat;
  shape : list nat;
}.
#[global] Instance FunctionSpace_eq_dec : EqDecision FunctionSpace.
Proof. solve_decision. Defined.

Definition rank (V : FunctionSpace) : nat := length (shape V).
Definition dim (V : FunctionSpace) : nat := foldr Nat.mul 1 (shape V).
Definition dof_dset_cdim (V : FunctionSpace) : nat := foldr Nat.mul 1 (shape V).

(** [FunctionSpace(mesh, family, degree)] *)
Definition mkFunctionSpace (m : Mesh) (f : string) (k : nat) : FunctionSpace :=
  {| fs_mesh := m; family := f; degree := k; shape := [] |}.
(** [VectorFunctionSpace(mesh, family, degree, dim=d)] *)
Definition VectorFunctionSpace (m : Mesh) (f : string) (k d : nat) : FunctionSpace :=
  {| fs_mesh := m; family := f; degree := k; shape := [d] |}.

(** A UFL argument: [number] 0 is the test function, 1 the trial function. *)
Record Argument := { function_space : FunctionSpace; number : nat }.
Definition TestFunction (V : FunctionSpace) : Argument :=
  {| function_space := V; number := 0 |}.
Definition TrialFunction (V : FunctionSpace) : Argument :=
  {| function_space := V; number := 1 |}.

(** A bilinear form: its domain, its two arguments, and its integrand (kept
    as an opaque identifier of the UFL expression). *)
Record Form := {
  ufl_domain : Mesh;
  arguments : Argument * Argument;
  integrand : nat;
}.

(** Boundary data: a constant, or an expression interpolated into a space
    ([Function(V).interpolate(e)]). *)
Inductive Expr :=
  | Const (v : list Z)
  | Interpolate (V : FunctionSpace) (e : Expr).

Record DirichletBC := {
  bc_space : FunctionSpace;
  function_arg : Expr;
  sub_domain : list nat;
  method : string;
  nodes : list nat;
}.

(** The [bcs] keyword: [None], one boundary condition, or a sequence. *)
Inductive bcs_arg :=
  | BcNone
  | BcOne (bc : DirichletBC)
  | BcSeq (l : list DirichletBC).

(** *** The compiled kernels *)

(** A kernel as [compile_form] returns it: the block it is for and the
    [kinfo] fields the code looks at; the compiled kernel itself is kept as
    an opaque identifier. *)
Record KernelInfo := {
  kernel : nat;
  integral_type : string;
  oriented : bool;
  coefficient_map : list nat;
}.
Record TSFCKernel := { indices : nat * nat; kinfo : KernelInfo }.

(** The loop of the property [kernels] over the compiled kernels. *)
Definition kernels_loop (ks : list TSFCKernel) : result (list nat) :=
  foldM (λ compiled_kernels k,
           _ ← py_assert (bool_decide (indices k = (0, 0)));
           let ki := kinfo k in
           _ ← py_assert (bool_decide (integral_type ki = "cell"));
           _ ← py_assert (negb (oriented ki));
           _ ← py_assert (bool_decide (length (coefficient_map ki) = 0));
           Ok (compiled_kernels ++ [kernel ki]))
        ks [].

(** The kernel [transfer_kernel] hands to the code generator: its name, the
    shape and the index list of its output tensor [A], and the weights, read
    at the first and the second index. *)
Record TransferKernel (R : Type) := {
  kernel_name : string;
  out_shape : list nat;
  out_indices : list nat;
  weights : Mat R;
}.
Arguments kernel_name {R} _.
Arguments out_shape {R} _.
Arguments out_indices {R} _.
Arguments weights {R} _.

(** The callable [sscutils.matrix_callable] returns.  Called as
    [(0, end, cells, marg, mmap, mmap, carg, cmap)] it fills the matrix
    [marg]; here it is the entries it leaves there, as a function of [end],
    [cells] and [mmap]. *)
Definition Callable (R : Type) : Type := nat → list nat → list nat → nat → nat → R.

(** What the code calls and the repository leaves to its collaborators. *)
Class Backend (R : Type) := {
  get_cell_facet_patches : Mesh → Patches * Patches;
  get_dof_patches :
    Mesh → FunctionSpace → list nat → Patches → Patches → Patches * Patches * Patches;
  (** the nodes a [DirichletBC] on a space, sub-domain and method constrains *)
  boundary_nodes : FunctionSpace → list nat → string → list nat;
  (** [assemble(form, bcs=...).M.handle] *)
  assemble : Form → list DirichletBC → Mat R;
  (** [firedrake.tsfc_interface.compile_form(form, name)] *)
  tsfc_compile_form : Form → string → list TSFCKernel;
  (** [sscutils.matrix_callable(kernels, V, coordinates)], the coordinates
      being those of a mesh *)
  sscutils_matrix_callable : list nat → FunctionSpace → Mesh → Callable R;
  (** [V.fiat_element.space_dimension()], and the matrix
      [numpy.dot(Pk dual to_riesz(P1 nodal basis), P1 coeffs.T).T] *)
  fiat_space_dimension : FunctionSpace → nat;
  fiat_riesz_matrix : FunctionSpace → FunctionSpace → Mat R;
  (** [matarg._block_shape] of the argument built on the maps of the two
      spaces *)
  block_shape : FunctionSpace → FunctionSpace → list (list (list nat));
  (** the matrix [op2.par_loop(kernel, mesh.cell_set, matarg)] leaves behind,
      [matarg] being built on the two spaces with their boundary conditions
      and carrying the block shape it was given *)
  transfer_par_loop :
    TransferKernel R → nat * nat →
    FunctionSpace → list DirichletBC → FunctionSpace → list DirichletBC → Mat R;
  (** [KSP.solve] and [PC.apply] of the delegated solver, each configured
      under its own options prefix; either may fail. *)
  ksp_solve : string → Mat R → list R → result (list R);
  pc_apply : string → Mat R → list R → result (list R);
}.

(** *** class ArgumentReplacer *)

(** [ArgumentReplacer(test, trial).argument(o)]: [self.args[o.number()]]. *)
Definition ArgumentReplacer_argument (test trial : Argument) (o : Argument)
  : result Argument :=
  match number o with
  | 0 => Ok test
  | 1 => Ok trial
  | _ => Raise KeyError
  end.

(** [map_integrand_dags(mapper, a)]: every argument of the form goes through
    the mapper; the domain and the rest of the integrand stay. *)
Definition map_integrand_dags (mapper : Argument → result Argument) (f : Form)
  : result Form :=
  t ← mapper (arguments f).1;
  u ← mapper (arguments f).2;
  Ok {| ufl_domain := ufl_domain f; arguments := (t, u); integrand := integrand f |}.

(** *** class SubspaceCorrectionPrec *)

Section context.
Context {R : Type}.

(** The attributes [__init__] assigns, and the slots of the seven cached
    properties, empty until the property has been evaluated. *)
Record SubspaceCorrectionPrec := {
  a : Form;
  mesh : Mesh;
  V : FunctionSpace;
  P1 : FunctionSpace;
  bcs : list DirichletBC;
  cells : Patches;
  facets : Patches;
  dof_patches : Patches;
  glob_patches : Patches;
  bc_patches : Patches;
  cached_P1_form : option Form;
  cached_P1_bcs : option (list DirichletBC);
  cached_P1_op : option (Mat R);
  cached_kernels : option (list nat);
  cached_matrix_callable : option (Callable R);
  cached_matrices : option (list (Mat R));
  cached_transfer_op : option (Mat R);
}.

(** What [__init__] assigns; no cached property writes any of it. *)
Definition attributes (self : SubspaceCorrectionPrec) :=
  (a self, mesh self, V self, P1 self, bcs self,
   cells self, facets self, dof_patches self, glob_patches self, bc_patches self).

Definition set_cached_P1_form (self : SubspaceCorrectionPrec) (f : Form) :=
  {| a := a self; mesh := mesh self; V := V self; P1 := P1 self; bcs := bcs self;
     cells := cells self; facets := facets self;
     dof_patches := dof_patches self; glob_patches := glob_patches self;
     bc_patches := bc_patches self;
     cached_P1_form := Some f; cached_P1_bcs := cached_P1_bcs self;
     cached_P1_op := cached_P1_op self; cached_kernels := cached_kernels self;
     cached_matrix_callable := cached_matrix_callable self;
     cached_matrices := cached_matrices self;
     cached_transfer_op := cached_transfer_op self |}.
Definition set_cached_P1_bcs (self : SubspaceCorrectionPrec) (l : list DirichletBC) :=
  {| a := a self; mesh := mesh self; V := V self; P1 := P1 self; bcs := bcs self;
     cells := cells self; facets := facets self;
     dof_patches := dof_patches self; glob_patches := glob_patches self;
     bc_patches := bc_patches self;
     cached_P1_form := cached_P1_form self; cached_P1_bcs := Some l;
     cached_P1_op := cached_P1_op self; cached_kernels := cached_kernels self;
     cached_matrix_callable := cached_matrix_callable self;
     cached_matrices := cached_matrices self;
     cached_transfer_op := cached_transfer_op self |}.
Definition set_cached_P1_op (self : SubspaceCorrectionPrec) (m : Mat R) :=
  {| a := a self; mesh := mesh self; V := V self; P1 := P1 self; bcs := bcs self;
     cells := cells self; facets := facets self;
     dof_patches := dof_patches self; glob_patches := glob_patches self;
     bc_patches := bc_patches self;
     cached_P1_form := cached_P1_form self; cached_P1_bcs := cached_P1_bcs self;
     cached_P1_op := Some m; cached_kernels := cached_kernels self;
     cached_matrix_callable := cached_matrix_callable self;
     cached_matrices := cached_matrices self;
     cached_transfer_op := cached_transfer_op self |}.
Definition set_cached_kernels (self : SubspaceCorrectionPrec) (l : list nat) :=
  {| a := a self; mesh := mesh self; V := V self; P1 := P1 self; bcs := bcs self;
     cells := cells self; facets := facets self;
     dof_patches := dof_patches self; glob_patches := glob_patches self;
     bc_patches := bc_patches self;
     cached_P1_form := cached_P1_form self; cached_P1_bcs := cached_P1_bcs self;
     cached_P1_op := cached_P1_op self; cached_kernels := Some l;
     cached_matrix_callable := cached_matrix_callable self;
     cached_matrices := cached_matrices self;
     cached_transfer_op := cached_transfer_op self |}.
Definition set_cached_matrix_callable (self : SubspaceCorrectionPrec) (mc : Callable R) :=
  {| a := a self; mesh := mesh self; V := V self; P1 := P1 self; bcs := bcs self;
     cells := cells self; facets := facets self;
     dof_patches := dof_patches self; glob_patches := glob_patches self;
     bc_patches := bc_patches self;
     cached_P1_form := cached_P1_form self; cached_P1_bcs := cached_P1_bcs self;
     cached_P1_op := cached_P1_op self; cached_kernels := cached_kernels self;
     cached_matrix_callable := Some mc;
     cached_matrices := cached_matrices self;
     cached_transfer_op := cached_transfer_op self |}.
Definition set_cached_matrices (self : SubspaceCorrectionPrec) (ms : list (Mat R)) :=
  {| a := a self; mesh := mesh self; V := V self; P1 := P1 self; bcs := bcs self;
     cells := cells self; facets := facets self;
     dof_patches := dof_patches self; glob_patches := glob_patches self;
     bc_patches := bc_patches self;
     cached_P1_form := cached_P1_form self; cached_P1_bcs := cached_P1_bcs self;
     cached_P1_op := cached_P1_op self; cached_kernels := cached_kernels self;
     cached_matrix_callable := cached_matrix_callable self;
     cached_matrices := Some ms;
     cached_transfer_op := cached_transfer_op self |}.
Definition set_cached_transfer_op (self : SubspaceCorrectionPrec) (m : Mat R) :=
  {| a := a self; mesh := mesh self; V := V self; P1 := P1 self; bcs := bcs self;
     cells := cells self; facets := facets self;
     dof_patches := dof_patches self; glob_patches := glob_patches self;
     bc_patches := bc_patches self;
     cached_P1_form := cached_P1_form self; cached_P1_bcs := cached_P1_bcs self;
     cached_P1_op := cached_P1_op self; cached_kernels := cached_kernels self;
     cached_matrix_callable := cached_matrix_callable self;
     cached_matrices := cached_matrices self;
     cached_transfer_op := Some m |}.
End context.
Arguments SubspaceCorrectionPrec R : clear implicits.

(** *** The bodies of [kernels] and of [transfer_kernel] *)

Section kernels.
Context {R : Type}.
(** [compile_form(a, name)]; [V.fiat_element.space_dimension()]; and the
    matrix [numpy.dot(Pk dual to_riesz(P1 nodal basis), P1 coeffs.T).T]. *)
Context (compile_form : Form → string → list TSFCKernel).
Context (space_dimension : FunctionSpace → nat).
Context (riesz_matrix : FunctionSpace → FunctionSpace → Mat R).

(** [kernels] *)
Definition kernels (self : SubspaceCorrectionPrec R) : result (list nat) :=
  kernels_loop (compile_form (a self) "subspace_form").

(** [transfer_kernel(restriction)]; the indices [i], [j] and those of
    [extra] are numbered in the order they are created. *)
Definition transfer_kernel (self : SubspaceCorrectionPrec R) (restriction : bool)
  : result (TransferKernel R) :=
  let Pk := V self in
  let P1_ := P1 self in
  _ ← py_assert (bool_decide (space_dimension P1_ ≤ space_dimension Pk));
  let matrix := riesz_matrix Pk P1_ in
  let '(Vout, Vin, w, name) :=
    if restriction then (P1_, Pk, matrix, "Pk_P1_mapper")
    else (Pk, P1_, Mat_transpose matrix, "P1_Pk_mapper") in
  _ ← py_assert (bool_decide (shape Vin = shape Vout));
  let sh := [space_dimension Vout] ++ shape Vout
            ++ [space_dimension Vin] ++ shape Vin in
  let i := 0 in
  let j := 1 in
  let extra := seq 2 (length (shape Vin)) in
  Ok {| kernel_name := name; out_shape := sh;
        out_indices := [i] ++ extra ++ [j] ++ extra; weights := w |}.
End kernels.

Section model.
Context {R : Type} `{Scalar R} `{Backend R}.
#[local] Abbreviation SubspaceCorrectionPrec := (SubspaceCorrectionPrec R).

(** [SubspaceCorrectionPrec.__init__] *)
Definition SubspaceCorrectionPrec_init (a0 : Form) (bcs0 : bcs_arg)
  : result SubspaceCorrectionPrec :=
  let mesh0 := ufl_domain a0 in
  let '(test, trial) := arguments a0 in
  let V0 := function_space test in
  _ ← py_assert (bool_decide (V0 = function_space trial));
  P10 ← (if decide (rank V0 = 0) then Ok (mkFunctionSpace mesh0 "CG" 1)
         else if decide (rank V0 = 1) then
           _ ← py_assert (bool_decide (length (shape V0) = 1));
           d ← np_index (shape V0) 0;
           Ok (VectorFunctionSpace mesh0 "CG" 1 d)
         else Raise NotImplementedError);
  '(self_bcs, bc_nodes) ←
     match bcs0 with
     | BcNone => Ok ([], [])
     | BcOne bc => ns ← np_concatenate (nodes <$> [bc]); Ok ([bc], np_unique ns)
     | BcSeq l => ns ← np_concatenate (nodes <$> l); Ok (l, np_unique ns)
     end;
  let '(cells0, facets0) := get_cell_facet_patches mesh0 in
  let '(d, g, b) := get_dof_patches mesh0 V0 bc_nodes cells0 facets0 in
  Ok {| a := a0; mesh := mesh0; V := V0; P1 := P10; bcs := self_bcs;
        cells := cells0; facets := facets0;
        dof_patches := d; glob_patches := g; bc_patches := b;
        cached_P1_form := None; cached_P1_bcs := None; cached_P1_op := None;
        cached_kernels := None; cached_matrix_callable := None;
        cached_matrices := None; cached_transfer_op := None |}.

(** [P1_form] (cached): the form with its arguments replaced by those of
    [P1]. *)
Definition P1_form (self : SubspaceCorrectionPrec)
  : result (Form * SubspaceCorrectionPrec) :=
  match cached_P1_form self with
  | Some f => Ok (f, self)
  | None =>
      let mapper := ArgumentReplacer_argument (TestFunction (P1 self))
                                              (TrialFunction (P1 self)) in
      f ← map_integrand_dags mapper (a self);
      Ok (f, set_cached_P1_form self f)
  end.

(** [P1_bcs] (cached): every boundary condition rebuilt on [P1], its value
    being the original one interpolated into [P1]. *)
Definition P1_bcs (self : SubspaceCorrectionPrec)
  : list DirichletBC * SubspaceCorrectionPrec :=
  match cached_P1_bcs self with
  | Some l => (l, self)
  | None =>
      let l := (λ bc, {| bc_space := P1 self;
                         function_arg := Interpolate (P1 self) (function_arg bc);
                         sub_domain := sub_domain bc;
                         method := method bc;
                         nodes := boundary_nodes (P1 self) (sub_domain bc) (method bc) |})
                 <$> bcs self in
      (l, set_cached_P1_bcs self l)
  end.

(** [P1_op] (cached): the coarse operator, assembled from [self.P1_form]
    with [self.P1_bcs]. *)
Definition P1_op (self : SubspaceCorrectionPrec)
  : result (Mat R * SubspaceCorrectionPrec) :=
  match cached_P1_op self with
  | Some m => Ok (m, self)
  | None =>
      '(f, c) ← P1_form self;
      let '(l, c) := P1_bcs c in
      let m := assemble f l in
      Ok (m, set_cached_P1_op c m)
  end.

(** [self.kernels]: the cached property whose body is [kernels]. *)
Definition self_kernels (self : SubspaceCorrectionPrec)
  : result (list nat * SubspaceCorrectionPrec) :=
  match cached_kernels self with
  | Some l => Ok (l, self)
  | None =>
      l ← kernels tsfc_compile_form self;
      Ok (l, set_cached_kernels self l)
  end.

(** [matrix_callable] (cached) *)
Definition matrix_callable (self : SubspaceCorrectionPrec)
  : result (Callable R * SubspaceCorrectionPrec) :=
  match cached_matrix_callable self with
  | Some mc => Ok (mc, self)
  | None =>
      '(ks, c) ← self_kernels self;
      let mc := sscutils_matrix_callable ks (V c) (mesh c) in
      Ok (mc, set_cached_matrix_callable c mc)
  end.

(** One turn of the loop of [matrices]: the dense matrix of patch [i], with
    [dim] the block size read at the head of the property, and the context,
    in which the turn may have filled the slots of [matrix_callable] and
    [kernels]. *)
Definition matrices_turn (self : SubspaceCorrectionPrec) (dim : nat) (i : nat)
  : result (Mat R * SubspaceCorrectionPrec) :=
  g1 ← np_index (offset (glob_patches self)) (i + 1);
  g0 ← np_index (offset (glob_patches self)) i;
  let size := (g1 - g0) * dim in
  (* setSizes: a block size below one, then a negative size, is refused *)
  _ ← (if decide (dim = 0) then Raise ValueError
       else if decide (g1 < g0) then Raise PETScError else Ok ());
  d0 ← np_index (offset (dof_patches self)) i;
  let mmap := np_slice_from (value (dof_patches self)) d0 in
  c0 ← np_index (offset (cells self)) i;
  let cells_i := np_slice_from (value (cells self)) c0 in
  c1 ← np_index (offset (cells self)) (i + 1);
  let end_ := c1 - c0 in
  '(callable, self) ← matrix_callable self;
  let mat := {| nrows := size; ncols := size;
                entry := callable end_ cells_i mmap |} in
  rows ← patch_slice (bc_patches self) i;
  m ← zeroRowsColumns (expand_rows dim rows) mat;
  Ok (m, self).

(** The matrix of patch [i] alone. *)
Definition patch_matrix (self : SubspaceCorrectionPrec) (dim : nat) (i : nat)
  : result (Mat R) :=
  value_of (matrices_turn self dim i).

(** [matrices] (cached).  [globals_V] is the binding of the name [V] in the
    module's globals at the time of the first evaluation ([None]: unbound);
    the body reads [V.dof_dset.cdim], not [self.V]. *)
Definition matrices (globals_V : option FunctionSpace) (self : SubspaceCorrectionPrec)
  : result (list (Mat R) * SubspaceCorrectionPrec) :=
  match cached_matrices self with
  | Some ms => Ok (ms, self)
  | None =>
      match globals_V with
      | None => Raise NameError
      | Some W =>
          let dim := dof_dset_cdim W in
          '(mats, self) ←
             foldM (λ '(mats, self) i,
                      '(mat, self) ← matrices_turn self dim i;
                      Ok (mats ++ [mat], self))
                   (seq 0 (length (offset (dof_patches self)) - 1)) ([], self);
          Ok (mats, set_cached_matrices self mats)
      end
  end.

(** [transfer_op] (cached): one matrix with a row per [P1] dof and a column
    per [V] dof, filled by a par_loop of the kernel of [transfer_kernel()],
    whose default is the restriction. *)
Definition transfer_op (self : SubspaceCorrectionPrec)
  : result (Mat R * SubspaceCorrectionPrec) :=
  match cached_transfer_op self with
  | Some m => Ok (m, self)
  | None =>
      let '(p1_bcs, self) := P1_bcs self in
      let sh := block_shape (P1 self) (V self) in
      '(a_, b_) ← match sh with
                  | [[[a_; b_]]] => Ok (a_, b_)
                  | _ => Raise AssertionError
                  end;
      let nsh := (a_ * dof_dset_cdim (P1 self), b_ * dof_dset_cdim (V self)) in
      k ← transfer_kernel fiat_space_dimension fiat_riesz_matrix self true;
      let m := transfer_par_loop k nsh (P1 self) p1_bcs (V self) (bcs self) in
      Ok (m, set_cached_transfer_op self m)
  end.

(** The outer PETSc [pc] handed to [setUp]: its options prefix and the
    Python context of its preconditioning operator. *)
Record PC := { getOptionsPrefix : string; getPythonContext : SubspaceCorrectionPrec }.

(** A PETSc KSP as [PatchPC] uses it: its options prefix and the operator
    it is set to solve with; [reset] drops the operator. *)
Record KSP := { ksp_prefix : string; ksp_operators : option (Mat R) }.

Definition KSP_reset (k : KSP) : KSP :=
  {| ksp_prefix := ksp_prefix k; ksp_operators := None |}.
Definition KSP_setOperators (k : KSP) (m : Mat R) : KSP :=
  {| ksp_prefix := ksp_prefix k; ksp_operators := Some m |}.
(** [ksp.solve(b, ly)]: the delegated solve; PETSc refuses a KSP without
    operators. *)
Definition KSP_solve (k : KSP) (b : list R) : result (list R) :=
  match ksp_operators k with
  | Some m => ksp_solve (ksp_prefix k) m b
  | None => Raise PETScError
  end.

(** *** class PatchPC *)

Record PatchPC := { ksp : KSP; ctx : SubspaceCorrectionPrec }.

Definition PatchPC_setUp (pc : PC) : PatchPC :=
  {| ksp := {| ksp_prefix := getOptionsPrefix pc +:+ "sub_"; ksp_operators := None |};
     ctx := getPythonContext pc |}.

(** The first loop of [PatchPC.apply] for patch [i] with matrix [m]: the
    right-hand side [b] as it stands when [ksp.solve] is called. *)
Definition local_rhs (c : SubspaceCorrectionPrec) (bsize : nat)
    (x : list R) (im : nat * Mat R) : result (list R) :=
  let '(i, m) := im in
  let b := createVec (nrows m) in
  patch_dofs ← patch_slice (glob_patches c) i;
  bc_dofs ← patch_slice (bc_patches c) i;
  xr ← np_reshape bsize x;
  rhs ← np_take xr patch_dofs;
  br ← np_reshape bsize b;
  br ← np_broadcast (length br) rhs;
  br ← np_put_const br bc_dofs (replicate bsize s0);
  Ok (mjoin (M := list) br).

(** The body of the first loop: the one KSP of the instance is reset and
    set to the matrix of the patch, the right-hand side is gathered, and the
    solver fills the local solution [ly], a vector of the size of [m]. *)
Definition patch_solve (k : KSP) (c : SubspaceCorrectionPrec) (bsize : nat)
    (x : list R) (im : nat * Mat R) : result (list R * KSP) :=
  let k := KSP_setOperators (KSP_reset k) im.2 in
  let ly := createVec (nrows im.2) in
  b ← local_rhs c bsize x im;
  sol ← KSP_solve k b;
  Ok (resize (length ly) s0 sol, k).

(** The local solution of one patch alone. *)
Definition local_solve (self : PatchPC) (c : SubspaceCorrectionPrec) (bsize : nat)
    (x : list R) (im : nat * Mat R) : result (list R) :=
  value_of (patch_solve (ksp self) c bsize x im).

(** The first loop: the local solutions in the order of [ps], and the KSP
    as the last turn leaves it. *)
Definition solve_loop (k : KSP) (c : SubspaceCorrectionPrec) (bsize : nat)
    (x : list R) (ps : list (nat * Mat R)) : result (list (list R) * KSP) :=
  foldM (λ '(tmp_ys, k) im,
           '(ly, k) ← patch_solve k c bsize x im;
           Ok (tmp_ys ++ [ly], k))
        ps ([], k).

(** The KSP after the first loop over [ps]: as the turn of the last patch
    left it, or untouched when there is no patch. *)
Definition KSP_after (k : KSP) (ps : list (nat * Mat R)) : KSP :=
  match last ps with
  | Some im => KSP_setOperators (KSP_reset k) im.2
  | None => k
  end.

(** The body of the second loop: [y[patch_dofs] += ly], on rows of width
    [bsize]. *)
Definition scatter_add (c : SubspaceCorrectionPrec) (bsize : nat)
    (y : list R) (ily : nat * list R) : result (list R) :=
  let '(i, ly) := ily in
  patch_dofs ← patch_slice (glob_patches c) i;
  yr ← np_reshape bsize y;
  tmp ← np_take yr patch_dofs;
  lr ← np_reshape bsize ly;
  lr ← np_broadcast (length tmp) lr;
  Ok (mjoin (np_put yr patch_dofs (zip_with row_add tmp lr))).

(** [PatchPC.apply(pc, x, y)]: the new contents of [y] and the instance
    (whose context may have had properties cached by this call, and whose
    KSP is left set to the last patch). *)
Definition PatchPC_apply (globals_V : option FunctionSpace) (self : PatchPC)
    (x y : list R) : result (list R * PatchPC) :=
  let y := vec_set0 y in
  let bsize := dim (V (ctx self)) in
  '(ms, c) ← matrices globals_V (ctx self);
  '(tmp_ys, k) ← solve_loop (ksp self) c bsize x (enumerate ms);
  y ← foldM (scatter_add c bsize) (enumerate tmp_ys) y;
  Ok (y, {| ksp := k; ctx := c |}).

(** [PatchPC.apply] on the vectors themselves.  The PETSc vectors alive
    during a call, by identity, each with its array: [x] and [y] are two of
    them, and [m.createVecs()] makes two that were not there before. *)
#[local] Abbreviation Vecs := (gmap nat (list R)).

(** The array of a vector ([array_r], or [array] before a write). *)
Definition Vec_array (h : Vecs) (v : nat) : result (list R) :=
  match h !! v with Some arr => Ok arr | None => Raise PETScError end.

(** [ly, b = m.createVecs()], then [ly.set(0)] and [b.set(0)]. *)
Definition Mat_createVecs (m : Mat R) (h : Vecs) : nat * nat * Vecs :=
  let ly := fresh (dom h) in
  let h := <[ly := createVec (nrows m)]> h in
  let b := fresh (dom h) in
  (ly, b, <[b := createVec (nrows m)]> h).

(** The body of the first loop: the vector [ly] it appends to [tmp_ys], the
    KSP, and the vectors after the turn. *)
Definition patch_solve_vecs (k : KSP) (c : SubspaceCorrectionPrec) (bsize : nat)
    (x : nat) (im : nat * Mat R) (h : Vecs) : result (nat * KSP * Vecs) :=
  let k := KSP_setOperators (KSP_reset k) im.2 in
  let '(ly, b, h) := Mat_createVecs im.2 h in
  xa ← Vec_array h x;
  ba ← local_rhs c bsize xa im;
  let h := <[b := ba]> h in
  sol ← KSP_solve k ba;
  Ok (ly, k, <[ly := resize (nrows im.2) s0 sol]> h).

Definition solve_loop_vecs (k : KSP) (c : SubspaceCorrectionPrec) (bsize : nat)
    (x : nat) (ps : list (nat * Mat R)) (h : Vecs) : result (list nat * KSP * Vecs) :=
  foldM (λ '(tmp_ys, k, h) im,
           '(ly, k, h) ← patch_solve_vecs k c bsize x im h;
           Ok (tmp_ys ++ [ly], k, h))
        ps ([], k, h).

(** The body of the second loop: only the array of [y] is written. *)
Definition scatter_add_vecs (c : SubspaceCorrectionPrec) (bsize : nat) (y : nat)
    (h : Vecs) (ily : nat * nat) : result Vecs :=
  let '(i, ly) := ily in
  ya ← Vec_array h y;
  la ← Vec_array h ly;
  ya ← scatter_add c bsize ya (i, la);
  Ok (<[y := ya]> h).

Definition PatchPC_apply_vecs (globals_V : option FunctionSpace) (self : PatchPC)
    (x y : nat) (h : Vecs) : result (Vecs * PatchPC) :=
  ya ← Vec_array h y;
  let h := <[y := vec_set0 ya]> h in
  let bsize := dim (V (ctx self)) in
  '(ms, c) ← matrices globals_V (ctx self);
  '(tmp_ys, k, h) ← solve_loop_vecs (ksp self) c bsize x (enumerate ms) h;
  h ← foldM (scatter_add_vecs c bsize y) (enumerate tmp_ys) h;
  Ok (h, {| ksp := k; ctx := c |}).

(** [PatchPC.apply] with its two loops visiting the patches in another
    order: [order] rearranges the enumeration of the matrices, and both loops
    follow it.  The code is the case where [order] changes nothing. *)
Definition PatchPC_apply_in (order : list (nat * Mat R) → list (nat * Mat R))
    (globals_V : option FunctionSpace) (self : PatchPC)
    (x y : list R) : result (list R * PatchPC) :=
  let y := vec_set0 y in
  let bsize := dim (V (ctx self)) in
  '(ms, c) ← matrices globals_V (ctx self);
  let ps := order (enumerate ms) in
  '(tmp_ys, k) ← solve_loop (ksp self) c bsize x ps;
  y ← foldM (scatter_add c bsize) (zip ps.*1 tmp_ys) y;
  Ok (y, {| ksp := k; ctx := c |}).

(** The correction of one patch, as the specification words it: gather the
    residual at the dofs of the patch and zero its boundary-fixed entries
    ([local_rhs]), solve with the matrix of the patch, and add the local
    solution into [y] at the dofs of the patch. *)
Definition patch_correction (self : PatchPC) (c : SubspaceCorrectionPrec)
    (bsize : nat) (x : list R) (y : list R) (im : nat * Mat R) : result (list R) :=
  b ← local_rhs c bsize x im;
  sol ← ksp_solve (ksp_prefix (ksp self)) im.2 b;
  let ly := resize (nrows im.2) s0 sol in
  scatter_add c bsize y (im.1, ly).

(** [PatchSmoother.Apply] as the specification words it: the correction is
    set to zero, then every patch in turn adds its correction. *)
Definition PatchSmoother_Apply (globals_V : option FunctionSpace) (self : PatchPC)
    (x y : list R) : result (list R) :=
  '(ms, c) ← matrices globals_V (ctx self);
  foldM (patch_correction self c (dim (V (ctx self))) x) (enumerate ms)
        (replicate (length y) s0).

(** What [scatter_add] does to the rows of [y]: row [g] receives the
    local row last aimed at it, and is left alone when none is. *)
Definition bump (zs : list (nat * list R)) (yr : list (list R)) : list (list R) :=
  imap (λ g row, match assigned zs g with Some l => row_add row l | None => row end) yr.

(** The assignments one [scatter_add] makes into a [y] of [n] rows, when it
    makes them: the dofs of the patch, in range, paired with the rows of
    [ly]. *)
Definition scatter_plan (c : SubspaceCorrectionPrec) (bsize n : nat)
    (ily : nat * list R) : option (list (nat * list R)) :=
  dofs ← returned (patch_slice (glob_patches c) ily.1);
  guard (Forall (λ g, g < n) dofs);;
  lr ← returned (np_reshape bsize ily.2);
  lr ← returned (np_broadcast (length dofs) lr);
  Some (zip dofs lr).

(** *** class P1PC *)

Record P1PC := {
  pc : string;
  pc_operator : Mat R;
  transfer : Mat R;
  work1 : list R;
  work2 : list R;
}.

(** [P1PC.setUp(pc)]: the instance, and the context with the properties the
    call has evaluated. *)
Definition P1PC_setUp (outer : PC) : result (P1PC * SubspaceCorrectionPrec) :=
  let prefix := getOptionsPrefix outer +:+ "lo_" in
  let c := getPythonContext outer in
  '(op, c) ← P1_op c;
  '(t, c) ← transfer_op c;
  Ok ({| pc := prefix; pc_operator := op; transfer := t;
         work1 := createVec (nrows t); work2 := createVec (nrows t) |}, c).

(** The two uses [P1PC.apply] makes of the one transfer matrix: [mult] takes
    a fine vector to the coarse space (restriction), [multTranspose] takes a
    coarse vector to the fine space (prolongation). *)
Definition P1PC_restrict (self : P1PC) (x : list R) : result (list R) :=
  Mat_mult (transfer self) x (vec_set0 (work1 self)).
Definition P1PC_prolong (self : P1PC) (w y : list R) : result (list R) :=
  Mat_multTranspose (transfer self) w (vec_set0 y).

(** [P1PC.apply(pc, x, y)]: the new contents of [y] and the instance with
    its work vectors. *)
Definition P1PC_apply (self : P1PC) (x y : list R) : result (list R * P1PC) :=
  w1 ← P1PC_restrict self x;
  sol ← pc_apply (pc self) (pc_operator self) w1;
  let w2 := resize (length (work2 self)) s0 sol in
  y ← P1PC_prolong self w2 y;
  Ok (y, {| pc := pc self; pc_operator := pc_operator self;
            transfer := transfer self; work1 := w1; work2 := w2 |}).

(** *** The composite operator *)

(** Modelled from the spec: the composite operator of section 4.6, which
    pulley.py does not define (the two classes above are selected as separate
    preconditioners).  [Apply(x) = PatchSmoother.Apply(x) +
    CoarseCorrection.Apply(x)]: each component is applied to the same [x],
    the smoother into [y], the coarse correction into a work vector of the
    same size, and the two are summed entry by entry. *)
Definition Composite_apply (globals_V : option FunctionSpace)
    (smoother : PatchPC) (coarse : P1PC) (x y : list R) : result (list R) :=
  '(y1, _) ← PatchPC_apply globals_V smoother x y;
  '(y2, _) ← P1PC_apply coarse x (createVec (length y));
  Ok (zip_with sadd y1 y2).

End model.
Arguments PC R : clear implicits.
Arguments KSP R : clear implicits.
Arguments PatchPC R : clear implicits.
Arguments P1PC R : clear implicits.

(** What one turn of the loop of [matrices] needs of the patch arrays at
    patch [i]: a block size of at least one, the offsets it reads, a patch
    size that is not negative, and boundary-fixed local dofs inside the
    patch. *)
Definition patch_ok {R} (self : SubspaceCorrectionPrec R) (dim i : nat) : Prop :=
  dim ≠ 0
  ∧ is_Some (offset (cells self) !! i) ∧ is_Some (offset (cells self) !! (i + 1))
  ∧ ∃ g0 g1 rows,
      offset (glob_patches self) !! i = Some g0
      ∧ offset (glob_patches self) !! (i + 1) = Some g1
      ∧ g0 ≤ g1
      ∧ patch_slice (bc_patches self) i = Ok rows
      ∧ Forall (λ r, r < g1 - g0) rows.

(** The enumeration order of the patches does not show in the result of
    [PatchPC.apply]. *)
Definition order_independent (R : Type) `{Scalar R} `{Backend R} : Prop :=
  ∀ (order : list (nat * Mat R) → list (nat * Mat R)),
    (∀ l, order l ≡ₚ l) →
    ∀ globals_V (self : PatchPC R) (x y : list R),
      returned (value_of (PatchPC_apply_in order globals_V self x y))
      = returned (value_of (PatchPC_apply globals_V self x y)).
End pulley.

(** ** firedrake/halo.py *)

Module halo.

Inductive SFType := BASIC | WINDOW | NEIGHBOR.
#[global] Instance SFType_eq_dec : EqDecision SFType.
Proof. solve_decision. Defined.

(** A star forest after [setFromOptions()]: its type. *)
Record SF := { getType : SFType }.

Definition PetscSection := list nat.

(** The DM handed to [Halo]: its two sections and the star forest that
    [createDefaultSF]/[getDefaultSF] yield. *)
Record DM := {
  getDefaultSection : PetscSection;
  getDefaultGlobalSection : PetscSection;
  getDefaultSF : SF;
}.

(** The values [_gnn2unn] can hold. *)
Inductive pyvalue :=
  | PyNone
  | PyArray (v : list Z).

(** The instance dictionary of a [Halo]: an attribute is [None] here until
    it has been assigned. *)
Record Halo := { sf : option SF; _gnn2unn : option pyvalue }.

Definition set_sf (self : Halo) (v : SF) : Halo :=
  {| sf := Some v; _gnn2unn := _gnn2unn self |}.
Definition set_gnn2unn (self : Halo) (v : pyvalue) : Halo :=
  {| sf := sf self; _gnn2unn := Some v |}.

Section model.
(** [dmplex.make_global_numbering], compiled code outside the repository's
    Python sources. *)
Context (make_global_numbering : PetscSection → PetscSection → list Z).

(** [Halo.__init__(dm)], with [comm_size] the value of [op2.MPI.comm.size]. *)
Definition Halo_init (comm_size : nat) (dm : DM) : result Halo :=
  let self := {| sf := None; _gnn2unn := None |} in
  let lsec := getDefaultSection dm in
  let gsec := getDefaultGlobalSection dm in
  let self := set_sf self (getDefaultSF dm) in
  if decide (getType (getDefaultSF dm) ≠ BASIC) then Raise RuntimeError
  else
    let self := if decide (comm_size = 1) then set_gnn2unn self PyNone else self in
    let self := set_gnn2unn self (PyArray (make_global_numbering lsec gsec)) in
    Ok self.

(** The property [Halo.global_to_petsc_numbering]. *)
Definition global_to_petsc_numbering (self : Halo) : result pyvalue :=
  match _gnn2unn self with
  | Some v => Ok v
  | None => Raise AttributeError
  end.
End model.

(** *** Datatypes for the halo exchange *)

(** The numpy dtype of a dat, a scalar type.  [dtype_str] is its canonical
    description ([dtype.str], such as [<i8]): two such dtypes compare equal,
    and hash alike, exactly when they describe the same type.  [dtype_char]
    is the one-character code, which equal dtypes need not share (['l'] and
    ['q'] are both [<i8] where a C long has eight bytes). *)
Record dtype := { dtype_str : string; dtype_char : string }.

(** MPI datatypes: the predefined ones, and [btype.Create_contiguous(n)]. *)
Inductive Datatype :=
  | Builtin (name : string)
  | Contiguous (count : nat) (base : Datatype).
#[global] Instance Datatype_eq_dec : EqDecision Datatype.
Proof. solve_decision. Defined.

(** A numpy array with the two flags the exchange looks at. *)
Record ndarray := { values : list Z; OWNDATA : bool; WRITEABLE : bool }.

Record Dat := { dat_dtype : dtype; cdim : nat; _data : ndarray }.

(** The module [mpi4py.MPI] as far as [_get_mtype] reads it: the table from
    character codes to datatypes, under its old or its new name. *)
Record MPImodule := {
  __TypeDict__ : option (gmap string Datatype);
  _typedict : option (gmap string Datatype);
}.

(** The module-level dict [_MPI_types], and the derived datatypes committed
    so far ([typ.Commit()]), in order.  A key [(dat.dtype, dat.cdim)] is
    found again by every key that compares equal to it: the dict is indexed
    by the canonical description of the dtype and the [cdim]. *)
Record MPIState := {
  _MPI_types : gmap (string * nat) Datatype;
  committed : list Datatype;
}.

(** [key = (dat.dtype, dat.cdim)], up to the equality of keys. *)
Definition mtype_key (dat : Dat) : string * nat :=
  (dtype_str (dat_dtype dat), cdim dat).

(** [_get_mtype(dat)]: the state after the call and what the call returns
    or raises. *)
Definition _get_mtype (MPI : MPImodule) (st : MPIState) (dat : Dat)
  : MPIState * result Datatype :=
  let key := mtype_key dat in
  match _MPI_types st !! key with
  | Some typ => (st, Ok typ)
  | None =>
      match (match __TypeDict__ MPI with
             | Some d => Some d
             | None => _typedict MPI
             end) with
      | None => (st, Raise AttributeError)
      | Some tdict =>
          match tdict !! dtype_char (dat_dtype dat) with
          | None => (st, Raise RuntimeError)
          | Some btype =>
              if decide (cdim dat = 1)
              then ({| _MPI_types := <[key := btype]> (_MPI_types st);
                       committed := committed st |}, Ok btype)
              else
                let typ := Contiguous (cdim dat) btype in
                ({| _MPI_types := <[key := typ]> (_MPI_types st);
                    committed := committed st ++ [typ] |}, Ok typ)
          end
      end
  end.

(** [pyop2.utils.maybe_setflags(array, write=w)]: the write flag is set only
    on an array that owns its data. *)
Definition maybe_setflags (a : ndarray) (write : bool) : ndarray :=
  if OWNDATA a
  then {| values := values a; OWNDATA := OWNDATA a; WRITEABLE := write |}
  else a.

Definition set_data (dat : Dat) (a : ndarray) : Dat :=
  {| dat_dtype := dat_dtype dat; cdim := cdim dat; _data := a |}.

(** The calls made into [dmplex]: a begin or an end of an exchange, with
    the dat as it stood at the call. *)
Inductive Exchange :=
  | halo_begin (s : SF) (dat : Dat) (mtype : Datatype) (reverse : bool)
  | halo_end (s : SF) (dat : Dat) (mtype : Datatype) (reverse : bool).

(** What lives outside the [Halo]: the memo with the committed datatypes,
    and the exchanges started and completed so far. *)
Record World := { mpi_state : MPIState; exchanges : list Exchange }.

Section exchange.
(** [sf.comm.size], and the values [dmplex.halo_end] leaves in the array. *)
Context (comm_size_of : SF → nat).
Context (halo_end_values : SF → Dat → Datatype → bool → list Z).
Context (MPI : MPImodule).

(** [Halo.begin(dat, reverse)] *)
Definition Halo_begin (self : Halo) (dat : Dat) (reverse : bool) (w : World)
  : World * result unit :=
  match sf self with
  | None => (w, Raise AttributeError)
  | Some s =>
      if decide (comm_size_of s = 1) then (w, Ok ())
      else
        match _get_mtype MPI (mpi_state w) dat with
        | (st, Raise e) =>
            ({| mpi_state := st; exchanges := exchanges w |}, Raise e)
        | (st, Ok mtype) =>
            ({| mpi_state := st;
                exchanges := exchanges w ++ [halo_begin s dat mtype reverse] |}, Ok ())
        end
  end.

(** [Halo.end(dat, reverse)]: also the dat, whose array is written to. *)
Definition Halo_end (self : Halo) (dat : Dat) (reverse : bool) (w : World)
  : World * Dat * result unit :=
  match sf self with
  | None => (w, dat, Raise AttributeError)
  | Some s =>
      if decide (comm_size_of s = 1) then (w, dat, Ok ())
      else
        match _get_mtype MPI (mpi_state w) dat with
        | (st, Raise e) =>
            ({| mpi_state := st; exchanges := exchanges w |}, dat, Raise e)
        | (st, Ok mtype) =>
            let dat1 := set_data dat (maybe_setflags (_data dat) true) in
            let a2 := {| values := halo_end_values s dat1 mtype reverse;
                         OWNDATA := OWNDATA (_data dat1);
                         WRITEABLE := WRITEABLE (_data dat1) |} in
            let dat3 := set_data dat (maybe_setflags a2 false) in
            ({| mpi_state := st;
                exchanges := exchanges w ++ [halo_end s dat1 mtype reverse] |},
             dat3, Ok ())
        end
  end.
End exchange.
End halo.

(** ** demos/subspace_correction/pulley.py: the labelling of the boundary *)

Module pulley_script.

(** [inner_surface(x)] on the coordinates of a vertex. *)
#[warnings="-inexact-float"]
Definition inner_surface (x : list float) : result bool :=
  x2 ← np_index x 2;
  let r := (3.75 - x2 * 0.17)%float in
  x0 ← np_index x 0;
  x1 ← np_index x 1;
  Ok (PrimFloat.ltb (x0 * x0 + x1 * x1) (r * r)).

(** The DM as the loop reads it: the facets of the stratum
    ["exterior_facets"], the points of the transitive closure of a point, and
    the coordinates [vecGetClosure] returns for a point. *)
Record DM := {
  exterior_facets : list nat;
  getTransitiveClosure : nat → list nat;
  vecGetClosure : nat → list float;
}.

(** [p[-3:]] *)
Definition last3 {A} (p : list A) : list A := drop (length p - 3) p.

(** The inner loop: [innerblah] after it; the loop is left at the first
    vertex that is not on the inner surface. *)
Fixpoint all_inner (dm : DM) (p : list nat) : result bool :=
  match p with
  | [] => Ok true
  | v :: p =>
      is_inner ← inner_surface (vecGetClosure dm v);
      if is_inner : bool then all_inner dm p else Ok false
  end.

(** One turn of the outer loop: facet [f] receives value 1 or 2 in the label
    ["boundary_ids"]. *)
Definition label_facet (dm : DM) (boundary_ids : gmap nat nat) (f : nat)
  : result (gmap nat nat) :=
  let p := last3 (getTransitiveClosure dm f) in
  innerblah ← all_inner dm p;
  Ok (<[f := if innerblah : bool then 1 else 2]> boundary_ids).

(** The label ["boundary_ids"], created empty, after the loop over the
    exterior facets. *)
Definition label_boundary (dm : DM) : result (gmap nat nat) :=
  foldM (label_facet dm) (exterior_facets dm) ∅.
End pulley_script.

(** ** Concrete configurations *)

Module examples.
Import pulley.
#[local] Existing Instance Z_Scalar.

(** [-sub_pc_type jacobi] under a PREONLY KSP: entry [i] of the right-hand
    side divided by the diagonal entry of the operator. *)
Definition jacobi {R} (div : R → R → R) (m : Mat R) (b : list R) : result (list R) :=
  Ok (imap (λ i bi, div bi (entry m i i)) b).

(** Three patches over four nodes: nodes 0-1, nodes 1-3 and node 3 alone;
    the first node of patch 0 and the only node of patch 2 are
    boundary-fixed. *)
Definition glob3 : Patches := {| offset := [0; 2; 5; 6]; value := [0; 1; 1; 2; 3; 3] |}.
Definition bc3 : Patches := {| offset := [0; 1; 1; 2]; value := [0; 0] |}.
Definition dof3 : Patches := {| offset := [0; 2; 5; 6]; value := [0; 1; 0; 1; 2; 0] |}.
Definition cells3 : Patches := {| offset := [0; 1; 3; 4]; value := [0; 0; 1; 1] |}.

(** One compiled kernel, a cell integral for the block [(0, 0)]. *)
Definition cell_kernel : TSFCKernel :=
  {| indices := (0, 0);
     kinfo := {| kernel := 0; integral_type := "cell"; oriented := false;
                 coefficient_map := [] |} |}.

(** Lagrange elements on an interval: [degree + 1] basis functions. *)
Definition interval_dimension (W : FunctionSpace) : nat := degree W + 1.

(** An exact backend on the integers: one cell kernel, unit diagonal element
    matrices with off-diagonal coupling 7, Jacobi local solves, and a coarse
    space of two dofs with the transfer matrix [[1 1 0 0] [0 0 1 1]] on each
    component. *)
Definition Z_backend : Backend Z := {|
  get_cell_facet_patches _ := (cells3, cells3);
  get_dof_patches _ _ _ _ _ := (dof3, glob3, bc3);
  boundary_nodes _ _ _ := [0];
  assemble _ _ :=
    {| nrows := 2; ncols := 2; entry := λ i j, if decide (i = j) then 1%Z else 0%Z |};
  tsfc_compile_form _ _ := [cell_kernel];
  sscutils_matrix_callable _ _ _ := λ _ _ _ i j, if decide (i = j) then 1%Z else 7%Z;
  fiat_space_dimension := interval_dimension;
  fiat_riesz_matrix Pk P :=
    {| nrows := interval_dimension P; ncols := interval_dimension Pk;
       entry := λ i j, if decide (j = i * degree Pk) then 1%Z else 0%Z |};
  block_shape _ _ := [[[1; 1]]];
  transfer_par_loop _ _ _ _ _ _ :=
    {| nrows := 2; ncols := 4;
       entry := λ i j, if decide (j / 2 = i) then 1%Z else 0%Z |};
  ksp_solve _ := jacobi Z.div;
  pc_apply _ _ b := Ok ((λ v, 3 * v)%Z <$> b);
|}.

Definition mesh0 : Mesh := 0.
Definition Vscalar : FunctionSpace :=
  {| fs_mesh := mesh0; family := "CG"; degree := 3; shape := [] |}.
Definition Vvector : FunctionSpace :=
  {| fs_mesh := mesh0; family := "CG"; degree := 3; shape := [2] |}.
Definition Vtensor : FunctionSpace :=
  {| fs_mesh := mesh0; family := "CG"; degree := 3; shape := [2; 2] |}.

Definition form_on (W : FunctionSpace) : Form :=
  {| ufl_domain := mesh0; arguments := (TestFunction W, TrialFunction W);
     integrand := 0 |}.

Definition bc_on (W : FunctionSpace) : DirichletBC :=
  {| bc_space := W; function_arg := Const [0%Z]; sub_domain := [1];
     method := "topological"; nodes := [0] |}.

(** The context [__init__] builds for a space over the three patches. *)
Definition scp_on (W P : FunctionSpace) : SubspaceCorrectionPrec Z :=
  {| a := form_on W; mesh := mesh0; V := W; P1 := P; bcs := [bc_on W];
     cells := cells3; facets := cells3;
     dof_patches := dof3; glob_patches := glob3; bc_patches := bc3;
     cached_P1_form := None; cached_P1_bcs := None; cached_P1_op := None;
     cached_kernels := None; cached_matrix_callable := None;
     cached_matrices := None; cached_transfer_op := None |}.

Definition scp_scalar := scp_on Vscalar (mkFunctionSpace mesh0 "CG" 1).
Definition scp_vector := scp_on Vvector (VectorFunctionSpace mesh0 "CG" 1 2).

Definition outer_pc {R} (c : SubspaceCorrectionPrec R) : PC R :=
  {| getOptionsPrefix := ""; getPythonContext := c |}.

(** Three patches that share node 0: nodes 0-1, nodes 0-2 and nodes 0-3,
    one cell each, nothing boundary-fixed. *)
Definition glob_star : Patches := {| offset := [0; 2; 4; 6]; value := [0; 1; 0; 2; 0; 3] |}.
Definition bc_star : Patches := {| offset := [0; 0; 0; 0]; value := [] |}.
Definition dof_star : Patches := {| offset := [0; 2; 4; 6]; value := [0; 1; 0; 1; 0; 1] |}.
Definition cells_star : Patches := {| offset := [0; 1; 2; 3]; value := [0; 1; 2] |}.

(** A binary64 backend: diagonal element matrices, with diagonal [2^-53] on
    the patch of cell 0 and [1] on the others, and Jacobi local solves. *)
Definition float_backend : Backend float := {|
  get_cell_facet_patches _ := (cells_star, cells_star);
  get_dof_patches _ _ _ _ _ := (dof_star, glob_star, bc_star);
  boundary_nodes _ _ _ := [];
  assemble _ _ := {| nrows := 0; ncols := 0; entry := λ _ _, 0%float |};
  tsfc_compile_form _ _ := [cell_kernel];
  sscutils_matrix_callable _ _ _ := λ _ cells_i _ i j,
    if decide (i = j)
    then (if decide (head cells_i = Some 0) then 0x1p-53%float else 1%float)
    else 0%float;
  fiat_space_dimension := interval_dimension;
  fiat_riesz_matrix _ _ := {| nrows := 0; ncols := 0; entry := λ _ _, 0%float |};
  block_shape _ _ := [[[1; 1]]];
  transfer_par_loop _ _ _ _ _ _ :=
    {| nrows := 0; ncols := 0; entry := λ _ _, 0%float |};
  ksp_solve _ := jacobi PrimFloat.div;
  pc_apply _ _ b := Ok b;
|}.

Definition scp_star : SubspaceCorrectionPrec float :=
  {| a := form_on Vscalar; mesh := mesh0; V := Vscalar;
     P1 := mkFunctionSpace mesh0 "CG" 1; bcs := [];
     cells := cells_star; facets := cells_star;
     dof_patches := dof_star; glob_patches := glob_star; bc_patches := bc_star;
     cached_P1_form := None; cached_P1_bcs := None; cached_P1_op := None;
     cached_kernels := None; cached_matrix_callable := None;
     cached_matrices := None; cached_transfer_op := None |}.

(** Residuals over the four nodes, one and two components per node, and
    the smoothers of the two contexts. *)
Definition x4 : list Z := [10; 20; 30; 40]%Z.
Definition x8 : list Z := [10; 11; 20; 21; 30; 31; 40; 41]%Z.
Definition smoother_scalar : PatchPC Z := PatchPC_setUp (outer_pc scp_scalar).
Definition smoother_vector : PatchPC Z := PatchPC_setUp (outer_pc scp_vector).

(** The matrix of patch 0 of the scalar context at block size one. *)
Definition patch0_matrix : Mat Z :=
  match patch_matrix (H0 := Z_backend) scp_scalar 1 0 with
  | Ok m => m
  | Raise _ => {| nrows := 0; ncols := 0; entry := λ _ _, 0%Z |}
  end.

(** Visit the first patch last. *)
Definition first_last {A} (l : list A) : list A :=
  match l with [] => [] | p :: l => l ++ [p] end.

(** The coarse correction [setUp] builds on the scalar context, and the
    context it leaves. *)
Definition coarse_setUp : P1PC Z * SubspaceCorrectionPrec Z :=
  match P1PC_setUp (H0 := Z_backend) (outer_pc scp_scalar) with
  | Ok r => r
  | Raise _ =>
      ({| pc := ""; pc_operator := patch0_matrix; transfer := patch0_matrix;
          work1 := []; work2 := [] |}, scp_scalar)
  end.
Definition coarse_scalar : P1PC Z := coarse_setUp.1.
End examples.

(** Further configurations: an MPI module and a dat for the halo exchange,
    element data for the transfer kernel, a context without patches, and a
    boundary of two facets for the labelling loop. *)
Module fixtures.
Import pulley examples.

Definition float64 : halo.dtype :=
  {| halo.dtype_str := "<f8"; halo.dtype_char := "d" |}.
Definition int128 : halo.dtype :=
  {| halo.dtype_str := "<i16"; halo.dtype_char := "?" |}.
(** Two dtypes that compare equal and differ in their character code. *)
Definition int64_l : halo.dtype :=
  {| halo.dtype_str := "<i8"; halo.dtype_char := "l" |}.
Definition int64_q : halo.dtype :=
  {| halo.dtype_str := "<i8"; halo.dtype_char := "q" |}.

(** A module with the table under its new name, one with the table under
    its old name, and one with neither. *)
Definition MPI_new : halo.MPImodule :=
  {| halo.__TypeDict__ := Some {[ "d" := halo.Builtin "MPI_DOUBLE" ]};
     halo._typedict := None |}.
Definition MPI_old : halo.MPImodule :=
  {| halo.__TypeDict__ := None;
     halo._typedict := Some {[ "d" := halo.Builtin "MPI_DOUBLE" ]} |}.
Definition MPI_bare : halo.MPImodule :=
  {| halo.__TypeDict__ := None; halo._typedict := None |}.
(** The integer types of the table, under its old name. *)
Definition int_types : gmap string halo.Datatype :=
  {[ "l" := halo.Builtin "MPI_LONG"; "q" := halo.Builtin "MPI_LONG_LONG" ]}.
Definition MPI_ints : halo.MPImodule :=
  {| halo.__TypeDict__ := None; halo._typedict := Some int_types |}.

Definition st0 : halo.MPIState := {| halo._MPI_types := ∅; halo.committed := [] |}.

Definition dat_on (t : halo.dtype) (n : nat) : halo.Dat :=
  {| halo.dat_dtype := t; halo.cdim := n;
     halo._data := {| halo.values := [1; 2; 3]%Z; halo.OWNDATA := true;
                      halo.WRITEABLE := false |} |}.

Definition sf_basic : halo.SF := {| halo.getType := halo.BASIC |}.
Definition halo2 : halo.Halo :=
  {| halo.sf := Some sf_basic; halo._gnn2unn := Some (halo.PyArray []) |}.
Definition world0 : halo.World := {| halo.mpi_state := st0; halo.exchanges := [] |}.
(** Two processes; the exchange doubles the values. *)
Definition two_processes (s : halo.SF) : nat := 2.
Definition doubled (s : halo.SF) (d : halo.Dat) (t : halo.Datatype) (r : bool)
  : list Z := (λ v, 2 * v)%Z <$> halo.values (halo._data d).

(** Lagrange elements on an interval: [degree + 1] basis functions, and the
    matrix that reads a [P1] function at the two end nodes. *)
Definition space_dimension (W : FunctionSpace) : nat := degree W + 1.
Definition riesz_matrix (Pk P : FunctionSpace) : Mat Z :=
  {| nrows := space_dimension P; ncols := space_dimension Pk;
     entry := λ i j, if decide (j = i * degree Pk) then 1%Z else 0%Z |}.

Definition bc_at (W : FunctionSpace) (ns : list nat) : DirichletBC :=
  {| bc_space := W; function_arg := Const [0%Z]; sub_domain := [2];
     method := "topological"; nodes := ns |}.

(** A backend whose [assemble] and transfer loop yield empty matrices. *)
Definition empty_backend : Backend Z := {|
  get_cell_facet_patches _ := (cells3, cells3);
  get_dof_patches _ _ _ _ _ := (dof3, glob3, bc3);
  boundary_nodes _ _ _ := [];
  assemble _ _ := {| nrows := 0; ncols := 0; entry := λ _ _, 0%Z |};
  tsfc_compile_form _ _ := [];
  sscutils_matrix_callable _ _ _ := λ _ _ _ _ _, 0%Z;
  fiat_space_dimension := interval_dimension;
  fiat_riesz_matrix _ _ := {| nrows := 0; ncols := 0; entry := λ _ _, 0%Z |};
  block_shape _ _ := [];
  transfer_par_loop _ _ _ _ _ _ := {| nrows := 0; ncols := 0; entry := λ _ _, 0%Z |};
  ksp_solve _ _ b := Ok b;
  pc_apply _ _ b := Ok b;
|}.

(** The backend of the examples, with a second compiled kernel that is not a
    cell integral. *)
Definition facet_kernel : TSFCKernel :=
  {| indices := (0, 0);
     kinfo := {| kernel := 1; integral_type := "exterior_facet"; oriented := false;
                 coefficient_map := [] |} |}.
Definition facet_backend : Backend Z := {|
  get_cell_facet_patches := get_cell_facet_patches (Backend := Z_backend);
  get_dof_patches := get_dof_patches (Backend := Z_backend);
  boundary_nodes := boundary_nodes (Backend := Z_backend);
  assemble := assemble (Backend := Z_backend);
  tsfc_compile_form _ _ := [cell_kernel; facet_kernel];
  sscutils_matrix_callable := sscutils_matrix_callable (Backend := Z_backend);
  fiat_space_dimension := interval_dimension;
  fiat_riesz_matrix := fiat_riesz_matrix (Backend := Z_backend);
  block_shape := block_shape (Backend := Z_backend);
  transfer_par_loop := transfer_par_loop (Backend := Z_backend);
  ksp_solve := ksp_solve (Backend := Z_backend);
  pc_apply := pc_apply (Backend := Z_backend);
|}.

(** A form whose trial function carries the number 2. *)
Definition form_odd : Form :=
  {| ufl_domain := mesh0;
     arguments := (TestFunction Vscalar, {| function_space := Vscalar; number := 2 |});
     integrand := 0 |}.
Definition scp_odd : SubspaceCorrectionPrec Z :=
  {| a := form_odd; mesh := mesh0; V := Vscalar;
     P1 := mkFunctionSpace mesh0 "CG" 1; bcs := [];
     cells := cells3; facets := cells3;
     dof_patches := dof3; glob_patches := glob3; bc_patches := bc3;
     cached_P1_form := None; cached_P1_bcs := None; cached_P1_op := None;
     cached_kernels := None; cached_matrix_callable := None;
     cached_matrices := None; cached_transfer_op := None |}.

Definition no_patches : Patches := {| offset := [0]; value := [] |}.
Definition scp_empty : SubspaceCorrectionPrec Z :=
  {| a := form_on Vscalar; mesh := mesh0; V := Vscalar;
     P1 := mkFunctionSpace mesh0 "CG" 1; bcs := [];
     cells := no_patches; facets := no_patches;
     dof_patches := no_patches; glob_patches := no_patches;
     bc_patches := no_patches;
     cached_P1_form := None; cached_P1_bcs := None; cached_P1_op := None;
     cached_kernels := None; cached_matrix_callable := None;
     cached_matrices := None; cached_transfer_op := None |}.

(** A residual and a vector over five nodes, the last one in no patch. *)
Definition x5 : list Z := [10; 20; 30; 40; 50]%Z.

(** Two exterior facets; the last three points of their closures are their
    vertices.  Vertex 4 lies outside the inner surface. *)
Definition dm2 : pulley_script.DM :=
  {| pulley_script.exterior_facets := [10; 11];
     pulley_script.getTransitiveClosure := λ f,
       if decide (f = 10) then [10; 1; 2; 3] else [11; 2; 4; 3];
     pulley_script.vecGetClosure := λ v,
       if decide (v = 4) then [5; 0; 0]%float else [1; 0; 0]%float |}.
End fixtures.

(** * Properties *)

(** ** The error monad *)

Lemma bind_Ok {A B} (m : result A) (f : A → result B) (b : B) :
  m ≫= f = Ok b ↔ ∃ a, m = Ok a ∧ f a = Ok b.
Proof.
  destruct m as [a0|e]; simpl; split.
  - intros Hf. by exists a0.
  - by intros (a1 & [= ->] & Hf).
  - discriminate.
  - by intros (a1 & ? & _).
Qed.

Lemma returned_bind {A B} (m : result A) (f : A → result B) :
  returned (m ≫= f) = returned m ≫= (λ a, returned (f a)).
Proof. by destruct m. Qed.

Lemma returned_Some {A} (m : result A) (a : A) : returned m = Some a ↔ m = Ok a.
Proof. destruct m; simpl; split; congruence. Qed.

(** Two computations that agree up to the exception raised still agree after
    the same continuation. *)
Lemma returned_bind_ext {A B} (m1 m2 : result A) (f1 f2 : A → result B) :
  returned m1 = returned m2 →
  (∀ a, m2 = Ok a → returned (f1 a) = returned (f2 a)) →
  returned (m1 ≫= f1) = returned (m2 ≫= f2).
Proof.
  rewrite !returned_bind. intros -> Hf.
  destruct m2 as [a0|e]; simpl; [by apply Hf | done].
Qed.

Ltac inv_result :=
  repeat match goal with
    | H : _ ≫= _ = Ok _ |- _ =>
        let a := fresh "r" in
        let Ha := fresh "E" in
        apply bind_Ok in H as (a & Ha & H)
    | H : mret _ = Ok _ |- _ => unfold mret, result_ret in H
    | H : Ok _ = Ok _ |- _ => injection H as H
    | H : Raise _ = Ok _ |- _ => discriminate H
    | H : (let '(_, _) := ?p in _) = Ok _ |- _ => destruct p
    end.

(** ** firedrake/halo.py *)

(** C10.  Once [Halo.__init__] has returned, [global_to_petsc_numbering] is the
    array computed by [make_global_numbering] and is not [None], whatever the
    size of the communicator: the assignment of [None] made for a size of one
    is overwritten by the assignment that follows it. *)
Theorem Halo_numbering_is_array
    (mgn : halo.PetscSection → halo.PetscSection → list Z)
    (comm_size : nat) (dm : halo.DM) (h : halo.Halo) :
  halo.Halo_init mgn comm_size dm = Ok h →
  halo.global_to_petsc_numbering h
    = Ok (halo.PyArray (mgn (halo.getDefaultSection dm) (halo.getDefaultGlobalSection dm)))
  ∧ halo.global_to_petsc_numbering h ≠ Ok halo.PyNone.
Proof.
  unfold halo.Halo_init. intros Hinit.
  destruct (decide (halo.getType (halo.getDefaultSF dm) ≠ halo.BASIC)) as [|_];
    [discriminate|].
  injection Hinit as <-. unfold halo.global_to_petsc_numbering.
  destruct (decide (comm_size = 1)); simpl; split; congruence.
Qed.

Lemma Halo_numbering_is_array_witness :
  let dm := {| halo.getDefaultSection := [0; 1];
               halo.getDefaultGlobalSection := [0; 1];
               halo.getDefaultSF := {| halo.getType := halo.BASIC |} |} in
  let mgn := λ l g : halo.PetscSection, Z.of_nat <$> (l ++ g) in
  ∃ h, halo.Halo_init mgn 1 dm = Ok h
       ∧ halo.global_to_petsc_numbering h = Ok (halo.PyArray [0; 1; 0; 1]%Z)
       ∧ halo.global_to_petsc_numbering h ≠ Ok halo.PyNone.
Proof.
  intros dm mgn. eexists. split; [reflexivity|].
  exact (Halo_numbering_is_array mgn 1 dm _ eq_refl).
Defined.

(** ** pulley.py: construction *)

Section construction.
Import pulley.
Context {R : Type} `{Scalar R} `{Backend R}.

(** C7.  For a form whose test and trial arguments live on the same space
    (the assertion that precedes the rank test), construction raises at once
    when the space is tensor-valued (rank two or more), whatever [bcs] holds:
    the branch on the rank comes before any use of the boundary conditions or
    of the patches.  The exception is Python's NotImplementedError, which is
    the code's way of reporting the unsupported configuration.  For rank zero
    and rank one the coarse space is built (scalar, or vector with the same
    number of components), and those are the only ranks for which construction
    returns. *)
Theorem init_rank_dispatch (a0 : Form) (bcs0 : bcs_arg) :
  let V0 := function_space (arguments a0).1 in
  V0 = function_space (arguments a0).2 →
  (2 ≤ rank V0 → SubspaceCorrectionPrec_init a0 bcs0 = Raise NotImplementedError)
  ∧ (rank V0 ≤ 1 → bcs0 ≠ BcSeq [] →
       ∃ s, SubspaceCorrectionPrec_init a0 bcs0 = Ok s ∧ V s = V0)
  ∧ (∀ s, SubspaceCorrectionPrec_init a0 bcs0 = Ok s →
       (rank V0 = 0 ∧ P1 s = mkFunctionSpace (ufl_domain a0) "CG" 1)
       ∨ (∃ d, shape V0 = [d] ∧ P1 s = VectorFunctionSpace (ufl_domain a0) "CG" 1 d)).
Proof.
  intros V0 HV. subst V0. unfold SubspaceCorrectionPrec_init.
  destruct (arguments a0) as [test trial]; simpl in *.
  rewrite (bool_decide_eq_true_2 _ HV). simpl.
  unfold rank. destruct (shape (function_space test)) as [|d [|d' sh]] eqn:Hsh; simpl.
  - split; [lia|]. split.
    + intros _ Hbcs.
      destruct bcs0 as [|bc|[|bc l]]; simpl; try done;
        destruct (get_cell_facet_patches _) as [c f];
        destruct (get_dof_patches _ _ _ _ _) as [[dd g] b]; eauto.
    + intros s Hs. left. split; [done|].
      destruct bcs0 as [|bc|[|bc l]]; simpl in Hs; try done;
        destruct (get_cell_facet_patches _) as [c f];
        destruct (get_dof_patches _ _ _ _ _) as [[dd g] b];
        by injection Hs as <-.
  - split; [lia|]. split.
    + intros _ Hbcs.
      destruct bcs0 as [|bc|[|bc l]]; simpl; try done;
        destruct (get_cell_facet_patches _) as [c f];
        destruct (get_dof_patches _ _ _ _ _) as [[dd g] b]; eauto.
    + intros s Hs. right. exists d. split; [done|].
      destruct bcs0 as [|bc|[|bc l]]; simpl in Hs; try done;
        destruct (get_cell_facet_patches _) as [c f];
        destruct (get_dof_patches _ _ _ _ _) as [[dd g] b];
        by injection Hs as <-.
  - split; [done|]. split; [lia|]. intros s Hs. discriminate.
Qed.

End construction.

Lemma init_rank_dispatch_witness :
  pulley.SubspaceCorrectionPrec_init (H0 := examples.Z_backend)
      (examples.form_on examples.Vtensor) (pulley.BcOne (examples.bc_on examples.Vtensor))
    = Raise NotImplementedError
  ∧ pulley.SubspaceCorrectionPrec_init (H0 := examples.Z_backend)
      (examples.form_on examples.Vtensor) (pulley.BcSeq [])
    = Raise NotImplementedError
  ∧ pulley.SubspaceCorrectionPrec_init (H0 := examples.Z_backend)
      (examples.form_on examples.Vvector) (pulley.BcOne (examples.bc_on examples.Vvector))
    = Ok examples.scp_vector.
Proof.
  split; [|split].
  - apply (init_rank_dispatch (H0 := examples.Z_backend)
             (examples.form_on examples.Vtensor)); [reflexivity | vm_compute; lia].
  - apply (init_rank_dispatch (H0 := examples.Z_backend)
             (examples.form_on examples.Vtensor)); [reflexivity | vm_compute; lia].
  - reflexivity.
Defined.

(** ** Loops and index arrays *)

Section result_lists.
Context {A B : Type}.
Implicit Types (f : A → result B) (l : list A) (k : list B).

Lemma mapM_Ok f l k : mapM f l = Ok k ↔ Forall2 (λ x y, f x = Ok y) l k.
Proof.
  revert k. induction l as [|x l IH]; intros k; simpl.
  - split; [intros [= <-]; constructor | by inversion 1].
  - split.
    + intros Hm. inv_result. subst k. constructor; [done|]. by apply IH.
    + inversion 1 as [|? y ? k' Hy Hk]; subst. rewrite Hy. simpl.
      apply IH in Hk. rewrite Hk. done.
Qed.

Lemma mapM_Ok_length f l k : mapM f l = Ok k → length k = length l.
Proof. rewrite mapM_Ok. intros Hf. symmetry. by eapply Forall2_length. Qed.

End result_lists.

Lemma np_index_Ok {A} (l : list A) i x : np_index l i = Ok x ↔ l !! i = Some x.
Proof. unfold np_index. destruct (l !! i); split; congruence. Qed.

Lemma np_take_Ok {A} (rows : list A) idx vals :
  np_take rows idx = Ok vals ↔ Forall2 (λ g v, rows !! g = Some v) idx vals.
Proof.
  unfold np_take. rewrite mapM_Ok.
  split; intros Hf; eapply Forall2_impl; try exact Hf;
    intros g v; apply np_index_Ok.
Qed.

Lemma np_take_in_range {A} (rows : list A) idx :
  Forall (λ g, g < length rows) idx →
  ∃ vals, np_take rows idx = Ok vals ∧ length vals = length idx.
Proof.
  induction 1 as [|g idx Hg _ (vals & IH & Hlen)].
  - by exists [].
  - destruct (lookup_lt_is_Some_2 rows g Hg) as [v Hv].
    exists (v :: vals). split; [|simpl; by rewrite Hlen].
    apply np_take_Ok. constructor; [done|]. by apply np_take_Ok.
Qed.

Lemma patch_slice_Ok (p : Patches) i dofs :
  patch_slice p i = Ok dofs ↔
  ∃ lo hi, offset p !! i = Some lo ∧ offset p !! (i + 1) = Some hi
           ∧ dofs = np_slice (value p) lo hi.
Proof.
  unfold patch_slice. split.
  - intros Hp. inv_result. apply np_index_Ok in E, E0. naive_solver.
  - intros (lo & hi & Hlo & Hhi & ->).
    apply np_index_Ok in Hlo, Hhi. by rewrite Hlo, Hhi.
Qed.

Lemma elem_of_expand_rows (dim : nat) (rows : list nat) (k : nat) :
  k ∈ expand_rows dim rows ↔ ∃ r c, r ∈ rows ∧ c < dim ∧ k = dim * r + c.
Proof.
  unfold expand_rows. rewrite list_elem_of_bind. split.
  - intros (r & Hk & Hr). apply list_elem_of_fmap in Hk as (c & -> & Hc).
    apply elem_of_seq in Hc. exists r, c. split_and!; [done|lia|done].
  - intros (r & c & Hr & Hc & ->). exists r. split; [|done].
    apply list_elem_of_fmap. exists c. split; [done|]. apply elem_of_seq. lia.
Qed.

(** ** pulley.py: the patch matrices *)

Lemma value_of_Ok {A B} (r : result (A * B)) (x : A) :
  value_of r = Ok x ↔ ∃ y, r = Ok (x, y).
Proof.
  destruct r as [[x' y']|e]; simpl; split.
  - intros [= ->]. by exists y'.
  - by intros (y & [= -> _]).
  - discriminate.
  - by intros (y & ?).
Qed.

Ltac same_attributes H :=
  let Ha := fresh "Ha" in let Hmesh := fresh "Hmesh" in let HV := fresh "HV" in
  let HP1 := fresh "HP1" in let Hbcs := fresh "Hbcs" in
  let Hcells := fresh "Hcells" in let Hfacets := fresh "Hfacets" in
  let Hdof := fresh "Hdof" in let Hglob := fresh "Hglob" in let Hbc := fresh "Hbc" in
  unfold pulley.attributes in H;
  injection H as Ha Hmesh HV HP1 Hbcs Hcells Hfacets Hdof Hglob Hbc.

Section patch_matrices.
Import pulley.
Context {R : Type} `{Scalar R} `{Backend R}.
Implicit Types (self c : SubspaceCorrectionPrec R) (m : Mat R) (mc : Callable R).

Lemma zeroRowsColumns_Ok rows (m m' : Mat R) :
  zeroRowsColumns rows m = Ok m' →
  Forall (λ r, r < nrows m) rows
  ∧ nrows m' = nrows m ∧ ncols m' = ncols m
  ∧ ∀ i j, entry m' i j =
      if bool_decide (i ∈ rows) || bool_decide (j ∈ rows)
      then (if decide (i = j) then s1 else s0) else entry m i j.
Proof.
  unfold zeroRowsColumns. case_decide; [|discriminate]. intros [= <-]. done.
Qed.

(** An access to [self.kernels] that returns leaves the kernels in their
    slot and nothing else changed. *)
Lemma self_kernels_Ok self ks c :
  self_kernels self = Ok (ks, c) →
  c = set_cached_kernels self ks
  ∧ (cached_kernels self = Some ks
     ∨ cached_kernels self = None ∧ kernels tsfc_compile_form self = Ok ks).
Proof.
  unfold self_kernels. destruct (cached_kernels self) as [l|] eqn:Hc.
  - intros [= <- <-]. split; [|by left].
    destruct self. simpl in *. by rewrite Hc.
  - intros Hk. inv_result. subst. split; [done|]. by right.
Qed.

(** An access to [matrix_callable] that returns fills its slot and, at
    most, that of [kernels]; a second access returns the same callable. *)
Lemma matrix_callable_Ok self mc c :
  matrix_callable self = Ok (mc, c) →
  cached_matrix_callable c = Some mc
  ∧ attributes c = attributes self
  ∧ cached_matrices c = cached_matrices self
  ∧ (cached_P1_form c, cached_P1_bcs c, cached_P1_op c, cached_transfer_op c)
    = (cached_P1_form self, cached_P1_bcs self, cached_P1_op self,
       cached_transfer_op self)
  ∧ matrix_callable c = Ok (mc, c).
Proof.
  unfold matrix_callable at 1.
  destruct (cached_matrix_callable self) as [mc0|] eqn:Hc.
  - intros [= <- <-]. split_and!; try done. unfold matrix_callable. by rewrite Hc.
  - intros Hk. apply bind_Ok in Hk as ([ks c1] & Hks & Hk).
    apply self_kernels_Ok in Hks as [-> _]. injection Hk as <- <-.
    split_and!; done.
Qed.

(** What a turn of the loop that returns has done: a square matrix of
    [(g1 - g0) * dim] rows, filled by the callable of the context, in which
    the rows and columns of the expanded boundary nodes are those of the
    identity. *)
Lemma matrices_turn_Ok self dim i m c :
  matrices_turn self dim i = Ok (m, c) →
  ∃ g0 g1 rows,
    offset (glob_patches self) !! i = Some g0
    ∧ offset (glob_patches self) !! (i + 1) = Some g1
    ∧ g0 ≤ g1 ∧ dim ≠ 0
    ∧ patch_slice (bc_patches self) i = Ok rows
    ∧ Forall (λ k, k < (g1 - g0) * dim) (expand_rows dim rows)
    ∧ nrows m = (g1 - g0) * dim ∧ ncols m = (g1 - g0) * dim
    ∧ ∃ mc, matrix_callable self = Ok (mc, c)
        ∧ ∀ k j, entry m k j =
            if bool_decide (k ∈ expand_rows dim rows)
               || bool_decide (j ∈ expand_rows dim rows)
            then (if decide (k = j) then s1 else s0)
            else mc (default 0 (offset (cells self) !! (i + 1))
                     - default 0 (offset (cells self) !! i))
                    (np_slice_from (value (cells self))
                                   (default 0 (offset (cells self) !! i)))
                    (np_slice_from (value (dof_patches self))
                                   (default 0 (offset (dof_patches self) !! i))) k j.
Proof.
  unfold matrices_turn. intros Hm.
  apply bind_Ok in Hm as (g1 & Hg1 & Hm). apply bind_Ok in Hm as (g0 & Hg0 & Hm).
  apply bind_Ok in Hm as ([] & Hsizes & Hm).
  apply bind_Ok in Hm as (d0 & Hd0 & Hm). apply bind_Ok in Hm as (c0 & Hc0 & Hm).
  apply bind_Ok in Hm as (c1 & Hc1 & Hm).
  apply bind_Ok in Hm as ([mc c'] & Hmc & Hm).
  apply bind_Ok in Hm as (rows & Hrows & Hm).
  apply bind_Ok in Hm as (m' & Hzero & Hm). injection Hm as -> ->.
  apply np_index_Ok in Hg1, Hg0, Hd0, Hc0, Hc1.
  destruct (decide (dim = 0)); [discriminate|].
  destruct (decide (g1 < g0)); [discriminate|].
  destruct (matrix_callable_Ok _ _ _ Hmc) as (_ & Hattr & _).
  same_attributes Hattr. rewrite Hbc in Hrows.
  apply zeroRowsColumns_Ok in Hzero as (Hrange & Hn & Hcols & He). simpl in *.
  exists g0, g1, rows. split_and!; try done; try lia.
  exists mc. split; [done|]. intros k j. rewrite He, Hd0, Hc0, Hc1. done.
Qed.

Lemma patch_matrix_Ok self dim i m :
  patch_matrix self dim i = Ok m →
  ∃ g0 g1 rows,
    offset (glob_patches self) !! i = Some g0
    ∧ offset (glob_patches self) !! (i + 1) = Some g1
    ∧ g0 ≤ g1 ∧ dim ≠ 0
    ∧ patch_slice (bc_patches self) i = Ok rows
    ∧ Forall (λ k, k < (g1 - g0) * dim) (expand_rows dim rows)
    ∧ nrows m = (g1 - g0) * dim ∧ ncols m = (g1 - g0) * dim
    ∧ ∃ mc c, matrix_callable self = Ok (mc, c)
        ∧ ∀ k j, entry m k j =
            if bool_decide (k ∈ expand_rows dim rows)
               || bool_decide (j ∈ expand_rows dim rows)
            then (if decide (k = j) then s1 else s0)
            else mc (default 0 (offset (cells self) !! (i + 1))
                     - default 0 (offset (cells self) !! i))
                    (np_slice_from (value (cells self))
                                   (default 0 (offset (cells self) !! i)))
                    (np_slice_from (value (dof_patches self))
                                   (default 0 (offset (dof_patches self) !! i))) k j.
Proof.
  unfold patch_matrix. intros Hm. apply value_of_Ok in Hm as [c Hm].
  apply matrices_turn_Ok in Hm
    as (g0 & g1 & rows & ? & ? & ? & ? & ? & ? & ? & ? & mc & ? & ?).
  exists g0, g1, rows. split_and!; try done. by exists mc, c.
Qed.

(** Once the callable is cached, a turn builds the matrix it would have
    built before. *)
Lemma matrices_turn_cached self mc c dim j :
  matrix_callable self = Ok (mc, c) →
  matrices_turn c dim j
  = (m ← patch_matrix self dim j; Ok (m, c)).
Proof.
  intros Hmc. destruct (matrix_callable_Ok _ _ _ Hmc) as (_ & Hattr & _ & _ & Hagain).
  same_attributes Hattr. unfold patch_matrix, matrices_turn.
  rewrite Hglob, Hdof, Hcells, Hagain, Hmc. simpl.
  destruct (np_index (offset (glob_patches self)) (j + 1)) as [g1|]; simpl; [|done].
  destruct (np_index (offset (glob_patches self)) j) as [g0|]; simpl; [|done].
  destruct (if decide (dim = 0) then Raise ValueError
            else if decide (g1 < g0) then Raise PETScError else Ok ());
    simpl; [|done].
  destruct (np_index (offset (dof_patches self)) j) as [d0|]; simpl; [|done].
  destruct (np_index (offset (cells self)) j) as [c0|]; simpl; [|done].
  destruct (np_index (offset (cells self)) (j + 1)) as [c1|]; simpl; [|done].
  destruct (patch_slice (bc_patches c) j) as [rows|]; simpl; [|done].
  by destruct (zeroRowsColumns _ _).
Qed.

Lemma patch_matrix_cached self mc c dim j :
  matrix_callable self = Ok (mc, c) →
  patch_matrix c dim j = patch_matrix self dim j.
Proof.
  intros Hmc. unfold patch_matrix at 1.
  rewrite (matrices_turn_cached _ _ _ _ _ Hmc).
  by destruct (patch_matrix self dim j).
Qed.

(** The loop of [matrices]: the matrices are those of the turns taken on
    the context the loop started with, and the context is left as the first
    access to [matrix_callable] leaves it. *)
Lemma matrices_loop_Ok self dim (l : list nat) acc mats c :
  foldM (λ '(mats, self) i,
           '(mat, self) ← matrices_turn self dim i;
           Ok (mats ++ [mat], self)) l (acc, self) = Ok (mats, c) →
  ∃ ms, mats = acc ++ ms
        ∧ Forall2 (λ i m, patch_matrix self dim i = Ok m) l ms
        ∧ (l = [] ∧ c = self ∨ l ≠ [] ∧ ∃ mc, matrix_callable self = Ok (mc, c)).
Proof.
  revert self acc. induction l as [|i l IH]; intros self acc; simpl.
  { intros [= <- <-]. exists []. rewrite app_nil_r. split_and!; [done|constructor|].
    by left. }
  intros Hloop. apply bind_Ok in Hloop as ([mats1 c1] & Hstep & Hloop).
  apply bind_Ok in Hstep as ([m c1'] & Hturn & Hstep). injection Hstep as <- <-.
  pose proof (matrices_turn_Ok _ _ _ _ _ Hturn)
    as (_ & _ & _ & _ & _ & _ & _ & _ & _ & _ & _ & mc & Hmc & _).
  destruct (IH _ _ Hloop) as (ms & -> & Hall & Hc).
  exists (m :: ms). split; [by rewrite <-app_assoc|]. split.
  - constructor.
    + unfold patch_matrix. by rewrite Hturn.
    + eapply Forall2_impl; [exact Hall|]. intros j mj Hj. simpl in Hj.
      by rewrite <-(patch_matrix_cached _ _ _ _ _ Hmc).
  - right. split; [done|]. exists mc.
    destruct Hc as [[_ ->]|(_ & mc' & Hmc')]; [done|].
    destruct (matrix_callable_Ok _ _ _ Hmc) as (_ & _ & _ & _ & Hagain).
    rewrite Hagain in Hmc'. by injection Hmc' as <- <-.
Qed.

Lemma matrices_loop_returns self dim (l : list nat) acc :
  Forall (λ i, ∃ m, patch_matrix self dim i = Ok m) l →
  ∃ mats c,
    foldM (λ '(mats, self) i,
             '(mat, self) ← matrices_turn self dim i;
             Ok (mats ++ [mat], self)) l (acc, self) = Ok (mats, c).
Proof.
  intros Hl. revert self acc Hl. induction l as [|i l IH]; intros self acc Hl; simpl.
  { by eexists _, _. }
  apply Forall_cons in Hl as [[m Hm] Hl].
  unfold patch_matrix in Hm. apply value_of_Ok in Hm as [c1 Hturn].
  rewrite Hturn. simpl.
  pose proof (matrices_turn_Ok _ _ _ _ _ Hturn)
    as (_ & _ & _ & _ & _ & _ & _ & _ & _ & _ & _ & mc & Hmc & _).
  apply IH. eapply Forall_impl; [exact Hl|]. intros j [mj Hj]. exists mj.
  by rewrite (patch_matrix_cached _ _ _ _ _ Hmc).
Qed.

Lemma matrices_uncached W self ms c :
  cached_matrices self = None →
  matrices (Some W) self = Ok (ms, c) →
  (∃ c1, c = set_cached_matrices c1 ms
         ∧ attributes c1 = attributes self
         ∧ (length (offset (dof_patches self)) - 1 = 0 ∧ c1 = self
            ∨ ∃ mc, matrix_callable self = Ok (mc, c1)))
  ∧ Forall2 (λ i m, patch_matrix self (dof_dset_cdim W) i = Ok m)
            (seq 0 (length (offset (dof_patches self)) - 1)) ms.
Proof.
  unfold matrices. intros ->. intros Hm.
  apply bind_Ok in Hm as ([mats c1] & Hloop & Hm). injection Hm as <- <-.
  apply matrices_loop_Ok in Hloop as (ms & -> & Hall & Hc). simpl.
  split; [|done]. exists c1. split; [done|].
  destruct Hc as [[Hnil ->]|(_ & mc & Hmc)].
  - split; [done|]. left. split; [|done].
    destruct (length (offset (dof_patches self)) - 1); [done|discriminate].
  - destruct (matrix_callable_Ok _ _ _ Hmc) as (_ & Hattr & _).
    split; [done|]. right. by exists mc.
Qed.

Lemma matrices_cached gV self ms :
  cached_matrices self = Some ms → matrices gV self = Ok (ms, self).
Proof. unfold matrices. by intros ->. Qed.

(** A returned [matrices] has its result in its slot and has written none
    of the attributes of the context. *)
Lemma matrices_Ok_cached gV self ms c :
  matrices gV self = Ok (ms, c) →
  cached_matrices c = Some ms ∧ attributes c = attributes self.
Proof.
  destruct (cached_matrices self) as [ms0|] eqn:Hc.
  - rewrite (matrices_cached gV self ms0 Hc). by intros [= <- <-].
  - destruct gV as [W|]; [|unfold matrices; by rewrite Hc].
    intros Hm. apply matrices_uncached in Hm as [(c1 & -> & Hattr & _) _]; done.
Qed.

(** Besides its own slot, [matrices] fills at most those of
    [matrix_callable] and [kernels]. *)
Lemma matrices_Ok_slots gV self ms c :
  matrices gV self = Ok (ms, c) →
  (cached_P1_form c, cached_P1_bcs c, cached_P1_op c, cached_transfer_op c)
  = (cached_P1_form self, cached_P1_bcs self, cached_P1_op self,
     cached_transfer_op self).
Proof.
  destruct (cached_matrices self) as [ms0|] eqn:Hc.
  - rewrite (matrices_cached gV self ms0 Hc). by intros [= <- <-].
  - destruct gV as [W|]; [|unfold matrices; by rewrite Hc].
    intros Hm. apply matrices_uncached in Hm as [(c1 & -> & _ & Hc1) _]; [|done].
    simpl. destruct Hc1 as [[_ ->]|[mc Hmc]]; [done|].
    by destruct (matrix_callable_Ok _ _ _ Hmc) as (_ & _ & _ & Hslots & _).
Qed.

End patch_matrices.

(** ** Reshaped arrays and indexed assignment *)

Section reshaped.
Context {A : Type}.
Implicit Types (v : list A) (rows : list (list A)).

Lemma reshape_replicate_widths n bsize v :
  length v = n * bsize →
  Forall (λ r, length r = bsize) (reshape (replicate n bsize) v).
Proof.
  revert v. induction n as [|n IH]; intros v Hv; simpl; constructor.
  - rewrite length_take. lia.
  - apply IH. rewrite length_drop. lia.
Qed.

Lemma np_reshape_Ok bsize v rows :
  np_reshape bsize v = Ok rows →
  bsize ≠ 0 ∧ mjoin rows = v ∧ Forall (λ r, length r = bsize) rows
  ∧ length v = length rows * bsize.
Proof.
  unfold np_reshape. case_decide as Hb; [discriminate|].
  case_decide as Hmod; [|discriminate]. intros [= <-].
  assert (length v = length v / bsize * bsize) as Hlen.
  { pose proof (Nat.div_mod_eq (length v) bsize). lia. }
  split_and!; [done| | |].
  - apply join_reshape. by rewrite sum_list_replicate.
  - by apply reshape_replicate_widths.
  - by rewrite length_reshape, length_replicate.
Qed.

Lemma length_join_uniform bsize rows :
  Forall (λ r, length r = bsize) rows → length (mjoin rows) = length rows * bsize.
Proof. intros Hw. rewrite length_join. by apply sum_list_fmap_same. Qed.

Lemma reshape_join_uniform bsize rows :
  Forall (λ r, length r = bsize) rows →
  reshape (replicate (length rows) bsize) (mjoin rows) = rows.
Proof.
  induction 1 as [|r rows Hr _ IH]; simpl; [done|].
  rewrite take_app_length' by done. rewrite drop_app_length' by done.
  by rewrite IH.
Qed.

(** Joining rows of one width and reshaping to that width gives the rows
    back: the array seen through [reshape(-1, bsize)] is a view. *)
Lemma np_reshape_join bsize rows :
  bsize ≠ 0 → Forall (λ r, length r = bsize) rows →
  np_reshape bsize (mjoin rows) = Ok rows.
Proof.
  intros Hb Hw. unfold np_reshape. rewrite decide_False by done.
  rewrite (length_join_uniform bsize) by done.
  rewrite Nat.Div0.mod_mul, decide_True by done.
  rewrite Nat.div_mul by done. by rewrite reshape_join_uniform.
Qed.

Lemma np_reshape_replicate bsize n (z : A) :
  bsize ≠ 0 →
  np_reshape bsize (replicate (n * bsize) z) = Ok (replicate n (replicate bsize z)).
Proof.
  intros Hb.
  replace (replicate (n * bsize) z) with (mjoin (replicate n (replicate bsize z))).
  - apply np_reshape_join; [done|].
    apply Forall_replicate. by rewrite length_replicate.
  - induction n as [|n IH]; simpl; [done|]. by rewrite IH, replicate_add.
Qed.

Lemma lookup_join_uniform bsize rows r c :
  Forall (λ row, length row = bsize) rows → c < bsize →
  mjoin rows !! (bsize * r + c) = rows !! r ≫= (.!! c).
Proof.
  intros Hw Hc. replace (bsize * r + c) with (r * bsize + c) by lia.
  apply option_eq; intros x.
  rewrite (join_lookup_Some_same_length' bsize) by done.
  destruct (rows !! r) as [row|]; simpl; split.
  - by intros (l & [= <-] & Hx).
  - intros Hx. by exists row.
  - by intros (l & ? & _).
  - done.
Qed.
End reshaped.

Section put.
Context {A : Type}.
Implicit Types (rows vals : list A) (idx : list nat) (zs : list (nat * A)).

Lemma length_foldl_insert zs rows :
  length (foldl (λ acc gv, <[gv.1 := gv.2]> acc) rows zs) = length rows.
Proof.
  revert rows. induction zs as [|[g v] zs IH]; intros rows; simpl; [done|].
  by rewrite IH, length_insert.
Qed.

Lemma length_np_put rows idx vals : length (np_put rows idx vals) = length rows.
Proof. apply length_foldl_insert. Qed.

Lemma lookup_foldl_insert zs rows g :
  Forall (λ gv, gv.1 < length rows) zs →
  foldl (λ acc gv, <[gv.1 := gv.2]> acc) rows zs !! g =
    match assigned zs g with Some w => Some w | None => rows !! g end.
Proof.
  revert rows. induction zs as [|[g0 v] zs IH]; intros rows Hzs; simpl; [done|].
  apply Forall_cons in Hzs as [Hg0 Hzs']. simpl in *.
  rewrite IH by (by rewrite length_insert).
  destruct (assigned zs g); [done|].
  case_decide as Hg; subst.
  - by rewrite list_lookup_insert_eq.
  - by rewrite list_lookup_insert_ne.
Qed.

Lemma lookup_np_put rows idx vals g :
  Forall (λ i, i < length rows) idx →
  np_put rows idx vals !! g =
    match assigned (zip idx vals) g with Some w => Some w | None => rows !! g end.
Proof.
  intros Hidx. apply lookup_foldl_insert.
  revert vals. induction Hidx as [|i idx Hi _ IH]; intros [|v vals]; simpl;
    constructor; auto.
Qed.

Lemma assigned_Some_elem zs g w : assigned zs g = Some w → (g, w) ∈ zs.
Proof.
  induction zs as [|[g0 v] zs IH]; simpl; [done|].
  destruct (assigned zs g) as [w'|].
  - intros [= ->]. right. by apply IH.
  - case_decide; [|done]. intros [= ->]. subst. left.
Qed.

Lemma assigned_None zs g : assigned zs g = None ↔ g ∉ zs.*1.
Proof.
  induction zs as [|[g0 v] zs IH]; simpl.
  - split; [intros _; apply not_elem_of_nil | done].
  - rewrite not_elem_of_cons. destruct (assigned zs g) as [w'|].
    + split; [done|]. intros [_ Hg]. by apply IH in Hg.
    + case_decide; subst; split; try done; try tauto.
      intros _. split; [done|]. by apply IH.
Qed.

Lemma assigned_replicate idx (z : A) g :
  assigned (zip idx (replicate (length idx) z)) g
    = if decide (g ∈ idx) then Some z else None.
Proof.
  induction idx as [|g0 idx IH]; cbn [zip zip_with replicate length assigned].
  - rewrite decide_False; [done|]. apply not_elem_of_nil.
  - rewrite IH. destruct (decide (g ∈ idx)) as [Hin|Hin].
    + rewrite decide_True; [done|]. by right.
    + destruct (decide (g0 = g)) as [->|Hne].
      * rewrite decide_True; [done|]. left.
      * rewrite decide_False; [done|]. rewrite not_elem_of_cons. done.
Qed.

Lemma np_put_const_Ok rows idx (z : A) rows' :
  np_put_const rows idx z = Ok rows' →
  Forall (λ g, g < length rows) idx
  ∧ length rows' = length rows
  ∧ ∀ g, rows' !! g = if decide (g ∈ idx) then Some z else rows !! g.
Proof.
  unfold np_put_const. case_decide as Hidx; [|discriminate]. intros [= <-].
  split_and!; [done|apply length_np_put|]. intros g.
  rewrite lookup_np_put, assigned_replicate by done. by case_decide.
Qed.

End put.

Lemma np_broadcast_Ok {A} (n : nat) (src out : list A) :
  np_broadcast n src = Ok out →
  length out = n
  ∧ (length src = n ∧ out = src ∨ ∃ r, length src ≠ n ∧ src = [r] ∧ out = replicate n r).
Proof.
  unfold np_broadcast. case_decide as Hn.
  - intros [= <-]. split; [done|]. by left.
  - destruct src as [|r [|r' src]]; try discriminate. intros [= <-].
    rewrite length_replicate. split; [done|]. right. by exists r.
Qed.

Lemma np_broadcast_Forall {A} (P : A → Prop) (n : nat) (src out : list A) :
  np_broadcast n src = Ok out → Forall P src → Forall P out.
Proof.
  intros Hb Hsrc. apply np_broadcast_Ok in Hb as [_ [[_ ->]|(r & _ & -> & ->)]];
    [done|]. apply Forall_replicate. by apply Forall_cons in Hsrc as [Hr _].
Qed.

Lemma np_broadcast_same {A} (n : nat) (src : list A) :
  length src = n → np_broadcast n src = Ok src.
Proof. intros Hn. unfold np_broadcast. by rewrite decide_True. Qed.

Lemma np_take_Forall {A} (P : A → Prop) (rows : list A) idx vals :
  np_take rows idx = Ok vals → Forall P rows → Forall P vals.
Proof.
  rewrite np_take_Ok. intros Ht Hrows.
  induction Ht as [|g v idx vals Hg _ IH]; constructor; [|done].
  by eapply (Forall_lookup_1 P rows).
Qed.

Lemma np_take_Ok_range {A} (rows : list A) idx vals :
  np_take rows idx = Ok vals → Forall (λ g, g < length rows) idx.
Proof.
  rewrite np_take_Ok. induction 1; constructor; [|done]. by eapply lookup_lt_Some.
Qed.

(** ** pulley.py: boundary elimination *)

Section boundary.
Import pulley.
Context {R : Type} `{Scalar R} `{Backend R}.
Implicit Types (self c : SubspaceCorrectionPrec R) (m : Mat R).

(** The right-hand side handed to the local solver: rows of width [bsize],
    those of the boundary-fixed local dofs being zero. *)
Lemma local_rhs_Ok c bsize x i m b :
  local_rhs c bsize x (i, m) = Ok b →
  ∃ dofs bcd xr rhs br,
    patch_slice (glob_patches c) i = Ok dofs
    ∧ patch_slice (bc_patches c) i = Ok bcd
    ∧ np_reshape bsize x = Ok xr
    ∧ np_take xr dofs = Ok rhs
    ∧ np_broadcast (nrows m / bsize) rhs = Ok br
    ∧ Forall (λ g, g < length br) bcd
    ∧ nrows m `mod` bsize = 0
    ∧ ∃ rows, b = mjoin rows
        ∧ length rows = nrows m / bsize
        ∧ Forall (λ r, length r = bsize) rows
        ∧ ∀ g, rows !! g = if decide (g ∈ bcd) then Some (replicate bsize s0)
                           else br !! g.
Proof.
  unfold local_rhs. intros Hb. inv_result. subst b.
  rename r into dofs, r0 into bcd, r1 into xr, r2 into rhs, r3 into b0,
    r4 into br, r5 into rows.
  pose proof (np_reshape_Ok _ _ _ E1) as (Hbs & _ & Hxr & _).
  pose proof (np_reshape_Ok _ _ _ E3) as (_ & _ & _ & Hb0).
  unfold createVec in Hb0. rewrite length_replicate in Hb0.
  assert (length b0 = nrows m / bsize) as Hlen.
  { rewrite Hb0. by rewrite Nat.div_mul. }
  rewrite Hlen in E4.
  apply np_put_const_Ok in E5 as (Hbcd & Hlen' & Hrows).
  exists dofs, bcd, xr, rhs, br. split_and!; try done.
  { rewrite Hb0. apply Nat.Div0.mod_mul. }
  exists rows. split_and!; try done.
  - pose proof (np_broadcast_Ok _ _ _ E4) as [Hl _]. by rewrite Hlen'.
  - apply Forall_lookup. intros g row Hg. rewrite Hrows in Hg.
    case_decide; simplify_eq.
    + by rewrite length_replicate.
    + eapply (Forall_lookup_1 (λ r0 : list R, length r0 = bsize) br); [|exact Hg].
      eapply np_broadcast_Forall; [exact E4|]. by eapply np_take_Forall.
Qed.

(** C3.  In every patch matrix that [matrices] builds, the row and the column
    of each boundary-fixed local dof, expanded over the components of the
    block, are those of the identity: zero but for a one on the diagonal.
    And in the right-hand side that [PatchPC.apply] hands to the local solve
    of that patch, the entries of each boundary-fixed local dof, over the
    components of the block, are zero.  The matrix is indexed with the block
    size [matrices] reads ([V.dof_dset.cdim]), the right-hand side with the
    one [apply] reads ([ctx.V.dim]). *)
Theorem boundary_dofs_eliminated self W ms c i m bcd r :
  cached_matrices self = None →
  matrices (Some W) self = Ok (ms, c) →
  ms !! i = Some m →
  patch_slice (bc_patches self) i = Ok bcd →
  r ∈ bcd →
  (∀ comp, comp < dof_dset_cdim W →
     let k := dof_dset_cdim W * r + comp in
     k < nrows m
     ∧ ∀ j, entry m k j = (if decide (k = j) then s1 else s0)
            ∧ entry m j k = (if decide (j = k) then s1 else s0))
  ∧ (∀ bsize x b, local_rhs c bsize x (i, m) = Ok b →
       ∀ comp, comp < bsize → b !! (bsize * r + comp) = Some s0).
Proof.
  intros Hcache Hms Hm Hbcd Hr.
  apply matrices_uncached in Hms as [(c1 & -> & Hattr & _) Hall]; [|done].
  same_attributes Hattr. split.
  - intros comp Hcomp k.
    destruct (Forall2_lookup_r _ _ _ _ _ Hall Hm) as (i' & Hi' & Hpm).
    apply lookup_seq in Hi' as [-> _]. simpl in Hpm.
    apply patch_matrix_Ok in Hpm
      as (g0 & g1 & rows & _ & _ & _ & _ & Hrows & Hrange & Hn & _ & mc & c2 & _ & He).
    rewrite Hbcd in Hrows. injection Hrows as <-.
    assert (k ∈ expand_rows (dof_dset_cdim W) bcd) as Hk.
    { apply elem_of_expand_rows. by exists r, comp. }
    split.
    + rewrite Hn. by eapply Forall_forall in Hrange.
    + intros j. rewrite !He, !(bool_decide_eq_true_2 _ Hk). simpl.
      by rewrite orb_true_r.
  - intros bsize x b Hb comp Hcomp.
    apply local_rhs_Ok in Hb
      as (dofs & bcd' & xr & rhs & br & _ & Hbcd' & _ & _ & _ & _ & _
          & rows & -> & _ & Hw & Hrows).
    simpl in Hbcd'. rewrite Hbc, Hbcd in Hbcd'. injection Hbcd' as <-.
    rewrite (lookup_join_uniform bsize) by done.
    rewrite Hrows, decide_True by done. simpl. by apply lookup_replicate_2.
Qed.

End boundary.

Section global_V.
Import pulley.
Context {R : Type} `{Scalar R} `{Backend R}.
Implicit Types (self c : SubspaceCorrectionPrec R) (m : Mat R).

(** C9.  The first evaluation of [matrices] (nothing cached yet) takes the
    block size from the module-level name [V], not from [self.V].  With that
    name unbound it raises NameError.  With it bound to a space [W], every
    patch matrix is built with the block size of [W]: it has
    [(g1 - g0) * W.dof_dset.cdim] rows and columns, and the rows eliminated for
    a boundary-fixed local dof [r] are [W.dof_dset.cdim * r + comp]; the
    instance's own [V] plays no part in either. *)
Theorem matrices_reads_global_V self :
  cached_matrices self = None →
  matrices None self = Raise NameError
  ∧ ∀ W ms c, matrices (Some W) self = Ok (ms, c) →
      let dim := dof_dset_cdim W in
      length ms = length (offset (dof_patches self)) - 1
      ∧ ∀ i m, ms !! i = Some m →
          patch_matrix self dim i = Ok m
          ∧ ∃ g0 g1 rows,
              offset (glob_patches self) !! i = Some g0
              ∧ offset (glob_patches self) !! (i + 1) = Some g1
              ∧ patch_slice (bc_patches self) i = Ok rows
              ∧ nrows m = (g1 - g0) * dim ∧ ncols m = (g1 - g0) * dim
              ∧ ∀ r comp, r ∈ rows → comp < dim →
                  dim * r + comp < nrows m
                  ∧ entry m (dim * r + comp) (dim * r + comp) = s1.
Proof.
  intros Hcache. split.
  { unfold matrices. by rewrite Hcache. }
  intros W ms c Hms dim.
  apply matrices_uncached in Hms as [_ Hall]; [|done]. split.
  { apply Forall2_length in Hall. by rewrite length_seq in Hall. }
  intros i m Hm.
  destruct (Forall2_lookup_r _ _ _ _ _ Hall Hm) as (i' & Hi' & Hpm).
  apply lookup_seq in Hi' as [-> _]. simpl in Hpm. split; [done|].
  apply patch_matrix_Ok in Hpm
    as (g0 & g1 & rows & Hg0 & Hg1 & _ & _ & Hrows & Hrange & Hn & Hc
        & mc & c2 & _ & He).
  exists g0, g1, rows. split_and!; try done.
  intros r comp Hr Hcomp.
  assert (dim * r + comp ∈ expand_rows dim rows) as Hk.
  { apply elem_of_expand_rows. by exists r, comp. }
  split.
  - rewrite Hn. by eapply Forall_forall in Hrange.
  - rewrite He, (bool_decide_eq_true_2 _ Hk). simpl. by rewrite decide_True.
Qed.

End global_V.

(** ** pulley.py: the transfer operator and the coarse correction *)

Section transfer.
Context {R : Type} `{Scalar R}.
Implicit Types (m : Mat R) (x y : list R).

Lemma replicate_as_fmap_seq n k (z : R) : replicate n z = (λ _, z) <$> seq k n.
Proof. revert k. induction n as [|n IH]; intros k; simpl; [done|]. by rewrite <-IH. Qed.

Lemma zip_with_fmap_seq (f g : nat → R) k n :
  zip_with sadd (f <$> seq k n) (g <$> seq k n) = (λ j, sadd (f j) (g j)) <$> seq k n.
Proof. revert k. induction n as [|n IH]; intros k; simpl; [done|]. by rewrite IH. Qed.

(** Accumulating the scaled rows one after the other computes, in each
    column, the same left-to-right sum as the dot product with that column. *)
Lemma accumulate_rows (f : nat → nat → R) (g0 : nat → R) (l : list nat) nc :
  foldl (λ acc i, zip_with sadd acc (f i <$> seq 0 nc)) (g0 <$> seq 0 nc) l
  = (λ j, foldl (λ a i, sadd a (f i j)) (g0 j) l) <$> seq 0 nc.
Proof.
  revert g0. induction l as [|i l IH]; intros g0; simpl; [done|].
  by rewrite zip_with_fmap_seq, IH.
Qed.

(** [multTranspose] with the stored matrix is [mult] with the transposed
    matrix, entry for entry and sum for sum: the same additions in the same
    order, and the same size checks. *)
Lemma Mat_multTranspose_transpose m x y :
  Mat_multTranspose m x y = Mat_mult (Mat_transpose m) x y.
Proof.
  unfold Mat_multTranspose, Mat_mult; simpl.
  case_decide; [|done]. f_equal.
  rewrite (replicate_as_fmap_seq _ 0), accumulate_rows. done.
Qed.

Lemma Mat_mult_transpose_transpose m x y :
  Mat_mult (Mat_transpose (Mat_transpose m)) x y = Mat_mult m x y.
Proof. reflexivity. Qed.

End transfer.

Section coarse.
Import pulley.
Context {R : Type} `{Scalar R} {B : Backend R}.
Implicit Types (c : SubspaceCorrectionPrec R) (self : P1PC R) (x y w : list R).

Lemma P1_form_Ok c (f : Form) c1 :
  P1_form c = Ok (f, c1) →
  c1 = set_cached_P1_form c f
  ∧ (cached_P1_form c = Some f
     ∨ cached_P1_form c = None
       ∧ ufl_domain f = ufl_domain (a c) ∧ integrand f = integrand (a c)
       ∧ function_space (arguments f).1 = P1 c
       ∧ function_space (arguments f).2 = P1 c
       ∧ number (arguments f).1 = number (arguments (a c)).1
       ∧ number (arguments f).2 = number (arguments (a c)).2).
Proof.
  unfold P1_form. destruct (cached_P1_form c) as [f0|] eqn:Hc.
  - intros [= <- <-]. split; [|by left]. destruct c. simpl in *. by rewrite Hc.
  - intros Hf. apply bind_Ok in Hf as (f' & Hmap & Hf). injection Hf as <- <-.
    split; [done|]. right. split; [done|].
    unfold map_integrand_dags in Hmap.
    apply bind_Ok in Hmap as (t & Ht & Hmap).
    apply bind_Ok in Hmap as (u & Hu & Hmap). injection Hmap as <-. simpl.
    unfold ArgumentReplacer_argument in Ht, Hu.
    destruct (number (arguments (a c)).1) as [|[|n]]; [| |done];
      destruct (number (arguments (a c)).2) as [|[|n']]; try done;
      injection Ht as <-; injection Hu as <-; done.
Qed.

Lemma P1_bcs_Ok c (l : list DirichletBC) c1 :
  P1_bcs c = (l, c1) →
  c1 = set_cached_P1_bcs c l
  ∧ (cached_P1_bcs c = Some l
     ∨ cached_P1_bcs c = None
       ∧ Forall2 (λ bc bc1,
                    bc_space bc1 = P1 c
                    ∧ function_arg bc1 = Interpolate (P1 c) (function_arg bc)
                    ∧ sub_domain bc1 = sub_domain bc ∧ method bc1 = method bc
                    ∧ nodes bc1 = boundary_nodes (P1 c) (sub_domain bc) (method bc))
                 (bcs c) l).
Proof.
  unfold P1_bcs. destruct (cached_P1_bcs c) as [l0|] eqn:Hc.
  - intros [= <- <-]. split; [|by left]. destruct c. simpl in *. by rewrite Hc.
  - intros [= <- <-]. split; [done|]. right. split; [done|].
    apply Forall2_fmap_r, Forall_Forall2_diag, Forall_forall. by intros bc _.
Qed.

(** An access to [P1_op] that returns: the operator is in its slot, and
    when it was not there before it has been assembled from the form and
    the boundary conditions on [P1], which are in their slots too. *)
Lemma P1_op_Ok c (m : Mat R) c1 :
  P1_op c = Ok (m, c1) →
  cached_P1_op c1 = Some m
  ∧ attributes c1 = attributes c
  ∧ (cached_kernels c1, cached_matrix_callable c1, cached_matrices c1,
     cached_transfer_op c1)
    = (cached_kernels c, cached_matrix_callable c, cached_matrices c,
       cached_transfer_op c)
  ∧ (cached_P1_op c = Some m ∧ c1 = c
     ∨ cached_P1_op c = None
       ∧ ∃ f l, P1_form c = Ok (f, set_cached_P1_form c f)
                ∧ P1_bcs (set_cached_P1_form c f)
                  = (l, set_cached_P1_bcs (set_cached_P1_form c f) l)
                ∧ cached_P1_form c1 = Some f ∧ cached_P1_bcs c1 = Some l
                ∧ m = assemble f l).
Proof.
  unfold P1_op. destruct (cached_P1_op c) as [m0|] eqn:Hc.
  - intros [= <- <-]. split_and!; try done. by left.
  - intros Hop. apply bind_Ok in Hop as ([f c2] & Hf & Hop).
    destruct (P1_bcs c2) as [l c3] eqn:Hl. injection Hop as <- <-.
    pose proof (P1_form_Ok _ _ _ Hf) as [-> _].
    pose proof (P1_bcs_Ok _ _ _ Hl) as [-> _].
    split_and!; try done. right. split; [done|]. exists f, l. split_and!; done.
Qed.

Lemma P1_op_cached (B' : Backend R) c (m : Mat R) :
  cached_P1_op c = Some m → P1_op (H0 := B') c = Ok (m, c).
Proof. unfold P1_op. by intros ->. Qed.

(** An access to [transfer_op] that returns: the matrix is in its slot, and
    when it was not there before it is the one left by the par_loop of the
    restriction kernel. *)
Lemma transfer_op_Ok c (m : Mat R) c1 :
  transfer_op (H0 := B) c = Ok (m, c1) →
  cached_transfer_op c1 = Some m
  ∧ attributes c1 = attributes c
  ∧ (cached_P1_form c1, cached_P1_op c1, cached_kernels c1,
     cached_matrix_callable c1, cached_matrices c1)
    = (cached_P1_form c, cached_P1_op c, cached_kernels c,
       cached_matrix_callable c, cached_matrices c)
  ∧ (cached_transfer_op c = Some m ∧ c1 = c
     ∨ cached_transfer_op c = None
       ∧ ∃ k a_ b_ l,
           P1_bcs c = (l, set_cached_P1_bcs c l)
           ∧ cached_P1_bcs c1 = Some l
           ∧ block_shape (P1 c) (V c) = [[[a_; b_]]]
           ∧ transfer_kernel fiat_space_dimension fiat_riesz_matrix c true = Ok k
           ∧ m = transfer_par_loop k (a_ * dof_dset_cdim (P1 c),
                                      b_ * dof_dset_cdim (V c))
                                   (P1 c) l (V c) (bcs c)).
Proof.
  unfold transfer_op. destruct (cached_transfer_op c) as [m0|] eqn:Hc.
  - intros [= <- <-]. split_and!; try done. by left.
  - destruct (P1_bcs c) as [l c2] eqn:Hl.
    pose proof (P1_bcs_Ok _ _ _ Hl) as [-> _]. simpl.
    intros Ht. apply bind_Ok in Ht as ([a_ b_] & Hsh & Ht).
    apply bind_Ok in Ht as (k & Hk & Ht). injection Ht as <- <-.
    split_and!; try done. right. split; [done|]. exists k, a_, b_, l.
    split_and!; try done.
    destruct (block_shape (P1 c) (V c)) as [|[|[|a0 [|b0 [|]]] [|]] [|]];
      try discriminate Hsh. by injection Hsh as -> ->.
Qed.

Lemma transfer_op_cached (B' : Backend R) c (m : Mat R) :
  cached_transfer_op c = Some m → transfer_op (H0 := B') c = Ok (m, c).
Proof. unfold transfer_op. by intros ->. Qed.

(** What a [setUp] that returned has built. *)
Lemma P1PC_setUp_Ok (outer : PC R) self c' :
  P1PC_setUp (H0 := B) outer = Ok (self, c') →
  ∃ c1,
    P1_op (getPythonContext outer) = Ok (pc_operator self, c1)
    ∧ transfer_op c1 = Ok (transfer self, c')
    ∧ pc self = getOptionsPrefix outer +:+ "lo_"
    ∧ work1 self = createVec (nrows (transfer self))
    ∧ work2 self = createVec (nrows (transfer self)).
Proof.
  unfold P1PC_setUp. intros Hs.
  apply bind_Ok in Hs as ([op c1] & Hop & Hs).
  apply bind_Ok in Hs as ([t c2] & Ht & Hs). injection Hs as <- <-.
  by exists c1.
Qed.


(** C2.  [P1PC.apply] computes [y = T · Solve(CoarseOperator, Tᵗ · x)], with
    [T] the transpose of the stored transfer matrix (the prolongation): [x] is
    restricted with [Tᵗ], the delegated [pc] is applied to the restricted
    vector with the coarse operator, and the result is prolonged with [T];
    the equation holds with the failures of each step included.  The coarse
    operator is the one [setUp] took from [P1_op], where it stays.  On a
    fresh context it is assembled from a form whose two arguments live on
    [P1] (the form of the context with each argument replaced by the
    argument of [P1] of the same number), with the boundary conditions
    rebuilt on [P1]: same sub-domain and method, the nodes those give on
    [P1], and the original value interpolated into [P1]. *)
Theorem coarse_correction_apply (outer : PC R) (self : P1PC R)
    (c' : SubspaceCorrectionPrec R) (x y : list R) :
  P1PC_setUp (H0 := B) outer = Ok (self, c') →
  let T := Mat_transpose (transfer self) in
  let CoarseOperator := pc_operator self in
  value_of (P1PC_apply self x y)
    = (r ← Mat_mult (Mat_transpose T) x (createVec (ncols T));
       sol ← pc_apply (getOptionsPrefix outer +:+ "lo_") CoarseOperator r;
       Mat_mult T (resize (ncols T) s0 sol) (createVec (length y)))
  ∧ cached_P1_op c' = Some CoarseOperator
  ∧ (cached_P1_op (getPythonContext outer) = None →
     cached_P1_form (getPythonContext outer) = None →
     cached_P1_bcs (getPythonContext outer) = None →
       ∃ form p1_bcs,
         CoarseOperator = assemble form p1_bcs
         ∧ cached_P1_form c' = Some form ∧ cached_P1_bcs c' = Some p1_bcs
         ∧ ufl_domain form = ufl_domain (a c')
         ∧ integrand form = integrand (a c')
         ∧ function_space (arguments form).1 = P1 c'
         ∧ function_space (arguments form).2 = P1 c'
         ∧ number (arguments form).1 = number (arguments (a c')).1
         ∧ number (arguments form).2 = number (arguments (a c')).2
         ∧ Forall2 (λ bc bc1,
                      bc_space bc1 = P1 c'
                      ∧ function_arg bc1 = Interpolate (P1 c') (function_arg bc)
                      ∧ sub_domain bc1 = sub_domain bc ∧ method bc1 = method bc
                      ∧ nodes bc1 = boundary_nodes (P1 c') (sub_domain bc) (method bc))
                   (bcs c') p1_bcs).
Proof.
  intros Hs T CoarseOperator. subst T CoarseOperator.
  apply P1PC_setUp_Ok in Hs as (c1 & Hop & Ht & Hpc & Hw1 & Hw2).
  pose proof (transfer_op_Ok _ _ _ Ht) as (_ & Hattr & Hslots & Hhow).
  pose proof (P1_op_Ok _ _ _ Hop) as (Hslot1 & Hattr1 & _ & Hhow1).
  split_and!.
  - unfold P1PC_apply, P1PC_restrict, P1PC_prolong. rewrite Hpc, Hw1, Hw2. simpl.
    unfold vec_set0, createVec. rewrite !length_replicate.
    rewrite Mat_mult_transpose_transpose.
    destruct (Mat_mult (transfer self) x (replicate (nrows (transfer self)) s0))
      as [r|e]; simpl; [|done].
    destruct (pc_apply _ (pc_operator self) r) as [sol|e]; simpl; [|done].
    rewrite Mat_multTranspose_transpose.
    by destruct (Mat_mult (Mat_transpose (transfer self)) _ _).
  - injection Hslots as _ Hop' _ _ _. by rewrite Hop'.
  - intros Hnone Hfnone Hbnone.
    destruct Hhow1 as [[Hsome _]|(_ & f & l & Hf & Hl & Hcf & Hcl & Hm)];
      [congruence|].
    apply P1_form_Ok in Hf as [_ [Hsome|(_ & Hdom & Hint & Hs1 & Hs2 & Hn1 & Hn2)]];
      [congruence|].
    apply P1_bcs_Ok in Hl as [_ [Hsome|[_ Hall]]]; [simpl in Hsome; congruence|].
    simpl in Hall.
    assert (attributes c' = attributes (getPythonContext outer)) as Hboth
      by congruence.
    assert (cached_P1_bcs c' = Some l) as Hl'.
    { destruct Hhow as [[_ ->]|(_ & k & a_ & b_ & l' & Hl' & Hcl' & _)]; [done|].
      apply P1_bcs_Ok in Hl' as [_ [Hsome|[Hn _]]]; congruence. }
    injection Hslots as Hcf' _ _ _ _.
    same_attributes Hboth. rewrite Ha, HP1, Hbcs.
    exists f, l. split_and!; try done. congruence.
Qed.

End coarse.

(** ** pulley.py: the patch smoother *)

Section scatter.
Import pulley.
Context {R : Type} `{Scalar R} `{Backend R}.
Implicit Types (c : SubspaceCorrectionPrec R) (x y ly : list R)
  (yr lr : list (list R)) (zs : list (nat * list R)).

Lemma length_bump zs yr : length (bump zs yr) = length yr.
Proof. apply length_imap. Qed.

Lemma lookup_bump zs yr g :
  bump zs yr !! g =
    (λ row, match assigned zs g with Some l => row_add row l | None => row end)
      <$> yr !! g.
Proof. apply list_lookup_imap. Qed.

Lemma bump_widths bsize zs yr :
  Forall (λ r, length r = bsize) yr →
  Forall (λ r, length r = bsize) zs.*2 →
  Forall (λ r, length r = bsize) (bump zs yr).
Proof.
  intros Hyr Hzs. apply Forall_lookup. intros g row. rewrite lookup_bump.
  destruct (yr !! g) as [row0|] eqn:Hg; simpl; [|done]. intros [= <-].
  pose proof (Forall_lookup_1 _ _ _ _ Hyr Hg) as Hrow0. simpl in Hrow0.
  destruct (assigned zs g) as [l|] eqn:Hl; [|done].
  apply assigned_Some_elem in Hl.
  assert (length l = bsize) as Hlen.
  { eapply (Forall_forall (λ r, length r = bsize) zs.*2); [done|].
    apply list_elem_of_fmap. by exists (g, l). }
  unfold row_add. rewrite length_zip_with. lia.
Qed.

(** The sums written back by [y[dofs] += vals] are those of [bump]: each
    is formed from the row read before any assignment. *)
Lemma assigned_row_add yr dofs tmp vals g row :
  Forall2 (λ d t, yr !! d = Some t) dofs tmp →
  yr !! g = Some row →
  assigned (zip dofs (zip_with row_add tmp vals)) g
    = row_add row <$> assigned (zip dofs vals) g.
Proof.
  intros Htmp Hg. revert vals.
  induction Htmp as [|d t dofs tmp Hd _ IH]; intros [|v vals]; simpl; try done.
  rewrite IH. destruct (assigned (zip dofs vals) g); simpl; [done|].
  case_decide; [|done]. subst. rewrite Hd in Hg. by injection Hg as ->.
Qed.

Lemma np_put_bump yr dofs tmp vals :
  Forall2 (λ d t, yr !! d = Some t) dofs tmp →
  np_put yr dofs (zip_with row_add tmp vals) = bump (zip dofs vals) yr.
Proof.
  intros Htmp.
  assert (Forall (λ d, d < length yr) dofs) as Hrange.
  { eapply np_take_Ok_range. by apply np_take_Ok. }
  apply list_eq. intros g. rewrite lookup_np_put, lookup_bump by done.
  destruct (yr !! g) as [row|] eqn:Hg; simpl.
  - rewrite (assigned_row_add _ _ _ _ _ row) by done.
    by destruct (assigned (zip dofs vals) g).
  - destruct (assigned _ g) as [w|] eqn:Hw; [|done].
    apply assigned_Some_elem, elem_of_zip_l in Hw.
    apply (Forall_forall _ _) with (x := g) in Hrange; [|done].
    apply lookup_ge_None in Hg. lia.
Qed.

(** One [scatter_add], up to the exception raised: when [y] reshapes to rows
    [yr] and the assignments can be made, the rows become [bump] of them. *)
Lemma scatter_add_returned c bsize y (ily : nat * list R) :
  returned (scatter_add c bsize y ily) =
    (yr ← returned (np_reshape bsize y);
     zs ← scatter_plan c bsize (length yr) ily;
     Some (mjoin (bump zs yr))).
Proof.
  destruct ily as [i ly]. unfold scatter_add, scatter_plan. simpl.
  destruct (patch_slice (glob_patches c) i) as [dofs|e]; simpl.
  2: { by destruct (returned (np_reshape bsize y)). }
  destruct (np_reshape bsize y) as [yr|e]; simpl; [|done].
  destruct (np_take yr dofs) as [tmp|e] eqn:Htmp; simpl.
  - pose proof (proj1 (np_take_Ok _ _ _) Htmp) as Htmp'.
    pose proof (np_take_Ok_range _ _ _ Htmp) as Hrange.
    rewrite option_guard_True by done. simpl.
    destruct (np_reshape bsize ly) as [lr|e]; simpl; [|done].
    rewrite (Forall2_length _ _ _ Htmp').
    destruct (np_broadcast (length tmp) lr) as [lr'|e]; simpl; [|done].
    by rewrite np_put_bump.
  - case_guard as Hidx; [|done].
    destruct (np_take_in_range yr dofs Hidx) as (v & Hv & _). congruence.
Qed.

Lemma scatter_plan_widths c bsize n ily zs :
  scatter_plan c bsize n ily = Some zs →
  Forall (λ r, length r = bsize) zs.*2.
Proof.
  unfold scatter_plan. intros Hp.
  destruct (returned (patch_slice _ _)) as [dofs|]; simpl in Hp; [|done].
  case_guard; simpl in Hp; [|done].
  destruct (np_reshape bsize ily.2) as [lr|] eqn:Hlr; simpl in Hp; [|done].
  destruct (np_broadcast (length dofs) lr) as [lr'|] eqn:Hlr'; simpl in Hp; [|done].
  injection Hp as <-.
  apply np_reshape_Ok in Hlr as (_ & _ & Hw & _).
  pose proof (np_broadcast_Forall _ _ _ _ Hlr' Hw) as Hw'.
  apply Forall_forall. intros r Hr.
  apply list_elem_of_fmap in Hr as ([g r'] & -> & Hin).
  apply elem_of_zip_r in Hin. simpl.
  by apply (proj1 (Forall_forall _ lr') Hw').
Qed.

Lemma scatter_add_reshape c bsize y ily y' :
  scatter_add c bsize y ily = Ok y' →
  ∃ yr zs, np_reshape bsize y = Ok yr
           ∧ scatter_plan c bsize (length yr) ily = Some zs
           ∧ y' = mjoin (bump zs yr)
           ∧ np_reshape bsize y' = Ok (bump zs yr).
Proof.
  intros Hs. apply returned_Some in Hs. rewrite scatter_add_returned in Hs.
  destruct (np_reshape bsize y) as [yr|] eqn:Hyr; simpl in Hs; [|done].
  destruct (scatter_plan c bsize (length yr) ily) as [zs|] eqn:Hzs; simpl in Hs; [|done].
  injection Hs as <-. exists yr, zs. split_and!; try done.
  apply np_reshape_Ok in Hyr as (Hb & _ & Hw & _).
  apply np_reshape_join; [done|].
  apply bump_widths; [done|]. by eapply scatter_plan_widths.
Qed.

End scatter.

Lemma assigned_NoDup {A} (idx : list nat) (vals : list A) k g :
  NoDup idx → idx !! k = Some g → k < length vals →
  assigned (zip idx vals) g = vals !! k.
Proof.
  intros Hnd. revert vals k.
  induction Hnd as [|g0 idx Hnotin _ IH]; intros [|v vals] [|k] Hk Hlen;
    simpl in *; try done; try lia.
  - injection Hk as ->.
    rewrite (proj2 (assigned_None (zip idx vals) g)), decide_True; [done..|].
    intros Hin. apply Hnotin. apply list_elem_of_fmap in Hin as ([g' v'] & -> & Hin).
    by apply elem_of_zip_l in Hin.
  - rewrite (IH vals k) by (done || lia).
    destruct (vals !! k) eqn:Hv; [done|]. apply lookup_ge_None in Hv. lia.
Qed.

Lemma assigned_not_elem {A} (idx : list nat) (vals : list A) g :
  g ∉ idx → assigned (zip idx vals) g = None.
Proof.
  intros Hg. apply assigned_None. intros Hin. apply Hg.
  apply list_elem_of_fmap in Hin as ([g' v'] & -> & Hin).
  by apply elem_of_zip_l in Hin.
Qed.

(** ** pulley.py: the entries gathered and the entries added *)

Section entries.
Import pulley.
Context {R : Type} `{Scalar R} `{Backend R}.
Implicit Types (c : SubspaceCorrectionPrec R) (x y ly b : list R) (m : Mat R).

(** The right-hand side of a patch, entry by entry: local dof [k], component
    [comp], holds the residual entry of the global dof [dofs[k]], same
    component, or zero when [k] is boundary-fixed. *)
Lemma local_rhs_entries c bsize x i m b dofs bcd :
  local_rhs c bsize x (i, m) = Ok b →
  patch_slice (glob_patches c) i = Ok dofs →
  patch_slice (bc_patches c) i = Ok bcd →
  nrows m = length dofs * bsize →
  length b = nrows m
  ∧ ∀ k g comp, dofs !! k = Some g → comp < bsize →
      b !! (bsize * k + comp)
        = if decide (k ∈ bcd) then Some s0 else x !! (bsize * g + comp).
Proof.
  intros Hb Hdofs Hbcd Hn.
  apply local_rhs_Ok in Hb
    as (dofs' & bcd' & xr & rhs & br & Hdofs' & Hbcd' & Hxr & Hrhs & Hbr & _ & _
        & rows & -> & Hlen & Hw & Hrows).
  rewrite Hdofs in Hdofs'. rewrite Hbcd in Hbcd'.
  injection Hdofs' as <-. injection Hbcd' as <-.
  apply np_reshape_Ok in Hxr as (Hbs & <- & Hxw & _).
  pose proof (proj1 (np_take_Ok _ _ _) Hrhs) as Hrhs'.
  assert (nrows m / bsize = length dofs) as Hrows_n.
  { rewrite Hn. by apply Nat.div_mul. }
  split.
  { rewrite (length_join_uniform bsize) by done. rewrite Hlen, Hrows_n. lia. }
  intros k g comp Hk Hcomp.
  rewrite (lookup_join_uniform bsize) by done. rewrite Hrows.
  case_decide; simpl; [by apply lookup_replicate_2|].
  assert (br = rhs) as ->.
  { apply np_broadcast_Ok in Hbr as [_ [[_ ->]|(r & Hne & -> & _)]]; [done|].
    apply Forall2_length in Hrhs'. simpl in *. lia. }
  destruct (Forall2_lookup_l _ _ _ _ _ Hrhs' Hk) as (row & -> & Hrow). simpl.
  rewrite (lookup_join_uniform bsize) by done. by rewrite Hrow.
Qed.

(** One addition into [y], entry by entry, for a patch that lists each of its
    dofs once: the entries of global dof [dofs[k]] grow by those of local dof
    [k]; every other entry is left as it was. *)
Lemma scatter_add_entries c bsize y i ly y' dofs :
  scatter_add c bsize y (i, ly) = Ok y' →
  patch_slice (glob_patches c) i = Ok dofs →
  NoDup dofs → length ly = length dofs * bsize →
  length y' = length y
  ∧ (∀ k g comp, dofs !! k = Some g → comp < bsize →
       y' !! (bsize * g + comp)
         = (a ← y !! (bsize * g + comp); l ← ly !! (bsize * k + comp);
            Some (sadd a l)))
  ∧ (∀ g comp, g ∉ dofs → comp < bsize →
       y' !! (bsize * g + comp) = y !! (bsize * g + comp)).
Proof.
  intros Hs Hdofs Hnd Hly.
  apply scatter_add_reshape in Hs as (yr & zs & Hyr & Hzs & -> & _).
  pose proof (scatter_plan_widths _ _ _ _ _ Hzs) as Hzw.
  apply np_reshape_Ok in Hyr as (Hbs & <- & Hyw & _).
  unfold scatter_plan in Hzs. simpl in Hzs. rewrite Hdofs in Hzs. simpl in Hzs.
  case_guard as Hrange; simpl in Hzs; [|done].
  destruct (np_reshape bsize ly) as [lr|e] eqn:Hlr; simpl in Hzs; [|done].
  apply np_reshape_Ok in Hlr as (_ & <- & Hlw & Hlr_len).
  assert (length lr = length dofs) as Hlr_rows by nia.
  rewrite np_broadcast_same in Hzs by done. simpl in Hzs. injection Hzs as <-.
  assert (Forall (λ r, length r = bsize) (bump (zip dofs lr) yr)) as Hbw.
  { by apply bump_widths. }
  split_and!.
  - rewrite !(length_join_uniform bsize) by done. by rewrite length_bump.
  - intros k g comp Hk Hcomp.
    rewrite !(lookup_join_uniform bsize) by done. rewrite lookup_bump.
    rewrite (assigned_NoDup _ _ k) by (done || (apply lookup_lt_Some in Hk; lia)).
    destruct (yr !! g) as [row|] eqn:Hrow; simpl; [|done].
    destruct (lr !! k) as [l|] eqn:Hl; simpl.
    + unfold row_add. rewrite lookup_zip_with. done.
    + apply lookup_ge_None in Hl. apply lookup_lt_Some in Hk. lia.
  - intros g comp Hg Hcomp.
    rewrite !(lookup_join_uniform bsize) by done. rewrite lookup_bump.
    rewrite assigned_not_elem by done. by destruct (yr !! g).
Qed.

End entries.

Lemma result_bind_assoc {A B C} (m : result A) (f : A → result B) (g : B → result C) :
  (m ≫= f) ≫= g = m ≫= (λ a, f a ≫= g).
Proof. by destruct m. Qed.

(** A loop whose turns commute, up to the exception raised, gives the same
    result, up to the exception raised, in every order. *)
Lemma foldM_permutation {A B} (f : A → B → result A) :
  (∀ a b1 b2,
     returned (f a b1 ≫= λ a', f a' b2) = returned (f a b2 ≫= λ a', f a' b1)) →
  ∀ l l', l ≡ₚ l' → ∀ a, returned (foldM f l a) = returned (foldM f l' a).
Proof.
  intros Hcomm l l'. induction 1 as [|b l l' _ IH|b1 b2 l|l1 l2 l3 _ IH1 _ IH2];
    intros a0; simpl.
  - done.
  - apply returned_bind_ext; [done|]. intros a1 _. apply IH.
  - rewrite <-!result_bind_assoc. apply returned_bind_ext; [apply Hcomm|done].
  - by rewrite IH1.
Qed.

Section smoother.
Import pulley.
Context {R : Type} `{Scalar R} `{Backend R}.
Implicit Types (self : PatchPC R) (c : SubspaceCorrectionPrec R) (x y ly : list R)
  (ps : list (nat * Mat R)).
#[local] Arguments scatter_add : simpl never.
#[local] Arguments local_solve : simpl never.
#[local] Arguments patch_correction : simpl never.
#[local] Arguments matrices : simpl never.

(** One turn of the first loop: the solver is handed the matrix of the
    patch, whatever the KSP was set to before; only its prefix stays. *)
Lemma patch_solve_eq (k : KSP R) c bsize x (im : nat * Mat R) :
  patch_solve k c bsize x im
  = (b ← local_rhs c bsize x im;
     sol ← ksp_solve (ksp_prefix k) im.2 b;
     Ok (resize (nrows im.2) s0 sol, KSP_setOperators (KSP_reset k) im.2)).
Proof.
  unfold patch_solve, KSP_solve, createVec. rewrite length_replicate. done.
Qed.

Lemma local_solve_eq self c bsize x (im : nat * Mat R) :
  local_solve self c bsize x im
  = (b ← local_rhs c bsize x im;
     sol ← ksp_solve (ksp_prefix (ksp self)) im.2 b;
     Ok (resize (nrows im.2) s0 sol)).
Proof.
  unfold local_solve. rewrite patch_solve_eq.
  destruct (local_rhs c bsize x im) as [b|e]; simpl; [|done].
  by destruct (ksp_solve _ im.2 b).
Qed.

Lemma patch_solve_local_solve self (k : KSP R) c bsize x (im : nat * Mat R) :
  ksp_prefix k = ksp_prefix (ksp self) →
  patch_solve k c bsize x im
  = (ly ← local_solve self c bsize x im;
     Ok (ly, KSP_setOperators (KSP_reset k) im.2)).
Proof.
  intros Hk. rewrite patch_solve_eq, local_solve_eq, Hk.
  destruct (local_rhs c bsize x im) as [b|e]; simpl; [|done].
  by destruct (ksp_solve _ im.2 b).
Qed.

Lemma solve_loop_from self (k : KSP R) c bsize x ps (acc : list (list R)) :
  ksp_prefix k = ksp_prefix (ksp self) →
  foldM (λ '(tmp_ys, k) im,
           '(ly, k) ← patch_solve k c bsize x im;
           Ok (tmp_ys ++ [ly], k)) ps (acc, k)
  = (tmp ← mapM (local_solve self c bsize x) ps;
     Ok (acc ++ tmp, KSP_after k ps)).
Proof.
  revert k acc. induction ps as [|im ps IH]; intros k acc Hk.
  { simpl. by rewrite app_nil_r. }
  cbn [foldM mapM]. rewrite (patch_solve_local_solve self) by done.
  destruct (local_solve self c bsize x im) as [ly|e]; simpl; [|done].
  rewrite IH by done.
  destruct (mapM (local_solve self c bsize x) ps) as [tmp|e]; simpl; [|done].
  rewrite <-app_assoc. f_equal. f_equal. unfold KSP_after.
  destruct ps as [|im' ps]; [done|]. simpl.
  destruct (last (im' :: ps)) eqn:Hl; [done|]. by apply last_None in Hl.
Qed.

Lemma solve_loop_mapM self c bsize x ps :
  solve_loop (ksp self) c bsize x ps
  = (tmp ← mapM (local_solve self c bsize x) ps;
     Ok (tmp, KSP_after (ksp self) ps)).
Proof. unfold solve_loop. by rewrite (solve_loop_from self). Qed.

(** [PatchPC.apply], with the KSP taken out of the first loop. *)
Lemma PatchPC_apply_in_eq order globals_V self x y :
  PatchPC_apply_in order globals_V self x y
  = ('(ms, c) ← matrices globals_V (ctx self);
     tmp_ys ← mapM (local_solve self c (dim (V (ctx self))) x) (order (enumerate ms));
     y ← foldM (scatter_add c (dim (V (ctx self))))
               (zip (order (enumerate ms)).*1 tmp_ys) (vec_set0 y);
     Ok (y, {| ksp := KSP_after (ksp self) (order (enumerate ms)); ctx := c |})).
Proof.
  unfold PatchPC_apply_in.
  destruct (matrices globals_V (ctx self)) as [[ms c]|e]; simpl; [|done].
  rewrite solve_loop_mapM.
  by destruct (mapM _ (order (enumerate ms))) as [tmp_ys|e].
Qed.

Lemma PatchPC_apply_eq globals_V self x y :
  PatchPC_apply globals_V self x y
  = ('(ms, c) ← matrices globals_V (ctx self);
     tmp_ys ← mapM (local_solve self c (dim (V (ctx self))) x) (enumerate ms);
     y ← foldM (scatter_add c (dim (V (ctx self)))) (enumerate tmp_ys) (vec_set0 y);
     Ok (y, {| ksp := KSP_after (ksp self) (enumerate ms); ctx := c |})).
Proof.
  unfold PatchPC_apply.
  destruct (matrices globals_V (ctx self)) as [[ms c]|e]; simpl; [|done].
  rewrite solve_loop_mapM.
  by destruct (mapM _ (enumerate ms)) as [tmp_ys|e].
Qed.

Lemma patch_correction_local_solve self c bsize x y (im : nat * Mat R) :
  patch_correction self c bsize x y im
  = (ly ← local_solve self c bsize x im; scatter_add c bsize y (im.1, ly)).
Proof.
  unfold patch_correction. rewrite local_solve_eq.
  destruct (local_rhs c bsize x im) as [b|e]; simpl; [|done].
  by destruct (ksp_solve _ im.2 b).
Qed.

(** The two loops of [apply] (all local solves, then all additions into [y])
    and the single loop that corrects patch after patch return the same
    vector, or both raise. *)
Lemma two_loops_fused self c bsize x ps y :
  returned (tmp_ys ← mapM (local_solve self c bsize x) ps;
            foldM (scatter_add c bsize) (zip ps.*1 tmp_ys) y)
  = returned (foldM (patch_correction self c bsize x) ps y).
Proof.
  revert y. induction ps as [|[i m] ps IH]; intros y; [done|].
  cbn [mapM foldM fmap list_fmap]. rewrite patch_correction_local_solve.
  destruct (local_solve self c bsize x (i, m)) as [ly|e]; simpl; [|done].
  destruct (scatter_add c bsize y (i, ly)) as [y1|e] eqn:Hs; simpl.
  - rewrite <-IH.
    destruct (mapM (local_solve self c bsize x) ps) as [k|e]; simpl; [|done].
    by rewrite Hs.
  - destruct (mapM (local_solve self c bsize x) ps) as [k|e']; simpl; [|done].
    by rewrite Hs.
Qed.

Lemma zip_enumerate {A B} (l : list A) (k : list B) :
  length k = length l → zip (enumerate l).*1 k = enumerate k.
Proof.
  intros Hlen. unfold enumerate.
  rewrite fst_zip by (rewrite length_seq; lia). by rewrite Hlen.
Qed.

Lemma PatchPC_apply_in_id globals_V self x y :
  PatchPC_apply_in id globals_V self x y = PatchPC_apply globals_V self x y.
Proof.
  rewrite PatchPC_apply_in_eq, PatchPC_apply_eq. simpl.
  destruct (matrices globals_V (ctx self)) as [[ms c]|e]; simpl; [|done].
  destruct (mapM _ (enumerate ms)) as [tmp_ys|e] eqn:Hm; simpl; [|done].
  apply mapM_Ok_length in Hm. rewrite zip_enumerate; [done|].
  rewrite Hm. unfold enumerate. rewrite length_zip, length_seq. lia.
Qed.

Lemma PatchPC_apply_in_fused order globals_V self x y :
  returned (value_of (PatchPC_apply_in order globals_V self x y))
  = returned ('(ms, c) ← matrices globals_V (ctx self);
              foldM (patch_correction self c (dim (V (ctx self))) x)
                    (order (enumerate ms)) (vec_set0 y)).
Proof.
  rewrite PatchPC_apply_in_eq.
  destruct (matrices globals_V (ctx self)) as [[ms c]|e]; simpl; [|done].
  rewrite <-two_loops_fused.
  destruct (mapM _ (order (enumerate ms))) as [tmp_ys|e]; simpl; [|done].
  by destruct (foldM _ _ _).
Qed.

Lemma PatchPC_apply_fused globals_V self x y :
  returned (value_of (PatchPC_apply globals_V self x y))
  = returned (PatchSmoother_Apply globals_V self x y).
Proof.
  rewrite <-PatchPC_apply_in_id, PatchPC_apply_in_fused.
  unfold PatchSmoother_Apply, vec_set0. done.
Qed.

(** C1.  [PatchPC.apply] returns what the procedure of the specification
    returns, and raises when that raises: [y] is set to zero (it keeps its
    size), then every patch in turn is corrected ([patch_correction]): its
    right-hand side is formed, its cached matrix is solved against it, and the
    local solution is added into [y], each addition starting from what the
    patches before it have left there.  Entry by entry: the right-hand side
    of a patch holds the residual at the global dofs of the patch, with zero
    at the boundary-fixed local dofs; and the addition, for a patch that
    lists each of its dofs once, increases the entries of [y] at the global
    dofs of the patch by the local solution and leaves the other entries
    alone. *)
Theorem PatchPC_apply_refines_spec globals_V self x y :
  returned (value_of (PatchPC_apply globals_V self x y))
  = returned (PatchSmoother_Apply globals_V self x y)
  ∧ (∀ c bsize i m b dofs bcd,
       local_rhs c bsize x (i, m) = Ok b →
       patch_slice (glob_patches c) i = Ok dofs →
       patch_slice (bc_patches c) i = Ok bcd →
       nrows m = length dofs * bsize →
       length b = nrows m
       ∧ ∀ k g comp, dofs !! k = Some g → comp < bsize →
           b !! (bsize * k + comp)
             = if decide (k ∈ bcd) then Some s0 else x !! (bsize * g + comp))
  ∧ (∀ c bsize i ly y0 y' dofs,
       scatter_add c bsize y0 (i, ly) = Ok y' →
       patch_slice (glob_patches c) i = Ok dofs →
       NoDup dofs → length ly = length dofs * bsize →
       length y' = length y0
       ∧ (∀ k g comp, dofs !! k = Some g → comp < bsize →
            y' !! (bsize * g + comp)
              = (a ← y0 !! (bsize * g + comp); l ← ly !! (bsize * k + comp);
                 Some (sadd a l)))
       ∧ (∀ g comp, g ∉ dofs → comp < bsize →
            y' !! (bsize * g + comp) = y0 !! (bsize * g + comp))).
Proof.
  split_and!.
  - apply PatchPC_apply_fused.
  - intros c bsize i m b dofs bcd. apply local_rhs_entries.
  - intros c bsize i ly y0 y' dofs. apply scatter_add_entries.
Qed.

End smoother.

(** ** pulley.py: the order of the patches *)

Section patch_order.
Import pulley.
Context {R : Type} `{Scalar R} `{Backend R}.
Implicit Types (self : PatchPC R) (c : SubspaceCorrectionPrec R) (x y ly : list R)
  (yr : list (list R)) (zs : list (nat * list R)).
#[local] Arguments scatter_add : simpl never.
#[local] Arguments local_solve : simpl never.
#[local] Arguments patch_correction : simpl never.
#[local] Arguments matrices : simpl never.
#[local] Arguments scatter_plan : simpl never.

(** Exact arithmetic: the scalar addition is associative and commutative. *)
Hypothesis sadd_assoc : ∀ a b c : R, sadd a (sadd b c) = sadd (sadd a b) c.
Hypothesis sadd_comm : ∀ a b : R, sadd a b = sadd b a.

Lemma sadd_right_comm (a b c : R) : sadd (sadd a b) c = sadd (sadd a c) b.
Proof using sadd_assoc sadd_comm.
  by rewrite <-!sadd_assoc, (sadd_comm b c).
Qed.

Lemma row_add_right_comm (r u v : list R) :
  row_add (row_add r u) v = row_add (row_add r v) u.
Proof using sadd_assoc sadd_comm.
  unfold row_add. revert u v.
  induction r as [|a r IH]; intros [|b u] [|d v]; simpl; try done.
  by rewrite IH, sadd_right_comm.
Qed.

Lemma bump_comm zs1 zs2 yr : bump zs1 (bump zs2 yr) = bump zs2 (bump zs1 yr).
Proof using sadd_assoc sadd_comm.
  apply list_eq. intros g. rewrite !lookup_bump.
  destruct (yr !! g) as [row|]; simpl; [|done]. f_equal.
  destruct (assigned zs1 g), (assigned zs2 g); try done.
  apply row_add_right_comm.
Qed.

(** Two additions into [y] one after the other, up to the exception raised. *)
Lemma two_scatters c bsize y (p q : nat * list R) :
  returned (scatter_add c bsize y p ≫= λ y1, scatter_add c bsize y1 q) =
    (yr ← returned (np_reshape bsize y);
     zp ← scatter_plan c bsize (length yr) p;
     zq ← scatter_plan c bsize (length yr) q;
     Some (mjoin (bump zq (bump zp yr)))).
Proof.
  destruct (scatter_add c bsize y p) as [y1|e] eqn:Hp; simpl.
  - apply scatter_add_reshape in Hp as (yr & zp & Hyr & Hzp & _ & Hy1).
    rewrite scatter_add_returned, Hy1, Hyr. simpl.
    by rewrite length_bump, Hzp.
  - assert (returned (scatter_add c bsize y p) = None) as Hnone by by rewrite Hp.
    rewrite scatter_add_returned in Hnone.
    destruct (returned (np_reshape bsize y)) as [yr|]; simpl in *; [|done].
    by destruct (scatter_plan c bsize (length yr) p).
Qed.

Lemma scatter_add_comm c bsize y (p q : nat * list R) :
  returned (scatter_add c bsize y p ≫= λ y1, scatter_add c bsize y1 q)
  = returned (scatter_add c bsize y q ≫= λ y1, scatter_add c bsize y1 p).
Proof using sadd_assoc sadd_comm.
  rewrite !two_scatters.
  destruct (returned (np_reshape bsize y)) as [yr|]; simpl; [|done].
  destruct (scatter_plan c bsize (length yr) p) as [zp|],
           (scatter_plan c bsize (length yr) q) as [zq|]; simpl; try done.
  by rewrite bump_comm.
Qed.

Lemma patch_correction_comm self c bsize x y (p q : nat * Mat R) :
  returned (patch_correction self c bsize x y p
            ≫= λ y1, patch_correction self c bsize x y1 q)
  = returned (patch_correction self c bsize x y q
              ≫= λ y1, patch_correction self c bsize x y1 p).
Proof using sadd_assoc sadd_comm.
  transitivity
    (returned (lp ← local_solve self c bsize x p;
               lq ← local_solve self c bsize x q;
               y1 ← scatter_add c bsize y (p.1, lp);
               scatter_add c bsize y1 (q.1, lq))).
  - rewrite patch_correction_local_solve.
    destruct (local_solve self c bsize x p) as [lp|e]; simpl; [|done].
    destruct (local_solve self c bsize x q) as [lq|e] eqn:Hq; simpl.
    + apply returned_bind_ext; [done|]. intros y1 _.
      by rewrite patch_correction_local_solve, Hq.
    + destruct (scatter_add c bsize y (p.1, lp)) as [y1|e']; simpl; [|done].
      by rewrite patch_correction_local_solve, Hq.
  - rewrite (patch_correction_local_solve _ _ _ _ y q).
    destruct (local_solve self c bsize x q) as [lq|e]; simpl.
    + destruct (local_solve self c bsize x p) as [lp|e] eqn:Hp; simpl.
      * rewrite scatter_add_comm. apply returned_bind_ext; [done|]. intros y1 _.
        by rewrite patch_correction_local_solve, Hp.
      * destruct (scatter_add c bsize y (q.1, lq)) as [y1|e']; simpl; [|done].
        by rewrite patch_correction_local_solve, Hp.
    + by destruct (local_solve self c bsize x p).
Qed.

(** With an exact addition the order of the patches does not show in the
    correction. *)
Lemma order_independent_exact : order_independent R.
Proof using sadd_assoc sadd_comm.
  intros order Horder globals_V self x y.
  rewrite <-PatchPC_apply_in_id, !PatchPC_apply_in_fused.
  destruct (matrices globals_V (ctx self)) as [[ms c]|e]; simpl; [|done].
  apply foldM_permutation; [|apply Horder].
  intros y0 p q. apply patch_correction_comm.
Qed.

End patch_order.

Section patch_writes.
Import pulley.
Context {R : Type} `{Scalar R} `{Backend R}.
Implicit Types (self : PatchPC R) (c : SubspaceCorrectionPrec R) (x y : list R)
  (k : KSP R) (im : nat * Mat R) (ps : list (nat * Mat R)).
#[local] Arguments scatter_add : simpl never.
#[local] Arguments local_solve : simpl never.
#[local] Arguments matrices : simpl never.

Lemma local_solve_length self c bsize x im ly :
  local_solve self c bsize x im = Ok ly → length ly = nrows im.2.
Proof.
  rewrite local_solve_eq. intros Hly. inv_result. subst ly.
  by rewrite length_resize.
Qed.

(** The first loop writes one local solution per patch, the one of that
    patch alone, and leaves the KSP set to the last patch. *)
Lemma solve_loop_Ok self c bsize x ps (tmp_ys : list (list R)) k :
  solve_loop (ksp self) c bsize x ps = Ok (tmp_ys, k) →
  Forall2 (λ im ly, local_solve self c bsize x im = Ok ly ∧ length ly = nrows im.2)
          ps tmp_ys
  ∧ k = KSP_after (ksp self) ps.
Proof.
  rewrite solve_loop_mapM. intros Hl. apply bind_Ok in Hl as (tmp & Hm & Hl).
  injection Hl as <- <-. split; [|done]. apply mapM_Ok in Hm.
  eapply Forall2_impl; [exact Hm|]. intros im ly Hly. simpl in Hly.
  split; [done|]. by eapply local_solve_length.
Qed.

Lemma Mat_createVecs_fresh (m : Mat R) (h : gmap nat (list R)) (ly b : nat) (h' : gmap nat (list R)) :
  Mat_createVecs m h = (ly, b, h') →
  (ly ∉ dom h) ∧ (b ∉ dom h) ∧ ly ≠ b
  ∧ h' = <[b := createVec (nrows m)]> (<[ly := createVec (nrows m)]> h).
Proof.
  unfold Mat_createVecs. intros [= <- <- <-].
  pose proof (is_fresh (dom h)) as Hly.
  pose proof (is_fresh (dom (<[fresh (dom h) := createVec (nrows m)]> h))) as Hb.
  revert Hly Hb. generalize (fresh (dom h)). intros ly Hly.
  generalize (fresh (dom (<[ly := createVec (nrows m)]> h))). intros b Hb.
  rewrite dom_insert_L in Hb. split_and!; [done|set_solver|set_solver|done].
Qed.

(** One turn of the first loop on the vectors: it returns when the turn on
    the arrays does, keeps the local solution in a vector that was not there
    before, and writes no vector that was. *)
Lemma patch_solve_vecs_pure k c bsize (lx : nat) im (h : gmap nat (list R)) x :
  h !! lx = Some x →
  match patch_solve k c bsize x im with
  | Ok (lyv, k') =>
      ∃ ly b h', patch_solve_vecs k c bsize lx im h = Ok (ly, k', h')
        ∧ (ly ∉ dom h) ∧ (b ∉ dom h) ∧ ly ≠ b
        ∧ dom h' = {[ly; b]} ∪ dom h
        ∧ h' !! ly = Some lyv
        ∧ (∀ l, l ∈ dom h → h' !! l = h !! l)
  | Raise e => patch_solve_vecs k c bsize lx im h = Raise e
  end.
Proof.
  intros Hx. rewrite patch_solve_eq. unfold patch_solve_vecs.
  destruct (Mat_createVecs im.2 h) as [[ly b] h2] eqn:Hcv.
  apply Mat_createVecs_fresh in Hcv as (Hly & Hb & Hne & ->).
  assert (lx ∈ dom h) as Hlx by (apply elem_of_dom; eauto).
  assert (lx ≠ ly ∧ lx ≠ b) as [Hxl Hxb] by (split; intros ->; done).
  unfold Vec_array. rewrite !lookup_insert_ne, Hx by done. simpl.
  destruct (local_rhs c bsize x im) as [ba|e]; simpl; [|done].
  unfold KSP_solve. simpl.
  destruct (ksp_solve (ksp_prefix k) im.2 ba) as [sol|e]; simpl; [|done].
  eexists ly, b, _. split; [done|]. split_and!; try done.
  - rewrite !dom_insert_L. apply set_eq. intros l.
    rewrite !elem_of_union, !elem_of_singleton. tauto.
  - by rewrite lookup_insert_eq.
  - intros l Hl. rewrite !lookup_insert_ne; [done|intros ->; done..].
Qed.

Lemma solve_loop_vecs_from c bsize (lx : nat) x (D : gset nat) ps :
  ∀ k (h : gmap nat (list R)) (acc_l : list nat) (acc_v : list (list R)),
    h !! lx = Some x → D ⊆ dom h →
    Forall2 (λ l v, (l ∉ D) ∧ h !! l = Some v) acc_l acc_v →
    match foldM (λ '(tmp_ys, k) im,
                   '(ly, k) ← patch_solve k c bsize x im;
                   Ok (tmp_ys ++ [ly], k)) ps (acc_v, k) with
    | Ok (tmp, k') =>
        ∃ locs h',
          foldM (λ '(tmp_ys, k, h) im,
                   '(ly, k, h) ← patch_solve_vecs k c bsize lx im h;
                   Ok (tmp_ys ++ [ly], k, h)) ps (acc_l, k, h) = Ok (locs, k', h')
          ∧ Forall2 (λ l v, (l ∉ D) ∧ h' !! l = Some v) locs tmp
          ∧ (∀ l, l ∈ dom h → h' !! l = h !! l)
    | Raise e =>
        foldM (λ '(tmp_ys, k, h) im,
                 '(ly, k, h) ← patch_solve_vecs k c bsize lx im h;
                 Ok (tmp_ys ++ [ly], k, h)) ps (acc_l, k, h) = Raise e
    end.
Proof.
  induction ps as [|im ps IH]; intros k h acc_l acc_v Hx HD Hvals; simpl.
  { by exists acc_l, h. }
  pose proof (patch_solve_vecs_pure k c bsize lx im h x Hx) as Hstep.
  destruct (patch_solve k c bsize x im) as [[lyv k1]|e]; simpl.
  2: { by rewrite Hstep. }
  destruct Hstep as (ly & b & h1 & -> & Hly & Hb & Hne & Hdom & Hlyv & Hsame). simpl.
  assert (h1 !! lx = Some x) as H1.
  { rewrite Hsame; [done|]. apply elem_of_dom; eauto. }
  assert (D ⊆ dom h1) as H2.
  { rewrite Hdom. intros l Hl. apply elem_of_union_r. by apply HD. }
  assert (Forall2 (λ l v, (l ∉ D) ∧ h1 !! l = Some v) (acc_l ++ [ly]) (acc_v ++ [lyv]))
    as H3.
  { apply Forall2_app.
    - eapply Forall2_impl; [exact Hvals|]. intros l v [Hl Hv]. split; [done|].
      rewrite Hsame; [done|]. apply elem_of_dom; eauto.
    - constructor; [|constructor]. split; [|done].
      intros HlyD. apply Hly. by apply HD. }
  specialize (IH k1 h1 _ _ H1 H2 H3). revert IH.
  destruct (foldM _ ps (acc_v ++ [lyv], k1)) as [[tmp k']|e]; [|done].
  intros (locs & h' & Hloop & Hv & Hs). exists locs, h'. split_and!; try done.
  intros l Hl. rewrite Hs; [by apply Hsame|]. rewrite Hdom. by apply elem_of_union_r.
Qed.

Lemma scatter_add_vecs_eq c bsize (ly : nat) (h : gmap nat (list R)) (i l : nat) y
    (v : list R) :
  h !! ly = Some y → h !! l = Some v →
  scatter_add_vecs c bsize ly h (i, l)
  = (ya ← scatter_add c bsize y (i, v); Ok (<[ly := ya]> h)).
Proof. intros Hy Hv. unfold scatter_add_vecs, Vec_array. by rewrite Hy, Hv. Qed.

Lemma scatter_loop_vecs_pure c bsize (ly : nat) (ils : list (nat * nat)) :
  ∀ (ivs : list (nat * list R)) (h : gmap nat (list R)) y,
    h !! ly = Some y →
    Forall2 (λ il iv, il.1 = iv.1 ∧ il.2 ≠ ly ∧ h !! il.2 = Some iv.2) ils ivs →
    match foldM (scatter_add c bsize) ivs y with
    | Ok y' => foldM (scatter_add_vecs c bsize ly) ils h = Ok (<[ly := y']> h)
    | Raise e => foldM (scatter_add_vecs c bsize ly) ils h = Raise e
    end.
Proof.
  induction ils as [|[i l] ils IH]; intros ivs h y Hy Hall.
  - apply Forall2_nil_inv_l in Hall as ->. simpl. by rewrite insert_id.
  - apply Forall2_cons_inv_l in Hall as ([i' v] & ivs' & (Hi & Hne & Hv) & Hall & ->).
    simpl in Hi, Hne, Hv. subst i'.
    cbn [foldM]. rewrite (scatter_add_vecs_eq c bsize ly h i l y v Hy Hv).
    destruct (scatter_add c bsize y (i, v)) as [y1|e]; simpl; [|done].
    specialize (IH ivs' (<[ly := y1]> h) y1 (lookup_insert_eq _ _ _)).
    assert (Forall2 (λ il iv, il.1 = iv.1 ∧ il.2 ≠ ly ∧ <[ly := y1]> h !! il.2 = Some iv.2)
                    ils ivs') as Hall'.
    { eapply Forall2_impl; [exact Hall|]. intros il iv (? & ? & ?).
      split_and!; try done. by rewrite lookup_insert_ne. }
    specialize (IH Hall'). revert IH.
    destruct (foldM (scatter_add c bsize) ivs' y1) as [y'|e]; [|done].
    intros ->. by rewrite insert_insert_eq.
Qed.

Lemma Forall2_enumerate {A B} (P : A → B → Prop) (l : list A) (k : list B) :
  Forall2 P l k →
  Forall2 (λ il iv, il.1 = iv.1 ∧ P il.2 iv.2) (enumerate l) (enumerate k).
Proof.
  unfold enumerate. intros Hall. generalize 0.
  induction Hall as [|a b l k Hab Hall IH]; intros n; simpl; [constructor|].
  constructor; [done|]. apply IH.
Qed.

(** [apply] on the vectors and [apply] on the arrays of [x] and [y]: the
    one returns when the other does, leaves in [y] the array the other
    returns, and leaves every other vector that was there as it was. *)
Lemma PatchPC_apply_vecs_pure gV self (lx ly : nat) (h : gmap nat (list R)) x y :
  h !! lx = Some x → h !! ly = Some y → lx ≠ ly →
  match PatchPC_apply gV self x y with
  | Ok (y', self') =>
      ∃ h', PatchPC_apply_vecs gV self lx ly h = Ok (h', self')
            ∧ h' !! ly = Some y'
            ∧ ∀ l, l ∈ dom h → l ≠ ly → h' !! l = h !! l
  | Raise e => PatchPC_apply_vecs gV self lx ly h = Raise e
  end.
Proof.
  intros Hx Hy Hne. unfold PatchPC_apply, PatchPC_apply_vecs, Vec_array.
  rewrite Hy. simpl.
  destruct (matrices gV (ctx self)) as [[ms c]|e]; simpl; [|done].
  unfold solve_loop, solve_loop_vecs.
  set (h0 := <[ly := vec_set0 y]> h).
  assert (h0 !! lx = Some x) as Hx0 by (unfold h0; by rewrite lookup_insert_ne).
  assert (dom h ⊆ dom h0) as HD by (unfold h0; rewrite dom_insert_L; set_solver).
  pose proof (solve_loop_vecs_from c (dim (V (ctx self))) lx x (dom h) (enumerate ms)
                (ksp self) h0 [] [] Hx0 HD ltac:(constructor)) as Hloop.
  revert Hloop. destruct (foldM _ (enumerate ms) ([], ksp self)) as [[tmp k']|e];
    simpl; [|by intros ->].
  intros (locs & h1 & -> & Hvals & Hsame). simpl.
  assert (ly ∈ dom h) as Hly by (apply elem_of_dom; eauto).
  assert (h1 !! ly = Some (vec_set0 y)) as Hy1.
  { rewrite Hsame by (by apply HD). unfold h0. by rewrite lookup_insert_eq. }
  pose proof (scatter_loop_vecs_pure c (dim (V (ctx self))) ly (enumerate locs)
                (enumerate tmp) h1 (vec_set0 y) Hy1) as Hloop2.
  assert (Forall2 (λ il iv, il.1 = iv.1 ∧ il.2 ≠ ly ∧ h1 !! il.2 = Some iv.2)
                  (enumerate locs) (enumerate tmp)) as Hall.
  { eapply Forall2_impl; [apply Forall2_enumerate; exact Hvals|].
    intros il iv (Hi & Hl & Hv). simpl in Hl, Hv. split_and!; try done.
    intros Heq. apply Hl. by rewrite Heq. }
  specialize (Hloop2 Hall). revert Hloop2.
  destruct (foldM (scatter_add c (dim (V (ctx self)))) (enumerate tmp) (vec_set0 y))
    as [y'|e]; simpl; [|by intros ->].
  intros ->. simpl. eexists. split; [done|]. split; [by rewrite lookup_insert_eq|].
  intros l Hl Hlne. rewrite lookup_insert_ne by done.
  rewrite Hsame by (by apply HD). unfold h0. by rewrite lookup_insert_ne.
Qed.

(** C8, as amended.  In one call of [PatchPC.apply], on two distinct vectors
    [x] and [y]:

    - the residual [x] is only read: its array is after the call what it
      was before, and so is that of every vector that was there, [y] apart;
      what the call leaves in [y] is what [PatchPC_apply] returns on the two
      arrays, and the call returns when that does;
    - a patch solve makes two vectors of its own, which were not there
      before, keeps its local solution in one of them, a vector of the size
      of its matrix, and writes no vector that was there; but it re-targets
      the one KSP that all the patch solves share, so the solves do write to
      a common object;
    - what an earlier patch left in that KSP does not show in a later
      solve, which depends on [x], on its own patch and on the prefix of the
      KSP alone; the first loop keeps one local solution per patch, and
      leaves the KSP set to the patch visited last, so that the instance left
      behind depends on the order;
    - when the scalar addition is associative and commutative, the
      correction returned is the same for every order in which the two loops
      visit the patches. *)
Theorem PatchPC_apply_order_independent :
  (∀ globals_V self (lx ly : nat) (h : gmap nat (list R)) x y,
     h !! lx = Some x → h !! ly = Some y → lx ≠ ly →
     (∀ h' self', PatchPC_apply_vecs globals_V self lx ly h = Ok (h', self') →
        h' !! lx = Some x
        ∧ (∀ l, l ∈ dom h → l ≠ ly → h' !! l = h !! l)
        ∧ ∃ y', h' !! ly = Some y'
                ∧ PatchPC_apply globals_V self x y = Ok (y', self'))
     ∧ (∀ y' self', PatchPC_apply globals_V self x y = Ok (y', self') →
          ∃ h', PatchPC_apply_vecs globals_V self lx ly h = Ok (h', self')))
  ∧ (∀ k c bsize (lx : nat) (h : gmap nat (list R)) x im (ly : nat) k' h',
       h !! lx = Some x →
       patch_solve_vecs k c bsize lx im h = Ok (ly, k', h') →
       (ly ∉ dom h)
       ∧ (∃ b, (b ∉ dom h) ∧ ly ≠ b ∧ dom h' = {[ly; b]} ∪ dom h)
       ∧ (∀ l, l ∈ dom h → h' !! l = h !! l)
       ∧ (∃ lyv, h' !! ly = Some lyv ∧ length lyv = nrows im.2
                 ∧ patch_solve k c bsize x im = Ok (lyv, k'))
       ∧ k' = KSP_setOperators (KSP_reset k) im.2)
  ∧ (∀ k c bsize x im ly k',
       patch_solve k c bsize x im = Ok (ly, k') →
       length ly = nrows im.2
       ∧ k' = KSP_setOperators (KSP_reset k) im.2
       ∧ ksp_operators k' = Some im.2 ∧ ksp_prefix k' = ksp_prefix k
       ∧ ∀ k0, ksp_prefix k0 = ksp_prefix k →
           patch_solve k0 c bsize x im = Ok (ly, k'))
  ∧ (∀ order globals_V self x y y' self',
       PatchPC_apply_in order globals_V self x y = Ok (y', self') →
       ∃ ms tmp_ys,
         matrices globals_V (ctx self) = Ok (ms, ctx self')
         ∧ Forall2 (λ im ly,
                      local_solve self (ctx self') (dim (V (ctx self))) x im = Ok ly
                      ∧ length ly = nrows im.2)
                   (order (enumerate ms)) tmp_ys
         ∧ foldM (scatter_add (ctx self') (dim (V (ctx self))))
                 (zip (order (enumerate ms)).*1 tmp_ys) (vec_set0 y) = Ok y'
         ∧ ksp self' = KSP_after (ksp self) (order (enumerate ms)))
  ∧ ((∀ a b c : R, sadd a (sadd b c) = sadd (sadd a b) c) →
     (∀ a b : R, sadd a b = sadd b a) →
     order_independent R).
Proof.
  assert (∀ k c bsize x im ly k',
       patch_solve k c bsize x im = Ok (ly, k') →
       length ly = nrows im.2
       ∧ k' = KSP_setOperators (KSP_reset k) im.2
       ∧ ksp_operators k' = Some im.2 ∧ ksp_prefix k' = ksp_prefix k
       ∧ ∀ k0, ksp_prefix k0 = ksp_prefix k →
           patch_solve k0 c bsize x im = Ok (ly, k')) as Hsolve.
  { intros k c bsize x im ly k'. rewrite patch_solve_eq. intros Hs.
    apply bind_Ok in Hs as (b & Hb & Hs). apply bind_Ok in Hs as (sol & Hsol & Hs).
    injection Hs as <- <-. split_and!; try done.
    + by rewrite length_resize.
    + intros k0 Hk0. rewrite patch_solve_eq, Hb, Hk0. simpl. rewrite Hsol. simpl.
      unfold KSP_setOperators, KSP_reset. simpl. by rewrite Hk0. }
  split_and!.
  - intros globals_V self lx ly h x y Hx Hy Hne.
    pose proof (PatchPC_apply_vecs_pure globals_V self lx ly h x y Hx Hy Hne) as Hrun.
    split.
    + intros h' self' Hvecs.
      destruct (PatchPC_apply globals_V self x y) as [[y' s]|e].
      2: { rewrite Hrun in Hvecs. discriminate Hvecs. }
      destruct Hrun as (h1 & Hrun & Hy' & Hsame). rewrite Hrun in Hvecs.
      injection Hvecs as <- <-. split_and!; try done.
      * rewrite Hsame; [done| |done]. apply elem_of_dom; eauto.
      * by exists y'.
    + intros y' self' Hpure. rewrite Hpure in Hrun.
      destruct Hrun as (h1 & Hrun & _). by exists h1.
  - intros k c bsize lx h x im ly k' h' Hx Hvecs.
    pose proof (patch_solve_vecs_pure k c bsize lx im h x Hx) as Hstep.
    destruct (patch_solve k c bsize x im) as [[lyv k1]|e] eqn:Hpure.
    2: { rewrite Hstep in Hvecs. discriminate Hvecs. }
    destruct Hstep as (ly1 & b & h1 & Hrun & Hly & Hb & Hne & Hdom & Hlyv & Hsame).
    rewrite Hrun in Hvecs. injection Hvecs as <- <- <-.
    destruct (Hsolve _ _ _ _ _ _ _ Hpure) as (Hlen & Hk & _).
    split_and!; try done.
    + by exists b.
    + by exists lyv.
  - exact Hsolve.
  - intros order globals_V self x y y' self'. rewrite PatchPC_apply_in_eq.
    intros Happly. apply bind_Ok in Happly as ([ms c] & Hm & Happly).
    apply bind_Ok in Happly as (tmp_ys & Hsolve' & Happly).
    apply bind_Ok in Happly as (y1 & Hadd & Happly). injection Happly as <- <-.
    simpl. exists ms, tmp_ys. split_and!; try done.
    apply mapM_Ok in Hsolve'. eapply Forall2_impl; [exact Hsolve'|].
    intros im ly Hly. simpl in Hly. split; [done|]. by eapply local_solve_length.
  - intros Hassoc Hcomm. by apply order_independent_exact.
Qed.

End patch_writes.

(** ** pulley.py: a patch with no free dof *)

Section degenerate.
Import pulley.
Context {R : Type} `{Scalar R} `{Backend R}.
Implicit Types (self : PatchPC R) (c : SubspaceCorrectionPrec R) (x y ly : list R)
  (yr : list (list R)) (zs : list (nat * list R)).
#[local] Arguments scatter_plan : simpl never.

(** The delegated solver returns zero for the identity system with a zero
    right-hand side. *)
Hypothesis ksp_solve_identity_zero : ∀ pfx (m : Mat R),
  (∀ i j, i < nrows m → j < nrows m → entry m i j = if decide (i = j) then s1 else s0) →
  ksp_solve pfx m (replicate (nrows m) s0) = Ok (replicate (nrows m) s0).

Lemma row_add_zero (row : list R) :
  Forall (λ a, sadd a s0 = a) row →
  row_add row (replicate (length row) s0) = row.
Proof.
  unfold row_add. induction 1 as [|a row Ha _ IH]; simpl; [done|].
  by rewrite IH, Ha.
Qed.

Lemma bump_zero bsize zs yr :
  Forall (Forall (λ a, sadd a s0 = a)) yr →
  Forall (λ r, length r = bsize) yr →
  Forall (λ r, r = replicate bsize s0) zs.*2 →
  bump zs yr = yr.
Proof.
  intros Hzero Hyr Hzs. apply list_eq. intros g. rewrite lookup_bump.
  destruct (yr !! g) as [row|] eqn:Hg; simpl; [|done]. f_equal.
  destruct (assigned zs g) as [l|] eqn:Hl; [|done].
  apply assigned_Some_elem in Hl.
  assert (l = replicate bsize s0) as ->.
  { apply (proj1 (Forall_forall _ zs.*2) Hzs).
    apply list_elem_of_fmap. by exists (g, l). }
  rewrite <-(Forall_lookup_1 _ _ _ _ Hyr Hg). apply row_add_zero.
  by apply (Forall_lookup_1 _ _ _ _ Hzero Hg).
Qed.

Lemma np_reshape_Forall (P : R → Prop) bsize (v : list R) rows :
  np_reshape bsize v = Ok rows → Forall P v → Forall (Forall P) rows.
Proof.
  unfold np_reshape. case_decide; [done|]. case_decide; [|done].
  intros [= <-]. apply Forall_reshape.
Qed.

Lemma join_replicate_zero n bsize :
  mjoin (replicate n (replicate bsize (s0 : R))) = replicate (n * bsize) s0.
Proof. induction n as [|n IH]; simpl; [done|]. by rewrite IH, replicate_add. Qed.

Lemma length_np_slice {A} (l : list A) lo hi :
  lo ≤ hi → hi ≤ length l → length (np_slice l lo hi) = hi - lo.
Proof. intros Hlo Hhi. unfold np_slice. rewrite length_take, length_drop. lia. Qed.

(** C6.  Take a patch [i] all of whose local dofs are boundary-fixed, with
    the matrix [m] that [matrices] builds for it at the block size [apply]
    uses, and vectors [x], [y] of one size holding whole rows that cover the
    dofs of the patch, adding zero to an entry of [y] giving that entry
    back.  Then [m] is the identity, the right-hand side of the patch is the
    zero vector, the local solve returns the zero vector, and adding it into
    [y] returns [y] unchanged: neither step raises, and the patch contributes
    nothing to the correction. *)
Theorem degenerate_patch_contributes_zero self c bsize i m lo hi bcd x y :
  patch_matrix c bsize i = Ok m →
  offset (glob_patches c) !! i = Some lo →
  offset (glob_patches c) !! (i + 1) = Some hi →
  hi ≤ length (value (glob_patches c)) →
  patch_slice (bc_patches c) i = Ok bcd →
  (∀ k, k < hi - lo → k ∈ bcd) →
  length x `mod` bsize = 0 → length y = length x →
  Forall (λ g, g < length x / bsize) (np_slice (value (glob_patches c)) lo hi) →
  Forall (λ a, sadd a s0 = a) y →
  (∀ k j, k < nrows m → j < nrows m →
     entry m k j = if decide (k = j) then s1 else s0)
  ∧ local_rhs c bsize x (i, m) = Ok (replicate (nrows m) s0)
  ∧ local_solve self c bsize x (i, m) = Ok (replicate (nrows m) s0)
  ∧ scatter_add c bsize y (i, replicate (nrows m) s0) = Ok y
  ∧ patch_correction self c bsize x y (i, m) = Ok y.
Proof using ksp_solve_identity_zero.
  intros Hm Hlo Hhi Hval Hbcd Hall Hx Hy Hdofs Hzero.
  apply patch_matrix_Ok in Hm
    as (g0 & g1 & rows & Hg0 & Hg1 & Hle & Hbs & Hrows & Hrange & Hn & _
        & mc & c2 & _ & He).
  rewrite Hlo in Hg0. rewrite Hhi in Hg1. injection Hg0 as <-. injection Hg1 as <-.
  rewrite Hbcd in Hrows. injection Hrows as <-.
  set (dofs := np_slice (value (glob_patches c)) lo hi) in *.
  assert (length dofs = hi - lo) as Hlen by by apply length_np_slice.
  assert (patch_slice (glob_patches c) i = Ok dofs) as Hslice.
  { apply patch_slice_Ok. by exists lo, hi. }
  (* the matrix is the identity *)
  assert (∀ k j, k < nrows m → j < nrows m →
            entry m k j = if decide (k = j) then s1 else s0) as Hid.
  { intros k j Hk _. rewrite He.
    assert (k ∈ expand_rows bsize bcd) as Hin.
    { apply elem_of_expand_rows. exists (k / bsize), (k `mod` bsize).
      split_and!.
      - apply Hall. rewrite Hn in Hk. apply Nat.Div0.div_lt_upper_bound. lia.
      - by apply Nat.mod_upper_bound.
      - apply Nat.div_mod_eq. }
    by rewrite (bool_decide_eq_true_2 _ Hin). }
  (* every boundary-fixed local dof is a row of the right-hand side *)
  assert (Forall (λ g, g < hi - lo) bcd) as Hbcd_range.
  { apply Forall_forall. intros r Hr.
    assert (bsize * r + 0 ∈ expand_rows bsize bcd) as Hin.
    { apply elem_of_expand_rows. exists r, 0. split_and!; [done|lia|done]. }
    apply (proj1 (Forall_forall _ _) Hrange) in Hin. nia. }
  (* the rows of x and of y *)
  assert (length x = length x / bsize * bsize) as Hxlen.
  { pose proof (Nat.div_mod_eq (length x) bsize). lia. }
  destruct (np_reshape bsize x) as [xr|e] eqn:Hxr; last first.
  { unfold np_reshape in Hxr. by rewrite decide_False, decide_True in Hxr. }
  pose proof (np_reshape_Ok _ _ _ Hxr) as (_ & _ & _ & Hxr_len).
  assert (length xr = length x / bsize) as Hxr_rows by nia.
  destruct (np_reshape bsize y) as [yr|e] eqn:Hyr; last first.
  { unfold np_reshape in Hyr. by rewrite Hy, decide_False, decide_True in Hyr. }
  pose proof (np_reshape_Ok _ _ _ Hyr) as (_ & Hjoin & Hyr_w & Hyr_len).
  assert (length yr = length x / bsize) as Hyr_rows by nia.
  (* the right-hand side *)
  assert (local_rhs c bsize x (i, m) = Ok (replicate (nrows m) s0)) as Hrhs.
  { unfold local_rhs. rewrite Hslice, Hbcd, Hxr. simpl.
    destruct (np_take_in_range xr dofs) as (rhs & -> & Hrhs_len).
    { by rewrite Hxr_rows. }
    simpl. unfold createVec. rewrite Hn, np_reshape_replicate by done. simpl.
    rewrite length_replicate, np_broadcast_same by lia. simpl.
    unfold np_put_const. rewrite decide_True by (by rewrite Hrhs_len, Hlen).
    simpl. f_equal. rewrite <-join_replicate_zero. f_equal.
    apply list_eq. intros g.
    rewrite lookup_np_put, assigned_replicate by (by rewrite Hrhs_len, Hlen).
    destruct (decide (g < hi - lo)) as [Hg|Hg].
    - rewrite decide_True by (by apply Hall). by rewrite lookup_replicate_2.
    - rewrite decide_False.
      + rewrite (proj1 (lookup_replicate_None _ _ _)) by lia.
        apply lookup_ge_None. lia.
      + intros Hin. apply (proj1 (Forall_forall _ _) Hbcd_range) in Hin. lia. }
  assert (local_solve self c bsize x (i, m) = Ok (replicate (nrows m) s0)) as Hsol.
  { rewrite local_solve_eq, Hrhs. simpl.
    rewrite ksp_solve_identity_zero by done. simpl. f_equal.
    apply resize_all_alt. by rewrite length_replicate. }
  assert (scatter_add c bsize y (i, replicate (nrows m) s0) = Ok y) as Hscat.
  { apply returned_Some. rewrite scatter_add_returned, Hyr. simpl.
    unfold scatter_plan. simpl. rewrite Hslice. simpl.
    rewrite option_guard_True by (by rewrite Hyr_rows).
    simpl. rewrite Hn, np_reshape_replicate by done. simpl.
    rewrite np_broadcast_same by (rewrite length_replicate; lia). simpl.
    f_equal. rewrite (bump_zero bsize); [done| |done|].
    { by eapply np_reshape_Forall. }
    apply Forall_forall. intros r Hr.
    apply list_elem_of_fmap in Hr as ([g r'] & -> & Hin).
    apply elem_of_zip_r, elem_of_replicate in Hin as [-> _]. done. }
  split_and!; try done.
  unfold patch_correction. rewrite Hrhs. simpl.
  rewrite ksp_solve_identity_zero by done. simpl.
  rewrite resize_all_alt by (by rewrite length_replicate). done.
Qed.

End degenerate.

(** ** The composite operator *)

Section composite.
Import pulley.
Context {R : Type} `{Scalar R} `{Backend R}.
Implicit Types (smoother : PatchPC R) (coarse : P1PC R) (x y : list R).

(** Each component zeroes the vector it writes to before anything else: what
    that vector held before the call does not show in the result. *)
Lemma PatchPC_apply_output_only_sized globals_V smoother x y y' :
  length y' = length y →
  PatchPC_apply globals_V smoother x y' = PatchPC_apply globals_V smoother x y.
Proof. intros Hlen. unfold PatchPC_apply, vec_set0. by rewrite Hlen. Qed.

Lemma P1PC_apply_output_only_sized coarse x y y' :
  length y' = length y → P1PC_apply coarse x y' = P1PC_apply coarse x y.
Proof.
  intros Hlen. unfold P1PC_apply, P1PC_prolong, vec_set0. by rewrite Hlen.
Qed.

(** C5.  The composite apply returns, entry for entry, the one sum of what
    the patch smoother returns and what the coarse correction returns for the
    same [x]; no other arithmetic touches the two vectors.  The two are
    computed independently: each result is the one its component gives on its
    own, whatever the output vector handed to it held before. *)
Theorem Composite_apply_is_sum globals_V smoother coarse x y :
  Composite_apply globals_V smoother coarse x y
    = (y1 ← value_of (PatchPC_apply globals_V smoother x y);
       y2 ← value_of (P1PC_apply coarse x y);
       Ok (zip_with sadd y1 y2))
  ∧ (∀ y', length y' = length y →
       value_of (PatchPC_apply globals_V smoother x y')
         = value_of (PatchPC_apply globals_V smoother x y)
       ∧ value_of (P1PC_apply coarse x y') = value_of (P1PC_apply coarse x y))
  ∧ (∀ r, Composite_apply globals_V smoother coarse x y = Ok r →
       ∃ y1 y2,
         value_of (PatchPC_apply globals_V smoother x y) = Ok y1
         ∧ value_of (P1PC_apply coarse x y) = Ok y2
         ∧ ∀ k, r !! k = (a ← y1 !! k; b ← y2 !! k; Some (sadd a b))).
Proof.
  assert (Composite_apply globals_V smoother coarse x y
          = (y1 ← value_of (PatchPC_apply globals_V smoother x y);
             y2 ← value_of (P1PC_apply coarse x y);
             Ok (zip_with sadd y1 y2))) as Heq.
  { unfold Composite_apply.
    rewrite (P1PC_apply_output_only_sized coarse x y)
      by (unfold createVec; by rewrite length_replicate).
    destruct (PatchPC_apply globals_V smoother x y) as [[y1 s1]|e]; simpl; [|done].
    by destruct (P1PC_apply coarse x y) as [[y2 s2]|e]. }
  split_and!; [done| |].
  - intros y' Hlen.
    by rewrite (PatchPC_apply_output_only_sized _ _ _ y y'),
      (P1PC_apply_output_only_sized _ _ y y').
  - rewrite Heq. intros r Hr.
    destruct (value_of (PatchPC_apply globals_V smoother x y)) as [y1|e];
      simpl in Hr; [|done].
    destruct (value_of (P1PC_apply coarse x y)) as [y2|e]; simpl in Hr; [|done].
    injection Hr as <-. exists y1, y2. split_and!; [done|done|].
    intros k. apply lookup_zip_with.
Qed.

End composite.

(** * Concrete runs *)

Section runs.
Import pulley examples.
#[local] Existing Instance Z_Scalar.
#[local] Existing Instance Z_backend.

Lemma Z_jacobi_zero (pfx : string) (m : Mat Z) :
  ksp_solve pfx m (replicate (nrows m) 0%Z) = Ok (replicate (nrows m) 0%Z).
Proof.
  simpl. unfold jacobi. f_equal. apply list_eq. intros i.
  rewrite list_lookup_imap. destruct (decide (i < nrows m)) as [Hi|Hi].
  - by rewrite lookup_replicate_2.
  - by rewrite (proj1 (lookup_replicate_None _ _ _)) by lia.
Qed.

Lemma first_last_permutation {A} (l : list A) : first_last l ≡ₚ l.
Proof. destruct l as [|p l]; simpl; [done|]. symmetry. apply Permutation_cons_append. Qed.

Example PatchPC_apply_scalar_run :
  value_of (PatchPC_apply (Some Vscalar) smoother_scalar x4 [5; 5; 5; 5]%Z)
  = Ok [0; 40; 30; 40]%Z.
Proof. reflexivity. Qed.

Example PatchPC_apply_vector_run :
  value_of (PatchPC_apply (Some Vvector) smoother_vector x8 (replicate 8 5%Z))
  = Ok [0; 0; 40; 42; 30; 31; 40; 41]%Z.
Proof. reflexivity. Qed.

Lemma PatchPC_apply_refines_spec_witness :
  returned (value_of (PatchPC_apply (Some Vscalar) smoother_scalar x4 [5; 5; 5; 5]%Z))
  = Some [0; 40; 30; 40]%Z
  ∧ returned (PatchSmoother_Apply (Some Vscalar) smoother_scalar x4 [5; 5; 5; 5]%Z)
    = Some [0; 40; 30; 40]%Z
  ∧ local_rhs scp_scalar 1 x4 (0, patch0_matrix) = Ok [0; 20]%Z
  ∧ (∀ k g comp, [0; 1] !! k = Some g → comp < 1 →
       [0; 20]%Z !! (1 * k + comp)
         = if decide (k ∈ [0]) then Some 0%Z else x4 !! (1 * g + comp))
  ∧ scatter_add scp_scalar 1 [0; 0; 0; 0]%Z (0, [0; 20]%Z) = Ok [0; 20; 0; 0]%Z
  ∧ (∀ k g comp, [0; 1] !! k = Some g → comp < 1 →
       [0; 20; 0; 0]%Z !! (1 * g + comp)
         = (a ← [0; 0; 0; 0]%Z !! (1 * g + comp); l ← [0; 20]%Z !! (1 * k + comp);
            Some (a + l)%Z)).
Proof.
  destruct (PatchPC_apply_refines_spec (Some Vscalar) smoother_scalar x4 [5; 5; 5; 5]%Z)
    as (Hfused & Hrhs & Hadd).
  split; [reflexivity|]. split; [by rewrite <-Hfused|].
  split; [reflexivity|]. split.
  { exact (proj2 (Hrhs scp_scalar 1 0 patch0_matrix [0; 20]%Z [0; 1] [0]
                    eq_refl eq_refl eq_refl eq_refl)). }
  split; [reflexivity|].
  refine (proj1 (proj2 (Hadd scp_scalar 1 0 [0; 20]%Z [0; 0; 0; 0]%Z [0; 20; 0; 0]%Z
                          [0; 1] eq_refl eq_refl _ eq_refl))).
  apply (bool_decide_unpack (NoDup [0; 1])). reflexivity.
Defined.

Lemma coarse_setUp_run :
  P1PC_setUp (outer_pc scp_scalar) = Ok (coarse_scalar, coarse_setUp.2).
Proof. reflexivity. Qed.

Lemma coarse_correction_apply_witness :
  let self := coarse_scalar in
  P1PC_setUp (outer_pc scp_scalar) = Ok (self, coarse_setUp.2)
  ∧ value_of (P1PC_apply self x4 [5; 5; 5; 5]%Z) = Ok [90; 90; 210; 210]%Z
  ∧ value_of (P1PC_apply self x4 [5; 5; 5; 5]%Z)
    = (let T := Mat_transpose (transfer self) in
       r ← Mat_mult (Mat_transpose T) x4 (createVec (ncols T));
       sol ← pc_apply "lo_" (pc_operator self) r;
       Mat_mult T (resize (ncols T) 0%Z sol) (createVec 4))
  ∧ ∃ form p1_bcs,
      pc_operator self = assemble form p1_bcs
      ∧ function_space (arguments form).1 = mkFunctionSpace mesh0 "CG" 1
      ∧ function_space (arguments form).2 = mkFunctionSpace mesh0 "CG" 1
      ∧ Forall2 (λ bc bc1,
                   bc_space bc1 = mkFunctionSpace mesh0 "CG" 1
                   ∧ function_arg bc1
                     = Interpolate (mkFunctionSpace mesh0 "CG" 1) (function_arg bc)
                   ∧ sub_domain bc1 = sub_domain bc ∧ method bc1 = method bc
                   ∧ nodes bc1 = boundary_nodes (mkFunctionSpace mesh0 "CG" 1)
                                                (sub_domain bc) (method bc))
                [bc_on Vscalar] p1_bcs.
Proof.
  intros self.
  destruct (coarse_correction_apply (outer_pc scp_scalar) self coarse_setUp.2
              x4 [5; 5; 5; 5]%Z coarse_setUp_run) as (Heq & _ & Hfresh).
  split; [reflexivity|]. split; [reflexivity|]. split; [exact Heq|].
  destruct (Hfresh eq_refl eq_refl eq_refl)
    as (form & p1_bcs & Hop & _ & _ & _ & _ & Hs1 & Hs2 & _ & _ & Hbcs).
  exists form, p1_bcs. split; [exact Hop|]. split; [exact Hs1|].
  split; [exact Hs2|]. exact Hbcs.
Defined.


Lemma boundary_dofs_eliminated_witness :
  ∃ ms c m,
    matrices (Some Vvector) scp_vector = Ok (ms, c) ∧ ms !! 0 = Some m
    ∧ local_rhs c 2 x8 (0, m) = Ok [0; 0; 20; 21]%Z
    ∧ (∀ comp, comp < 2 →
         2 * 0 + comp < nrows m
         ∧ ∀ j, entry m (2 * 0 + comp) j = (if decide (2 * 0 + comp = j) then 1%Z else 0%Z)
                ∧ entry m j (2 * 0 + comp) = (if decide (j = 2 * 0 + comp) then 1%Z else 0%Z))
    ∧ (∀ bsize x b, local_rhs c bsize x (0, m) = Ok b →
         ∀ comp, comp < bsize → b !! (bsize * 0 + comp) = Some 0%Z).
Proof.
  eexists _, _, _. split; [reflexivity|]. split; [reflexivity|].
  split; [reflexivity|].
  refine (boundary_dofs_eliminated scp_vector Vvector _ _ 0 _ [0] 0
            eq_refl eq_refl eq_refl eq_refl _).
  by apply list_elem_of_here.
Defined.

Lemma Composite_apply_is_sum_witness :
  let coarse := coarse_scalar in
  Composite_apply (Some Vscalar) smoother_scalar coarse x4 [5; 5; 5; 5]%Z
    = Ok [90; 130; 240; 250]%Z
  ∧ Composite_apply (Some Vscalar) smoother_scalar coarse x4 [5; 5; 5; 5]%Z
    = (y1 ← value_of (PatchPC_apply (Some Vscalar) smoother_scalar x4 [5; 5; 5; 5]%Z);
       y2 ← value_of (P1PC_apply coarse x4 [5; 5; 5; 5]%Z);
       Ok (zip_with Z.add y1 y2)).
Proof.
  split; [reflexivity|].
  exact (proj1 (Composite_apply_is_sum (Some Vscalar) smoother_scalar _ x4 [5; 5; 5; 5]%Z)).
Defined.

Lemma degenerate_patch_contributes_zero_witness :
  ∃ m, patch_matrix scp_scalar 1 2 = Ok m
       ∧ nrows m = 1
       ∧ local_rhs scp_scalar 1 x4 (2, m) = Ok (replicate (nrows m) 0%Z)
       ∧ local_solve smoother_scalar scp_scalar 1 x4 (2, m) = Ok (replicate (nrows m) 0%Z)
       ∧ scatter_add scp_scalar 1 [0; 40; 30; 40]%Z (2, replicate (nrows m) 0%Z)
         = Ok [0; 40; 30; 40]%Z
       ∧ patch_correction smoother_scalar scp_scalar 1 x4 [0; 40; 30; 40]%Z (2, m)
         = Ok [0; 40; 30; 40]%Z.
Proof.
  eexists. split; [reflexivity|]. split; [reflexivity|].
  refine (proj2 (degenerate_patch_contributes_zero _
                   smoother_scalar scp_scalar 1 2 _ 5 6 [0] x4 [0; 40; 30; 40]%Z
                   eq_refl eq_refl eq_refl _ eq_refl _ eq_refl eq_refl _ _)).
  - intros pfx m _. apply Z_jacobi_zero.
  - simpl. lia.
  - intros k Hk. replace k with 0 by lia. by apply list_elem_of_here.
  - repeat constructor.
  - repeat constructor.
Defined.

Lemma matrices_reads_global_V_witness :
  dim (V scp_scalar) = 1 ∧ dof_dset_cdim Vvector = 2
  ∧ matrices None scp_scalar = Raise NameError
  ∧ (∃ ms c m, matrices (Some Vvector) scp_scalar = Ok (ms, c)
               ∧ ms !! 0 = Some m ∧ nrows m = (2 - 0) * 2)
  ∧ ∀ W ms c, matrices (Some W) scp_scalar = Ok (ms, c) →
      length ms = 3
      ∧ ∀ i m, ms !! i = Some m → patch_matrix scp_scalar (dof_dset_cdim W) i = Ok m.
Proof.
  destruct (matrices_reads_global_V scp_scalar eq_refl) as [Hname Hsome].
  split; [reflexivity|]. split; [reflexivity|]. split; [exact Hname|]. split.
  - eexists _, _, _. split; [reflexivity|]. split; reflexivity.
  - intros W ms c Hms. destruct (Hsome W ms c Hms) as [Hlen Hall].
    split; [exact Hlen|]. intros i m Hm. exact (proj1 (Hall i m Hm)).
Defined.

Lemma PatchPC_apply_order_independent_witness :
  returned (value_of (PatchPC_apply_in first_last (Some Vscalar) smoother_scalar
                                        x4 [5; 5; 5; 5]%Z))
  = Some [0; 40; 30; 40]%Z
  ∧ (∀ a b c : Z, sadd a (sadd b c) = sadd (sadd a b) c)
  ∧ (∀ a b : Z, sadd a b = sadd b a)
  ∧ (∃ h' self',
       PatchPC_apply_vecs (Some Vscalar) smoother_scalar 0 1
                          {[ 0 := x4; 1 := [5; 5; 5; 5]%Z ]} = Ok (h', self')
       ∧ h' !! 0 = Some x4 ∧ h' !! 1 = Some [0; 40; 30; 40]%Z)
  ∧ (∃ y1 s1 y2 s2,
       PatchPC_apply (Some Vscalar) smoother_scalar x4 [5; 5; 5; 5]%Z = Ok (y1, s1)
       ∧ PatchPC_apply_in first_last (Some Vscalar) smoother_scalar x4 [5; 5; 5; 5]%Z
         = Ok (y2, s2)
       ∧ y1 = y2
       ∧ (nrows <$> ksp_operators (ksp s1)) = Some 1
       ∧ (nrows <$> ksp_operators (ksp s2)) = Some 2
       ∧ ksp s2 = KSP_after (ksp smoother_scalar)
                            (first_last (enumerate (default [] (cached_matrices (ctx s2))))))
  ∧ order_independent Z.
Proof.
  assert (∀ a b c : Z, sadd a (sadd b c) = sadd (sadd a b) c) as Hassoc.
  { intros a b c. simpl. lia. }
  assert (∀ a b : Z, sadd a b = sadd b a) as Hcomm.
  { intros a b. simpl. lia. }
  destruct (PatchPC_apply_order_independent (R := Z))
    as (Hread & _ & _ & Hloops & Hexact).
  split; [reflexivity|]. split; [exact Hassoc|]. split; [exact Hcomm|].
  split.
  { destruct (Hread (Some Vscalar) smoother_scalar 0 1
                {[ 0 := x4; 1 := [5; 5; 5; 5]%Z ]} x4 [5; 5; 5; 5]%Z)
      as [Hvecs Hreturns]; [reflexivity|reflexivity|discriminate|].
    destruct (PatchPC_apply (Some Vscalar) smoother_scalar x4 [5; 5; 5; 5]%Z)
      as [[y' s']|e] eqn:Hpure; [|vm_compute in Hpure; discriminate Hpure].
    destruct (Hreturns y' s' eq_refl) as [h' Hrun].
    destruct (Hvecs h' s' Hrun) as (Hx & _ & y1 & Hy1 & Hy').
    exists h', s'. split; [exact Hrun|]. split; [exact Hx|].
    rewrite Hy1. f_equal. injection Hy' as Hyy. rewrite <-Hyy.
    apply (f_equal value_of) in Hpure. vm_compute in Hpure. by injection Hpure as <-. }
  split; [|exact (Hexact Hassoc Hcomm)].
  eexists _, _, _, _. split; [reflexivity|]. split; [reflexivity|].
  split; [reflexivity|]. split; [reflexivity|]. split; [reflexivity|].
  destruct (Hloops first_last (Some Vscalar) smoother_scalar x4 [5; 5; 5; 5]%Z _ _
              eq_refl) as (ms & tmp_ys & Hms & _ & _ & Hksp).
  rewrite Hksp. f_equal. f_equal. f_equal.
  injection Hms as Hms. symmetry. exact Hms.
Defined.

End runs.

(** C8, as stated, fails on binary64 scalars.  Three patches share node 0;
    with Jacobi local solves their contributions there are [2^53], [1] and
    [1].  In the order of the code the two ones are each absorbed by
    rounding, [(2^53 + 1) + 1 = 2^53]; with the first patch visited last they
    add up first, [(1 + 1) + 2^53 = 2^53 + 2]. *)
Lemma PatchPC_apply_order_dependent_binary64 :
  let x := [1; 1; 1; 1]%float in
  let self := pulley.PatchPC_setUp (examples.outer_pc examples.scp_star) in
  (∀ l : list (nat * Mat float), examples.first_last l ≡ₚ l)
  ∧ returned (value_of (pulley.PatchPC_apply_in (H := float_Scalar)
                          (H0 := examples.float_backend) examples.first_last
                          (Some examples.Vscalar) self x x))
    ≠ returned (value_of (pulley.PatchPC_apply (H := float_Scalar)
                            (H0 := examples.float_backend)
                            (Some examples.Vscalar) self x x))
  ∧ ¬ pulley.order_independent (H := float_Scalar) (H0 := examples.float_backend) float.
Proof.
  intros x self.
  assert (returned (value_of (pulley.PatchPC_apply_in (H := float_Scalar)
                          (H0 := examples.float_backend) examples.first_last
                          (Some examples.Vscalar) self x x))
    ≠ returned (value_of (pulley.PatchPC_apply (H := float_Scalar)
                            (H0 := examples.float_backend)
                            (Some examples.Vscalar) self x x))) as Hne.
  { intros Heq.
    apply (f_equal (λ o, match o with
                         | Some (v :: _) => PrimFloat.eqb v 0x1p53%float
                         | _ => false
                         end)) in Heq.
    vm_compute in Heq. discriminate Heq. }
  split; [apply first_last_permutation|]. split; [exact Hne|].
  intros Hoi. apply Hne. apply Hoi. apply first_last_permutation.
Qed.

(** * Further properties of the two files *)

(** ** halo.py: the memo of MPI datatypes *)

Section mtype.
Import halo.
Implicit Types (MPI : MPImodule) (st : MPIState) (dat : Dat) (t : Datatype).

Lemma get_mtype_hit MPI st dat t :
  _MPI_types st !! mtype_key dat = Some t →
  _get_mtype MPI st dat = (st, Ok t).
Proof. unfold _get_mtype. by intros ->. Qed.

Lemma get_mtype_Ok_cached MPI st dat st1 t :
  _get_mtype MPI st dat = (st1, Ok t) →
  _MPI_types st1 !! mtype_key dat = Some t.
Proof.
  unfold _get_mtype. intros Hcall.
  destruct (_MPI_types st !! mtype_key dat) as [t0|] eqn:Hhit.
  - by injection Hcall as <- <-.
  - destruct (match __TypeDict__ MPI with Some d => Some d | None => _typedict MPI end)
      as [tdict|]; [|done].
    destruct (tdict !! dtype_char (dat_dtype dat)) as [btype|]; [|done].
    case_decide; injection Hcall as <- <-; simpl; by rewrite lookup_insert_eq.
Qed.

(** X1.  [_get_mtype] memoises: once a call has returned a datatype for a
    dat, every later call for a dat of an equal dtype (the same canonical
    description, whatever its character code) and the same [cdim] returns
    that datatype from the dict, leaves the dict and the committed datatypes
    as they are, and does not look at the tables of [MPI] (it returns the
    same with any module, even one that has neither table). *)
Theorem get_mtype_memoised MPI MPI' st st1 dat dat' t :
  _get_mtype MPI st dat = (st1, Ok t) →
  dtype_str (dat_dtype dat') = dtype_str (dat_dtype dat) → cdim dat' = cdim dat →
  _get_mtype MPI' st1 dat' = (st1, Ok t).
Proof.
  intros Hcall Hd Hc. apply get_mtype_hit. unfold mtype_key. rewrite Hd, Hc.
  by eapply get_mtype_Ok_cached.
Qed.

(** X2.  A call of [_get_mtype] that raises leaves the dict and the committed
    datatypes untouched.  It raises only on a miss: RuntimeError when the
    table of [MPI] has no entry for the character code of the dtype,
    AttributeError when [MPI] has neither table. *)
Theorem get_mtype_raise MPI st dat st' e :
  _get_mtype MPI st dat = (st', Raise e) →
  st' = st
  ∧ _MPI_types st !! mtype_key dat = None
  ∧ (e = AttributeError ∧ __TypeDict__ MPI = None ∧ _typedict MPI = None
     ∨ e = RuntimeError
       ∧ ∃ tdict, (__TypeDict__ MPI = Some tdict
                   ∨ __TypeDict__ MPI = None ∧ _typedict MPI = Some tdict)
                  ∧ tdict !! dtype_char (dat_dtype dat) = None).
Proof.
  unfold _get_mtype. intros Hcall.
  destruct (_MPI_types st !! mtype_key dat) as [t0|]; [done|].
  destruct (__TypeDict__ MPI) as [d|] eqn:Hnew.
  - destruct (d !! dtype_char (dat_dtype dat)) as [btype|] eqn:Hd.
    + by case_decide.
    + injection Hcall as <- <-. split_and!; [done..|]. right. split; [done|].
      exists d. split; [by left | done].
  - destruct (_typedict MPI) as [d|] eqn:Hold.
    + destruct (d !! dtype_char (dat_dtype dat)) as [btype|] eqn:Hd.
      * by case_decide.
      * injection Hcall as <- <-. split_and!; [done..|]. right. split; [done|].
        exists d. split; [by right | done].
    + injection Hcall as <- <-. split_and!; [done..|]. by left.
Qed.

(** X3.  [_get_mtype] commits at most one derived datatype per call, and
    only on a miss for a dat with [cdim] other than one; so the committed
    datatypes never outnumber the keys of the dict, if they did not
    before. *)
Theorem get_mtype_commits MPI st dat st' (r : result Datatype) :
  _get_mtype MPI st dat = (st', r) →
  (committed st' = committed st
   ∨ ∃ btype, committed st' = committed st ++ [Contiguous (cdim dat) btype]
              ∧ cdim dat ≠ 1
              ∧ _MPI_types st !! mtype_key dat = None
              ∧ r = Ok (Contiguous (cdim dat) btype))
  ∧ (length (committed st) ≤ size (_MPI_types st) →
     length (committed st') ≤ size (_MPI_types st')).
Proof.
  unfold _get_mtype. intros Hcall.
  destruct (_MPI_types st !! mtype_key dat) as [t0|] eqn:Hhit.
  { injection Hcall as <- <-. split; [by left|done]. }
  destruct (match __TypeDict__ MPI with Some d => Some d | None => _typedict MPI end)
    as [tdict|].
  2: { injection Hcall as <- <-. split; [by left|done]. }
  destruct (tdict !! dtype_char (dat_dtype dat)) as [btype|].
  2: { injection Hcall as <- <-. split; [by left|done]. }
  case_decide as Hc; injection Hcall as <- <-; simpl.
  - split; [by left|]. rewrite map_size_insert_None by done. lia.
  - split.
    + right. by exists btype.
    + rewrite map_size_insert_None, length_app by done. simpl. lia.
Qed.

(** X4.  With a dict that holds only what [_get_mtype] puts there, under
    either name of the table, the datatype returned for a dat is the
    table's datatype of a character code, taken as it is for [cdim] one and
    as [Create_contiguous(cdim)] of it otherwise; and the dict stays such a
    dict.  On a miss the code is the dat's own.  On a hit it is the code of
    the dat that filled the entry, which need not be the dat's own: the dict
    is searched by the dtype, and dtypes of different codes can be equal. *)
Theorem get_mtype_datatype MPI tdict st dat st' t :
  match __TypeDict__ MPI with Some d => Some d | None => _typedict MPI end
    = Some tdict →
  (∀ s n t0, _MPI_types st !! (s, n) = Some t0 →
     ∃ ch b, tdict !! ch = Some b
             ∧ t0 = if decide (n = 1) then b else Contiguous n b) →
  _get_mtype MPI st dat = (st', Ok t) →
  (∃ ch b, tdict !! ch = Some b
           ∧ t = (if decide (cdim dat = 1) then b else Contiguous (cdim dat) b)
           ∧ (_MPI_types st !! mtype_key dat = None →
              ch = dtype_char (dat_dtype dat)))
  ∧ (∀ s n t0, _MPI_types st' !! (s, n) = Some t0 →
       ∃ ch b, tdict !! ch = Some b
               ∧ t0 = if decide (n = 1) then b else Contiguous n b).
Proof.
  unfold _get_mtype. intros -> Hsound Hcall.
  destruct (_MPI_types st !! mtype_key dat) as [t0|] eqn:Hhit.
  { injection Hcall as <- <-. split; [|done].
    destruct (Hsound _ _ _ Hhit) as (ch & b & Hb & Ht). by exists ch, b. }
  destruct (tdict !! dtype_char (dat_dtype dat)) as [btype|] eqn:Hb; [|done].
  assert (t = (if decide (cdim dat = 1) then btype else Contiguous (cdim dat) btype)
          ∧ _MPI_types st' = <[mtype_key dat := t]> (_MPI_types st))
    as [Ht Hst'].
  { case_decide; by injection Hcall as <- <-. }
  split; [by exists (dtype_char (dat_dtype dat)), btype|].
  intros s n t1. rewrite Hst'.
  destruct (decide (mtype_key dat = (s, n))) as [Heq|Hne].
  - rewrite Heq, lookup_insert_eq. intros [= <-].
    injection Heq as _ <-. by exists (dtype_char (dat_dtype dat)), btype.
  - rewrite lookup_insert_ne by done. apply Hsound.
Qed.

End mtype.

(** ** halo.py: begin and end of an exchange *)

Section exchange.
Import halo.
Context (comm_size_of : SF → nat).
Context (halo_end_values : SF → Dat → Datatype → bool → list Z).
Context (MPI : MPImodule).

(** X5.  On more than one process, an [end] that follows a [begin] that
    returned, for the same dat, does not raise, completes the exchange with
    the datatype the [begin] started it with, and commits no datatype of its
    own.  The array is handed to [dmplex.halo_end] writable and comes back
    read-only, when it owns its data; an array that does not own its data
    keeps its write flag throughout. *)
Theorem Halo_end_after_begin (self : Halo) (s : SF) (dat : Dat)
    (reverse reverse' : bool) (w w1 : World) :
  sf self = Some s → comm_size_of s ≠ 1 →
  Halo_begin comm_size_of MPI self dat reverse w = (w1, Ok ()) →
  ∃ mtype dat1 dat3,
    exchanges w1 = exchanges w ++ [halo_begin s dat mtype reverse]
    ∧ Halo_end comm_size_of halo_end_values MPI self dat reverse' w1
      = ({| mpi_state := mpi_state w1;
            exchanges := exchanges w1 ++ [halo_end s dat1 mtype reverse'] |},
         dat3, Ok ())
    ∧ values (_data dat1) = values (_data dat)
    ∧ WRITEABLE (_data dat1)
      = (if OWNDATA (_data dat) then true else WRITEABLE (_data dat))
    ∧ values (_data dat3) = halo_end_values s dat1 mtype reverse'
    ∧ WRITEABLE (_data dat3)
      = (if OWNDATA (_data dat) then false else WRITEABLE (_data dat))
    ∧ OWNDATA (_data dat3) = OWNDATA (_data dat)
    ∧ dat_dtype dat3 = dat_dtype dat ∧ cdim dat3 = cdim dat.
Proof.
  intros Hsf Hsize. unfold Halo_begin, Halo_end. rewrite Hsf.
  rewrite !decide_False by done.
  destruct (_get_mtype MPI (mpi_state w) dat) as [st [mtype|e]] eqn:Hget; [|done].
  intros [= <-]. simpl.
  rewrite (get_mtype_hit MPI st dat mtype (get_mtype_Ok_cached _ _ _ _ _ Hget)).
  eexists mtype, _, _. split; [done|]. split; [done|].
  unfold maybe_setflags, set_data. simpl.
  destruct (OWNDATA (_data dat)) eqn:Hown; simpl; rewrite ?Hown; simpl; done.
Qed.

(** X24.  [Halo.__init__] does not look at the size of the communicator,
    and fails exactly when the star forest is not of type BASIC
    (RuntimeError).  On the halo it returns, [begin] and [end] use the
    default star forest of the DM; when its communicator has one process,
    both return at once: no datatype is looked up (so a dat of unknown dtype
    raises nothing), nothing is exchanged, and the dat keeps its data and
    its flags. *)
Theorem Halo_init_single_process
    (make_global_numbering : PetscSection → PetscSection → list Z)
    (comm_size comm_size' : nat) (dm : DM) :
  Halo_init make_global_numbering comm_size dm
  = Halo_init make_global_numbering comm_size' dm
  ∧ match Halo_init make_global_numbering comm_size dm with
    | Raise e => e = RuntimeError ∧ getType (getDefaultSF dm) ≠ BASIC
    | Ok h =>
        getType (getDefaultSF dm) = BASIC
        ∧ sf h = Some (getDefaultSF dm)
        ∧ (comm_size_of (getDefaultSF dm) = 1 →
           ∀ dat reverse w,
             Halo_begin comm_size_of MPI h dat reverse w = (w, Ok ())
             ∧ Halo_end comm_size_of halo_end_values MPI h dat reverse w
               = (w, dat, Ok ()))
    end.
Proof.
  unfold Halo_init.
  destruct (decide (getType (getDefaultSF dm) ≠ BASIC)) as [Hne|Hbasic].
  { by split. }
  split.
  { by destruct (decide (comm_size = 1)), (decide (comm_size' = 1)). }
  split.
  { destruct (decide (getType (getDefaultSF dm) = BASIC)) as [|Hn]; [done|].
    by destruct (Hbasic Hn). }
  split; [by destruct (decide (comm_size = 1))|].
  intros Hone dat reverse w. unfold Halo_begin, Halo_end.
  destruct (decide (comm_size = 1)); simpl;
    destruct (decide (comm_size_of (getDefaultSF dm) = 1)); done.
Qed.

End exchange.

(** ** pulley.py: the compiled kernels and the transfer kernel *)

Section compiled_kernels.
Import pulley.
Context {R : Type}.
Context (compile_form : Form → string → list TSFCKernel).
Context (space_dimension : FunctionSpace → nat).
Context (riesz_matrix : FunctionSpace → FunctionSpace → Mat R).
Implicit Types (self : SubspaceCorrectionPrec R) (k : TSFCKernel).

Lemma kernels_loop_from (ks : list TSFCKernel) (acc : list nat) :
  match foldM (λ compiled_kernels k,
                 _ ← py_assert (bool_decide (indices k = (0, 0)));
                 let ki := kinfo k in
                 _ ← py_assert (bool_decide (integral_type ki = "cell"));
                 _ ← py_assert (negb (oriented ki));
                 _ ← py_assert (bool_decide (length (coefficient_map ki) = 0));
                 Ok (compiled_kernels ++ [kernel ki])) ks acc with
  | Ok l =>
      Forall (λ k, indices k = (0, 0) ∧ integral_type (kinfo k) = "cell"
                   ∧ oriented (kinfo k) = false ∧ coefficient_map (kinfo k) = []) ks
      ∧ l = acc ++ ((λ k, kernel (kinfo k)) <$> ks)
  | Raise e =>
      e = AssertionError
      ∧ Exists (λ k, indices k ≠ (0, 0) ∨ integral_type (kinfo k) ≠ "cell"
                     ∨ oriented (kinfo k) = true ∨ coefficient_map (kinfo k) ≠ []) ks
  end.
Proof.
  revert acc. induction ks as [|k ks IH]; intros acc; simpl.
  { split; [constructor|]. by rewrite app_nil_r. }
  unfold py_assert.
  destruct (decide (indices k = (0, 0))) as [Hi|Hi].
  2: { rewrite (bool_decide_eq_false_2 _ Hi). simpl.
       split; [done|]. apply Exists_cons_hd. by left. }
  rewrite (bool_decide_eq_true_2 _ Hi). simpl.
  destruct (decide (integral_type (kinfo k) = "cell")) as [Ht|Ht].
  2: { rewrite (bool_decide_eq_false_2 _ Ht). simpl.
       split; [done|]. apply Exists_cons_hd. right. by left. }
  rewrite (bool_decide_eq_true_2 _ Ht). simpl.
  destruct (oriented (kinfo k)) eqn:Ho; simpl.
  { split; [done|]. apply Exists_cons_hd. right. right. by left. }
  destruct (decide (length (coefficient_map (kinfo k)) = 0)) as [Hc|Hc].
  2: { rewrite (bool_decide_eq_false_2 _ Hc). simpl.
       split; [done|]. apply Exists_cons_hd. right. right. right.
       intros Hnil. by rewrite Hnil in Hc. }
  rewrite (bool_decide_eq_true_2 _ Hc). simpl.
  specialize (IH (acc ++ [kernel (kinfo k)])).
  destruct (foldM _ ks (acc ++ [kernel (kinfo k)])) as [l|e].
  - destruct IH as [Hall ->]. split.
    + constructor; [|done]. split_and!; try done.
      by apply length_zero_iff_nil.
    + by rewrite <-app_assoc.
  - destruct IH as [-> Hex]. split; [done|]. by apply Exists_cons_tl.
Qed.

(** X6.  The property [kernels] returns the kernels of all the compiled
    ones, in their order, exactly when every one of them is for the block
    [(0, 0)], is a cell integral, is not oriented and has no coefficients;
    with any other kernel in the sequence it returns none at all and raises
    AssertionError. *)
Theorem kernels_all_or_AssertionError self :
  match kernels compile_form self with
  | Ok l =>
      Forall (λ k, indices k = (0, 0) ∧ integral_type (kinfo k) = "cell"
                   ∧ oriented (kinfo k) = false ∧ coefficient_map (kinfo k) = [])
             (compile_form (a self) "subspace_form")
      ∧ l = (λ k, kernel (kinfo k)) <$> compile_form (a self) "subspace_form"
  | Raise e =>
      e = AssertionError
      ∧ Exists (λ k, indices k ≠ (0, 0) ∨ integral_type (kinfo k) ≠ "cell"
                     ∨ oriented (kinfo k) = true ∨ coefficient_map (kinfo k) ≠ [])
               (compile_form (a self) "subspace_form")
  end.
Proof.
  unfold kernels, kernels_loop.
  exact (kernels_loop_from (compile_form (a self) "subspace_form") []).
Qed.

Lemma transfer_kernel_Ok self (restriction : bool) :
  space_dimension (P1 self) ≤ space_dimension (V self) →
  shape (V self) = shape (P1 self) →
  transfer_kernel space_dimension riesz_matrix self restriction
  = Ok {| kernel_name := if restriction then "Pk_P1_mapper" else "P1_Pk_mapper";
          out_shape :=
            if restriction
            then [space_dimension (P1 self)] ++ shape (P1 self)
                 ++ [space_dimension (V self)] ++ shape (V self)
            else [space_dimension (V self)] ++ shape (V self)
                 ++ [space_dimension (P1 self)] ++ shape (P1 self);
          out_indices :=
            [0] ++ seq 2 (length (shape (V self))) ++ [1]
            ++ seq 2 (length (shape (V self)));
          weights := if restriction then riesz_matrix (V self) (P1 self)
                     else Mat_transpose (riesz_matrix (V self) (P1 self)) |}.
Proof.
  intros Hdim Hshape. unfold transfer_kernel, py_assert.
  rewrite bool_decide_eq_true_2 by done. simpl.
  destruct restriction; simpl.
  - rewrite bool_decide_eq_true_2 by done. done.
  - rewrite bool_decide_eq_true_2 by done. simpl. by rewrite Hshape.
Qed.

Lemma transfer_kernel_Raise self (restriction : bool) :
  ¬ (space_dimension (P1 self) ≤ space_dimension (V self)
     ∧ shape (V self) = shape (P1 self)) →
  transfer_kernel space_dimension riesz_matrix self restriction
  = Raise AssertionError.
Proof.
  intros Hnot. unfold transfer_kernel, py_assert.
  case_bool_decide as Hdim; simpl; [|done].
  destruct restriction; simpl.
  - rewrite bool_decide_eq_false_2; [done|]. intros Hs. by apply Hnot.
  - rewrite bool_decide_eq_false_2; [done|]. intros Hs. by apply Hnot.
Qed.

(** X7.  [transfer_kernel] builds the kernel of both directions or of
    neither: it raises AssertionError, whatever [restriction] is, unless the
    element of [P1] has no more basis functions than that of [V] and the two
    spaces have the same shape.  When it does build them, the weights of the
    prolongation are the transposed weights of the restriction, the shape of
    the output tensor of the one is that of the other with its two halves
    exchanged, the two kernels carry different names, and each indexes its
    output tensor with as many indices as the tensor has axes, the component
    axes of the two halves sharing their indices. *)
Theorem transfer_kernel_directions self :
  match transfer_kernel space_dimension riesz_matrix self true,
        transfer_kernel space_dimension riesz_matrix self false with
  | Ok r, Ok p =>
      space_dimension (P1 self) ≤ space_dimension (V self)
      ∧ shape (V self) = shape (P1 self)
      ∧ weights p = Mat_transpose (weights r)
      ∧ out_shape r = [space_dimension (P1 self)] ++ shape (P1 self)
                      ++ [space_dimension (V self)] ++ shape (V self)
      ∧ out_shape p = [space_dimension (V self)] ++ shape (V self)
                      ++ [space_dimension (P1 self)] ++ shape (P1 self)
      ∧ kernel_name r ≠ kernel_name p
      ∧ out_indices p = out_indices r
      ∧ length (out_indices r) = length (out_shape r)
      ∧ length (out_indices p) = length (out_shape p)
      ∧ ∀ c, c < rank (V self) →
          out_indices r !! (1 + c) = Some (2 + c)
          ∧ out_indices r !! (2 + rank (V self) + c) = Some (2 + c)
  | Raise e, Raise e' =>
      e = AssertionError ∧ e' = AssertionError
      ∧ ¬ (space_dimension (P1 self) ≤ space_dimension (V self)
           ∧ shape (V self) = shape (P1 self))
  | _, _ => False
  end.
Proof.
  destruct (decide (space_dimension (P1 self) ≤ space_dimension (V self)
                    ∧ shape (V self) = shape (P1 self))) as [[Hdim Hshape]|Hnot].
  - rewrite !transfer_kernel_Ok by done. simpl.
    split_and!; try done.
    + simpl. rewrite !length_app. simpl. rewrite ?length_app, !length_seq.
      simpl. rewrite Hshape. lia.
    + simpl. rewrite !length_app. simpl. rewrite ?length_app, !length_seq.
      simpl. rewrite Hshape. lia.
    + unfold rank. intros c Hc. split.
      * rewrite lookup_app_l by (rewrite length_seq; lia).
        by rewrite lookup_seq_lt.
      * rewrite lookup_app_r by (rewrite length_seq; lia).
        rewrite length_seq.
        replace (S (length (shape (V self)) + c) - length (shape (V self)))
          with (S c) by lia.
        simpl. by rewrite lookup_seq_lt.
  - rewrite !transfer_kernel_Raise by done. done.
Qed.

End compiled_kernels.

Section init_then_transfer.
Import pulley.
Context {R : Type} `{Scalar R} `{Backend R}.
Context (space_dimension : FunctionSpace → nat).
Context (riesz_matrix : FunctionSpace → FunctionSpace → Mat R).

Lemma init_Ok_spaces (a0 : Form) (bcs0 : bcs_arg) (self : SubspaceCorrectionPrec R) :
  SubspaceCorrectionPrec_init a0 bcs0 = Ok self →
  V self = function_space (arguments a0).1
  ∧ function_space (arguments a0).1 = function_space (arguments a0).2
  ∧ a self = a0 ∧ mesh self = ufl_domain a0
  ∧ rank (V self) ≤ 1
  ∧ P1 self = {| fs_mesh := ufl_domain a0; family := "CG"; degree := 1;
                 shape := shape (V self) |}
  ∧ cached_P1_op self = None ∧ cached_matrices self = None
  ∧ cached_transfer_op self = None.
Proof.
  unfold SubspaceCorrectionPrec_init. destruct (arguments a0) as [test trial]. simpl.
  unfold py_assert.
  destruct (decide (function_space test = function_space trial)) as [HV|HV];
    [rewrite (bool_decide_eq_true_2 _ HV) | rewrite (bool_decide_eq_false_2 _ HV)];
    simpl; [|done].
  unfold rank. destruct (shape (function_space test)) as [|d [|d' sh]] eqn:Hsh;
    simpl; [| |done].
  - intros Hinit. apply bind_Ok in Hinit as ([self_bcs bc_nodes] & _ & Hinit).
    destruct (get_cell_facet_patches (ufl_domain a0)) as [cells0 facets0].
    destruct (get_dof_patches _ _ _ _ _) as [[dd g] b].
    injection Hinit as <-. simpl. rewrite Hsh. split_and!; try done. simpl. lia.
  - intros Hinit. apply bind_Ok in Hinit as ([self_bcs bc_nodes] & _ & Hinit).
    destruct (get_cell_facet_patches (ufl_domain a0)) as [cells0 facets0].
    destruct (get_dof_patches _ _ _ _ _) as [[dd g] b].
    injection Hinit as <-. simpl. rewrite Hsh. split_and!; done.
Qed.

(** X8.  For a context that [__init__] has built, the shape assertion of
    [transfer_kernel] cannot fail, since [__init__] gives [P1] the shape of
    [V]: the kernel is built, in either direction, exactly when the element
    of [P1] has no more basis functions than that of [V], and
    AssertionError is raised otherwise. *)
Theorem init_transfer_kernel (a0 : Form) (bcs0 : bcs_arg)
    (self : SubspaceCorrectionPrec R) (restriction : bool) :
  SubspaceCorrectionPrec_init a0 bcs0 = Ok self →
  shape (P1 self) = shape (V self)
  ∧ match transfer_kernel space_dimension riesz_matrix self restriction with
    | Ok k => space_dimension (P1 self) ≤ space_dimension (V self)
              ∧ weights k = (if restriction then riesz_matrix (V self) (P1 self)
                             else Mat_transpose (riesz_matrix (V self) (P1 self)))
    | Raise e => e = AssertionError
                 ∧ space_dimension (V self) < space_dimension (P1 self)
    end.
Proof.
  intros Hinit. apply init_Ok_spaces in Hinit as (_ & _ & _ & _ & _ & HP1 & _).
  assert (shape (P1 self) = shape (V self)) as Hshape by by rewrite HP1.
  split; [done|].
  destruct (decide (space_dimension (P1 self) ≤ space_dimension (V self))) as [Hd|Hd].
  - rewrite transfer_kernel_Ok by done. simpl. split; [done|]. by destruct restriction.
  - rewrite transfer_kernel_Raise by (intros [? _]; done). split; [done|]. lia.
Qed.

End init_then_transfer.

(** ** pulley.py: the cached properties *)

Section cached.
Import pulley.
Context {R : Type} `{Scalar R} {B : Backend R}.
Implicit Types (self c : SubspaceCorrectionPrec R) (ms : list (Mat R)).

(** X9.  [matrices] is evaluated once: after an evaluation that returned,
    every later one returns the same matrices and leaves the context as it
    is, whatever the global [V] is by then (even unbound) and whatever the
    kernels and the callable would now be.  The evaluation leaves its
    result in its slot, writes none of the attributes of the context, and
    leaves the slots of [P1_form], [P1_bcs], [P1_op] and [transfer_op] as
    they were: besides its own it fills at most those of [matrix_callable]
    and [kernels]. *)
Theorem matrices_evaluated_once (B' : Backend R) gV gV' self ms c :
  matrices (H0 := B) gV self = Ok (ms, c) →
  matrices (H0 := B') gV' c = Ok (ms, c)
  ∧ cached_matrices c = Some ms
  ∧ attributes c = attributes self
  ∧ (cached_P1_form c, cached_P1_bcs c, cached_P1_op c, cached_transfer_op c)
    = (cached_P1_form self, cached_P1_bcs self, cached_P1_op self,
       cached_transfer_op self).
Proof.
  intros Hm. pose proof (matrices_Ok_slots _ _ _ _ Hm) as Hslots.
  apply matrices_Ok_cached in Hm as [Hc Hattr]. split_and!; try done.
  unfold matrices. by rewrite Hc.
Qed.

Lemma KSP_after_prefix (k : KSP R) (ps : list (nat * Mat R)) :
  ksp_prefix (KSP_after k ps) = ksp_prefix k.
Proof. unfold KSP_after. by destruct (last ps). Qed.

Lemma KSP_after_idemp (k : KSP R) (ps : list (nat * Mat R)) :
  KSP_after (KSP_after k ps) ps = KSP_after k ps.
Proof. unfold KSP_after. by destruct (last ps). Qed.

(** X10.  [PatchPC.apply] can be repeated: on the instance a call that
    returned leaves behind, a call for the same [x] returns the same [y] and
    the same instance, for every output vector of the same size, and no
    longer reads the global [V]. *)
Theorem PatchPC_apply_repeatable gV gV' (self self1 : PatchPC R)
    (x y y' y1 : list R) :
  PatchPC_apply gV self x y = Ok (y1, self1) →
  length y' = length y →
  PatchPC_apply gV' self1 x y' = Ok (y1, self1).
Proof.
  rewrite !PatchPC_apply_eq. unfold vec_set0. intros Happly Hlen. rewrite Hlen.
  apply bind_Ok in Happly as ([ms c] & Hm & Happly).
  apply bind_Ok in Happly as (tmp_ys & Hsolve & Happly).
  apply bind_Ok in Happly as (y2 & Hadd & Happly).
  injection Happly as <- <-. simpl.
  apply matrices_Ok_cached in Hm as [Hc Hattr]. same_attributes Hattr.
  rewrite (matrices_cached gV' c ms Hc). simpl. rewrite HV.
  set (self1 := {| ksp := KSP_after (ksp self) (enumerate ms); ctx := c |}).
  assert (∀ im, local_solve self1 c (dim (V (ctx self))) x im
                = local_solve self c (dim (V (ctx self))) x im) as Hsame.
  { intros im. rewrite !local_solve_eq. simpl. by rewrite KSP_after_prefix. }
  assert (mapM (local_solve self1 c (dim (V (ctx self))) x) (enumerate ms)
          = Ok tmp_ys) as ->.
  { rewrite <-Hsolve. clear Hsolve Hadd. clearbody self1.
    induction (enumerate ms) as [|im l IH]; [done|].
    simpl. by rewrite Hsame, IH. }
  simpl. rewrite Hadd. simpl. by rewrite KSP_after_idemp.
Qed.

(** X11.  A [P1PC.setUp] that returned has assembled once: run again on the
    context it leaves behind, it returns the same instance and the same
    context, whatever [assemble] and the transfer loop would now produce.
    The operator and the transfer matrix are in the slots of [P1_op] and
    [transfer_op].  The call writes none of the attributes of the context,
    and leaves the slots of [kernels], [matrix_callable] and [matrices] as
    they were: it fills at most those of [P1_form], [P1_bcs], [P1_op] and
    [transfer_op].  The two work vectors are zero and have one entry per row
    of the transfer matrix. *)
Theorem P1PC_setUp_once (B' : Backend R) (outer : PC R) (p : P1PC R) c :
  P1PC_setUp (H0 := B) outer = Ok (p, c) →
  P1PC_setUp (H0 := B')
    {| getOptionsPrefix := getOptionsPrefix outer; getPythonContext := c |}
    = Ok (p, c)
  ∧ cached_P1_op c = Some (pc_operator p)
  ∧ cached_transfer_op c = Some (transfer p)
  ∧ attributes c = attributes (getPythonContext outer)
  ∧ (cached_kernels c, cached_matrix_callable c, cached_matrices c)
    = (cached_kernels (getPythonContext outer),
       cached_matrix_callable (getPythonContext outer),
       cached_matrices (getPythonContext outer))
  ∧ work1 p = replicate (nrows (transfer p)) s0
  ∧ work2 p = replicate (nrows (transfer p)) s0.
Proof.
  intros Hs. apply P1PC_setUp_Ok in Hs as (c1 & Hop & Ht & Hpc & Hw1 & Hw2).
  pose proof (transfer_op_Ok _ _ _ Ht) as (Hslot & Hattr & Hslots & _).
  pose proof (P1_op_Ok _ _ _ Hop) as (Hslot1 & Hattr1 & Hslots1 & _).
  injection Hslots as _ Hop' Hk Hmc Hms.
  injection Hslots1 as Hk1 Hmc1 Hms1 _.
  assert (cached_P1_op c = Some (pc_operator p)) as Hopc by congruence.
  split_and!; try done; try congruence.
  unfold P1PC_setUp. simpl.
  rewrite (P1_op_cached B' c _ Hopc). simpl.
  rewrite (transfer_op_cached B' c _ Hslot). simpl.
  destruct p. simpl in *. by rewrite Hpc, Hw1, Hw2.
Qed.

(** X12.  The two preconditioners configure their solvers under different
    option prefixes of the same outer prefix, and both work on the context
    of the outer [pc]: the options of the patch solves never reach the
    coarse solve, nor the other way round.  The prefix of the KSP of the
    patches stays through [apply], which only re-targets it. *)
Theorem solver_prefixes_distinct (outer : PC R) :
  ksp_prefix (ksp (PatchPC_setUp outer)) ≠ getOptionsPrefix outer +:+ "lo_"
  ∧ (∀ (p : P1PC R) c, P1PC_setUp outer = Ok (p, c) →
       pc p = getOptionsPrefix outer +:+ "lo_"
       ∧ ksp_prefix (ksp (PatchPC_setUp outer)) ≠ pc p)
  ∧ (∀ gV x y y' (q : PatchPC R),
       PatchPC_apply gV (PatchPC_setUp outer) x y = Ok (y', q) →
       ksp_prefix (ksp q) = getOptionsPrefix outer +:+ "sub_")
  ∧ ctx (PatchPC_setUp outer) = getPythonContext outer.
Proof.
  assert (ksp_prefix (ksp (PatchPC_setUp outer)) ≠ getOptionsPrefix outer +:+ "lo_")
    as Hne.
  { destruct outer as [pfx c0]. simpl.
    induction pfx as [|ch pfx IH]; simpl.
    - discriminate.
    - intros [= Heq]. by apply IH. }
  split_and!; try done.
  - intros p c Hs. apply P1PC_setUp_Ok in Hs as (c1 & _ & _ & Hpc & _).
    split; [done|]. by rewrite Hpc.
  - intros gV x y y' q. rewrite PatchPC_apply_eq. intros Happly.
    apply bind_Ok in Happly as ([ms c] & _ & Happly).
    apply bind_Ok in Happly as (tmp_ys & _ & Happly).
    apply bind_Ok in Happly as (y2 & _ & Happly). injection Happly as <- <-.
    simpl. by rewrite KSP_after_prefix.
Qed.

End cached.

(** ** pulley.py: when [P1PC.setUp] raises, and where a bad kernel shows *)

Section failures.
Import pulley.
Context {R : Type} `{Scalar R} `{Backend R}.
Implicit Types (self c : SubspaceCorrectionPrec R).

(** X25.  On a context on which neither [P1_form], nor [P1_op], nor
    [transfer_op] has been evaluated, [P1PC.setUp] returns exactly when the
    two arguments of the form are numbered 0 or 1, the block shape of the
    matrix argument is one pair, [P1] has no more basis functions per cell
    than [V], and the two spaces have the same shape.  It raises KeyError
    for an argument of another number ([ArgumentReplacer.argument]), before
    anything of the transfer is looked at, and AssertionError otherwise. *)
Theorem P1PC_setUp_failures (outer : PC R) :
  let c := getPythonContext outer in
  let numbered := number (arguments (a c)).1 ≤ 1 ∧ number (arguments (a c)).2 ≤ 1 in
  let transferable :=
    (∃ a_ b_, block_shape (P1 c) (V c) = [[[a_; b_]]])
    ∧ fiat_space_dimension (P1 c) ≤ fiat_space_dimension (V c)
    ∧ shape (V c) = shape (P1 c) in
  cached_P1_form c = None → cached_P1_op c = None → cached_transfer_op c = None →
  match P1PC_setUp outer with
  | Ok _ => numbered ∧ transferable
  | Raise e =>
      e = KeyError ∧ ¬ numbered
      ∨ e = AssertionError ∧ numbered ∧ ¬ transferable
  end.
Proof.
  destruct outer as [pfx c]. simpl. intros Hform Hop Ht.
  unfold P1PC_setUp, P1_op. simpl. rewrite Hop. unfold P1_form. rewrite Hform.
  unfold map_integrand_dags, ArgumentReplacer_argument.
  destruct (number (arguments (a c)).1) as [|[|n1]] eqn:Hn1; simpl;
    [| |left; split; [done|]; intros [? _]; lia].
  all: destruct (number (arguments (a c)).2) as [|[|n2]] eqn:Hn2; simpl;
    [| |left; split; [done|]; intros [_ ?]; lia].
  all: match goal with
       | |- context [P1_bcs ?c0] =>
           destruct (P1_bcs c0) as [l c2] eqn:Hl;
           pose proof (P1_bcs_Ok _ _ _ Hl) as [-> _]
       end; simpl.
  all: unfold transfer_op; simpl; rewrite Ht; unfold P1_bcs; simpl.
  all: destruct (block_shape (P1 c) (V c)) as [|[|[|a0 [|b0 [|]]] [|]] [|]] eqn:Hsh;
    simpl;
    try (right; split; [done|]; split; [lia|]; by intros [(? & ? & [=]) _]).
  all: unfold transfer_kernel, py_assert; simpl.
  all: destruct (decide (fiat_space_dimension (P1 c) ≤ fiat_space_dimension (V c)))
    as [Hd|Hd];
    [rewrite (bool_decide_eq_true_2 _ Hd) | rewrite (bool_decide_eq_false_2 _ Hd)];
    simpl; [|right; split; [done|]; split; [lia|]; by intros (_ & ? & _)].
  all: destruct (decide (shape (V c) = shape (P1 c))) as [Hs|Hs];
    [rewrite (bool_decide_eq_true_2 _ Hs) | rewrite (bool_decide_eq_false_2 _ Hs)];
    simpl; [|right; split; [done|]; split; [lia|]; by intros (_ & _ & ?)].
  all: split; [lia|]; split_and!; try done; by eexists _, _.
Qed.

(** X26.  A compiled kernel that fails an assertion of [kernels] goes
    unnoticed until the first patch: with no patch [matrices] returns the
    empty tuple and the kernels are never compiled; with one patch or more
    [matrices] does not return, and raises the AssertionError of [kernels]
    when the first patch has its offsets, a block size of at least one and a
    size that is not negative; and so does [PatchPC.apply]. *)
Theorem bad_kernel_AssertionError (W : FunctionSpace) self e :
  cached_matrices self = None → cached_matrix_callable self = None →
  cached_kernels self = None →
  kernels tsfc_compile_form self = Raise e →
  let n := length (offset (dof_patches self)) - 1 in
  e = AssertionError
  ∧ matrix_callable self = Raise AssertionError
  ∧ (n = 0 → matrices (Some W) self = Ok ([], set_cached_matrices self []))
  ∧ (n ≠ 0 → ¬ ∃ ms c, matrices (Some W) self = Ok (ms, c))
  ∧ (n ≠ 0 → dof_dset_cdim W ≠ 0 →
     (∃ g0 g1, offset (glob_patches self) !! 0 = Some g0
               ∧ offset (glob_patches self) !! 1 = Some g1 ∧ g0 ≤ g1) →
     is_Some (offset (cells self) !! 0) → is_Some (offset (cells self) !! 1) →
     matrices (Some W) self = Raise AssertionError
     ∧ ∀ (smoother : PatchPC R) x y,
         ctx smoother = self →
         PatchPC_apply (Some W) smoother x y = Raise AssertionError).
Proof.
  intros Hms Hmc Hks Hk n.
  assert (e = AssertionError) as ->.
  { assert (match kernels tsfc_compile_form self with
            | Ok _ => True
            | Raise e' => e' = AssertionError
            end) as Hloop.
    { unfold kernels, kernels_loop.
      pose proof (kernels_loop_from (tsfc_compile_form (a self) "subspace_form") [])
        as Hloop.
      destruct (foldM _ _ []); [done|]. by destruct Hloop. }
    by rewrite Hk in Hloop. }
  assert (matrix_callable self = Raise AssertionError) as Hcall.
  { unfold matrix_callable, self_kernels. by rewrite Hmc, Hks, Hk. }
  split; [done|]. split; [done|]. split_and!.
  - intros Hn. unfold matrices. rewrite Hms. fold n. by rewrite Hn.
  - intros Hn (ms & c & Hm).
    pose proof (matrices_uncached _ _ _ _ Hms Hm) as [(c1 & _ & _ & Hc1) _].
    destruct Hc1 as [[Hn0 _]|[mc Hmc1]]; [done|]. by rewrite Hcall in Hmc1.
  - intros Hn Hdim (g0 & g1 & Hg0 & Hg1 & Hle) [c0 Hc0] [c1 Hc1].
    assert (matrices (Some W) self = Raise AssertionError) as Hraise.
    { assert (matrices_turn self (dof_dset_cdim W) 0 = Raise AssertionError) as Hturn.
      { destruct (lookup_lt_is_Some_2 (offset (dof_patches self)) 0) as [d0 Hd0];
          [unfold n in Hn; lia|].
        unfold matrices_turn. change (0 + 1) with 1.
        rewrite (proj2 (np_index_Ok _ _ _) Hg1). simpl.
        rewrite (proj2 (np_index_Ok _ _ _) Hg0). simpl.
        rewrite decide_False by done. rewrite decide_False by lia. simpl.
        rewrite (proj2 (np_index_Ok _ _ _) Hd0). simpl.
        rewrite (proj2 (np_index_Ok _ _ _) Hc0). simpl.
        rewrite (proj2 (np_index_Ok _ _ _) Hc1). simpl.
        by rewrite Hcall. }
      unfold matrices. rewrite Hms. fold n.
      destruct n as [|n']; [done|]. cbn [seq foldM]. by rewrite Hturn. }
    split; [done|]. intros smoother x y <-. unfold PatchPC_apply. by rewrite Hraise.
Qed.

End failures.

(** ** pulley.py: [__init__] *)

Lemma np_unique_sorted (l : list nat) :
  StronglySorted lt (np_unique l) ∧ ∀ n, n ∈ np_unique l ↔ n ∈ l.
Proof.
  unfold np_unique.
  assert (∀ n, n ∈ merge_sort Nat.le (remove_dups l) ↔ n ∈ l) as Hin.
  { intros n. rewrite merge_sort_Permutation. apply elem_of_remove_dups. }
  split; [|done].
  assert (NoDup (merge_sort Nat.le (remove_dups l))) as Hnd.
  { rewrite merge_sort_Permutation. apply NoDup_remove_dups. }
  assert (StronglySorted Nat.le (merge_sort Nat.le (remove_dups l))) as Hs.
  { apply StronglySorted_merge_sort.
    - intros x y z. unfold Nat.le. lia.
    - intros x y. unfold Nat.le. lia. }
  revert Hnd Hs. generalize (merge_sort Nat.le (remove_dups l)). clear.
  intros k Hnd Hs. induction Hs as [|x k Hs IH Hle]; [constructor|].
  apply NoDup_cons in Hnd as [Hx Hnd]. constructor; [by apply IH|].
  apply Forall_forall. intros y Hy.
  pose proof (proj1 (Forall_forall _ _) Hle y Hy) as Hxy.
  assert (x ≠ y) by (intros ->; done). unfold Nat.le in *. lia.
Qed.

Section init.
Import pulley.
Context {R : Type} `{Scalar R} `{Backend R}.

(** X13.  The order in which [__init__] fails: a form whose test and trial
    spaces differ is refused first (AssertionError), whatever the rank and
    the boundary conditions; then a space of rank two or more
    (NotImplementedError); then an empty sequence of boundary conditions
    (ValueError, from [numpy.concatenate]), which is not the same as no
    boundary conditions.  Nothing else makes it fail. *)
Theorem init_failures (a0 : Form) (bcs0 : bcs_arg) :
  let Vtest := function_space (arguments a0).1 in
  let Vtrial := function_space (arguments a0).2 in
  match SubspaceCorrectionPrec_init (R := R) a0 bcs0 with
  | Raise e =>
      e = AssertionError ∧ Vtest ≠ Vtrial
      ∨ e = NotImplementedError ∧ Vtest = Vtrial ∧ 2 ≤ rank Vtest
      ∨ e = ValueError ∧ Vtest = Vtrial ∧ rank Vtest ≤ 1 ∧ bcs0 = BcSeq []
  | Ok self =>
      Vtest = Vtrial ∧ rank Vtest ≤ 1 ∧ bcs0 ≠ BcSeq []
  end.
Proof.
  unfold SubspaceCorrectionPrec_init.
  destruct (arguments a0) as [test trial]. simpl. unfold py_assert.
  destruct (decide (function_space test = function_space trial)) as [HV|HV];
    [rewrite (bool_decide_eq_true_2 _ HV) | rewrite (bool_decide_eq_false_2 _ HV)];
    simpl; [|by left].
  unfold rank. destruct (shape (function_space test)) as [|d [|d' sh]] eqn:Hsh; simpl.
  - destruct bcs0 as [|bc|[|bc l]]; simpl;
      try (destruct (get_cell_facet_patches _) as [c f];
           destruct (get_dof_patches _ _ _ _ _) as [[dd g] b]; split_and!; done || lia).
    right. right. split_and!; done || lia.
  - destruct bcs0 as [|bc|[|bc l]]; simpl;
      try (destruct (get_cell_facet_patches _) as [c f];
           destruct (get_dof_patches _ _ _ _ _) as [[dd g] b]; split_and!; done || lia).
    right. right. split_and!; done || lia.
  - right. left. split_and!; try done. simpl. lia.
Qed.

(** X14.  The patches of a context that [__init__] has built are those the
    patch builders return for the mesh of the form, the space of its test
    function and the boundary nodes: the nodes of all the boundary
    conditions kept in [bcs], each once, in increasing order. *)
Theorem init_patches (a0 : Form) (bcs0 : bcs_arg) (self : SubspaceCorrectionPrec R) :
  SubspaceCorrectionPrec_init a0 bcs0 = Ok self →
  ∃ bc_nodes,
    bcs self = match bcs0 with BcNone => [] | BcOne bc => [bc] | BcSeq l => l end
    ∧ StronglySorted lt bc_nodes
    ∧ (∀ n, n ∈ bc_nodes ↔ ∃ bc, bc ∈ bcs self ∧ n ∈ nodes bc)
    ∧ (cells self, facets self) = get_cell_facet_patches (ufl_domain a0)
    ∧ (dof_patches self, glob_patches self, bc_patches self)
      = get_dof_patches (ufl_domain a0) (function_space (arguments a0).1)
                        bc_nodes (cells self) (facets self).
Proof.
  unfold SubspaceCorrectionPrec_init.
  destruct (arguments a0) as [test trial]. simpl.
  intros Hinit. apply bind_Ok in Hinit as ([] & _ & Hinit).
  apply bind_Ok in Hinit as (P10 & _ & Hinit).
  apply bind_Ok in Hinit as ([self_bcs bc_nodes] & Hbcs & Hinit).
  destruct (get_cell_facet_patches (ufl_domain a0)) as [cells0 facets0] eqn:Hcf.
  destruct (get_dof_patches _ _ _ _ _) as [[dd g] b] eqn:Hdgb.
  injection Hinit as <-. simpl. exists bc_nodes.
  assert (self_bcs = match bcs0 with BcNone => [] | BcOne bc => [bc] | BcSeq l => l end
          ∧ bc_nodes = np_unique (mjoin (nodes <$> self_bcs))) as [Hself ->].
  { destruct bcs0 as [|bc|l]; simpl in Hbcs.
    - by injection Hbcs as <- <-.
    - by injection Hbcs as <- <-.
    - apply bind_Ok in Hbcs as (ns & Hns & Hbcs). injection Hbcs as <- <-.
      unfold np_concatenate in Hns. destruct l; [done|]. by injection Hns as <-. }
  destruct (np_unique_sorted (mjoin (nodes <$> self_bcs))) as [Hsorted Hin].
  split_and!; try done.
  intros n. rewrite Hin. rewrite list_elem_of_join. split.
  - intros (ns & Hn & Hns). apply list_elem_of_fmap in Hns as (bc & -> & Hbc).
    by exists bc.
  - intros (bc & Hbc & Hn). exists (nodes bc). split; [done|].
    apply list_elem_of_fmap. by exists bc.
Qed.

End init.

(** ** pulley.py: the labelling of the boundary *)

Section labelling.
Import pulley_script.
Implicit Types (dm : DM) (L : gmap nat nat).

Lemma inner_surface_Raise (x : list float) e :
  inner_surface x = Raise e → e = IndexError ∧ length x < 3.
Proof.
  unfold inner_surface, np_index.
  destruct (x !! 2) as [x2|] eqn:H2; simpl.
  - pose proof (lookup_lt_Some _ _ _ H2) as Hlen.
    destruct (lookup_lt_is_Some_2 x 0 ltac:(lia)) as [x0 ->].
    destruct (lookup_lt_is_Some_2 x 1 ltac:(lia)) as [x1 ->]. done.
  - intros [= <-]. split; [done|]. apply lookup_ge_None in H2. lia.
Qed.

Lemma all_inner_cases dm (p : list nat) :
  match all_inner dm p with
  | Ok true => Forall (λ v, inner_surface (vecGetClosure dm v) = Ok true) p
  | Ok false =>
      ∃ pre v post, p = pre ++ v :: post
        ∧ Forall (λ v, inner_surface (vecGetClosure dm v) = Ok true) pre
        ∧ inner_surface (vecGetClosure dm v) = Ok false
  | Raise e =>
      e = IndexError
      ∧ ∃ pre v post, p = pre ++ v :: post
          ∧ Forall (λ v, inner_surface (vecGetClosure dm v) = Ok true) pre
          ∧ length (vecGetClosure dm v) < 3
  end.
Proof.
  induction p as [|v p IH]; simpl; [constructor|].
  destruct (inner_surface (vecGetClosure dm v)) as [[]|e] eqn:Hv; simpl.
  - destruct (all_inner dm p) as [[]|e].
    + by constructor.
    + destruct IH as (pre & w & post & -> & Hpre & Hw).
      exists (v :: pre), w, post. split_and!; try done. by constructor.
    + destruct IH as (-> & pre & w & post & -> & Hpre & Hw). split; [done|].
      exists (v :: pre), w, post. split_and!; try done. by constructor.
  - exists [], v, p. split_and!; try done.
  - apply inner_surface_Raise in Hv as [-> Hlen]. split; [done|].
    exists [], v, p. split_and!; try done.
Qed.

Lemma label_loop_Ok dm (fs : list nat) L0 L :
  foldM (label_facet dm) fs L0 = Ok L →
  ∀ f,
    (f ∉ fs → L !! f = L0 !! f)
    ∧ (f ∈ fs →
         L !! f = Some 1
         ∧ Forall (λ v, inner_surface (vecGetClosure dm v) = Ok true)
                  (last3 (getTransitiveClosure dm f))
         ∨ L !! f = Some 2
           ∧ ∃ pre v post,
               last3 (getTransitiveClosure dm f) = pre ++ v :: post
               ∧ Forall (λ v, inner_surface (vecGetClosure dm v) = Ok true) pre
               ∧ inner_surface (vecGetClosure dm v) = Ok false).
Proof.
  revert L0. induction fs as [|f0 fs IH]; intros L0; simpl.
  { intros [= <-] f. split; [done|]. by intros ?%elem_of_nil. }
  intros Hloop. apply bind_Ok in Hloop as (L1 & Hf0 & Hloop).
  unfold label_facet in Hf0.
  apply bind_Ok in Hf0 as (innerblah & Hall & Hf0). injection Hf0 as <-.
  intros f. destruct (IH _ Hloop f) as [Hout Hin]. split.
  - intros Hf. apply not_elem_of_cons in Hf as [Hne Hf].
    rewrite (Hout Hf). by rewrite lookup_insert_ne.
  - intros Hf. destruct (decide (f ∈ fs)) as [Hfs|Hfs]; [by apply Hin|].
    apply elem_of_cons in Hf as [->|Hf]; [|done].
    rewrite (Hout Hfs), lookup_insert_eq.
    pose proof (all_inner_cases dm (last3 (getTransitiveClosure dm f0))) as Hcases.
    rewrite Hall in Hcases. destruct innerblah; [by left | by right].
Qed.

(** X15.  After the loop over the exterior facets, the label
    ["boundary_ids"] holds a value for the exterior facets and for no other
    point.  The value of a facet is 1 when the last three points of its
    closure are all on the inner surface, and 2 when one of them is not; in
    that case the points after the first such one are not looked at.  At
    most three points are looked at per facet. *)
Theorem label_boundary_labels dm L :
  label_boundary dm = Ok L →
  ∀ f,
    length (last3 (getTransitiveClosure dm f)) ≤ 3
    ∧ (f ∉ exterior_facets dm → L !! f = None)
    ∧ (f ∈ exterior_facets dm →
         L !! f = Some 1
         ∧ Forall (λ v, inner_surface (vecGetClosure dm v) = Ok true)
                  (last3 (getTransitiveClosure dm f))
         ∨ L !! f = Some 2
           ∧ ∃ pre v post,
               last3 (getTransitiveClosure dm f) = pre ++ v :: post
               ∧ Forall (λ v, inner_surface (vecGetClosure dm v) = Ok true) pre
               ∧ inner_surface (vecGetClosure dm v) = Ok false).
Proof.
  unfold label_boundary. intros Hloop f.
  destruct (label_loop_Ok dm _ _ _ Hloop f) as [Hout Hin].
  split_and!; [|by intros Hf; rewrite (Hout Hf)|done].
  unfold last3. rewrite length_drop. lia.
Qed.

Lemma label_loop_Raise dm (fs : list nat) L0 e :
  foldM (label_facet dm) fs L0 = Raise e →
  e = IndexError
  ∧ ∃ f v, f ∈ fs ∧ v ∈ last3 (getTransitiveClosure dm f)
           ∧ length (vecGetClosure dm v) < 3.
Proof.
  revert L0. induction fs as [|f0 fs IH]; intros L0; simpl; [done|].
  intros Hloop.
  destruct (label_facet dm L0 f0) as [L1|e0] eqn:Hf0; simpl in Hloop.
  - destruct (IH _ Hloop) as (-> & f & v & Hf & Hv & Hlen).
    split; [done|]. exists f, v. split_and!; try done. by right.
  - injection Hloop as <-. unfold label_facet in Hf0.
    pose proof (all_inner_cases dm (last3 (getTransitiveClosure dm f0))) as Hcases.
    destruct (all_inner dm (last3 (getTransitiveClosure dm f0))) as [b|e1];
      simpl in Hf0; [done|]. injection Hf0 as <-.
    destruct Hcases as (-> & pre & v & post & Hp & _ & Hlen).
    split; [done|]. exists f0, v. split_and!; try done; [by left|].
    rewrite Hp. apply elem_of_app. right. by left.
Qed.

(** X16.  The loop raises nothing but IndexError, and only when a point it
    inspects has fewer than three coordinates; when it returns, exactly the
    exterior facets are labelled. *)
Theorem label_boundary_returns_or_IndexError dm :
  match label_boundary dm with
  | Ok L => ∀ f, f ∈ exterior_facets dm ↔ is_Some (L !! f)
  | Raise e =>
      e = IndexError
      ∧ ∃ f v, f ∈ exterior_facets dm
               ∧ v ∈ last3 (getTransitiveClosure dm f)
               ∧ length (vecGetClosure dm v) < 3
  end.
Proof.
  unfold label_boundary.
  destruct (foldM (label_facet dm) (exterior_facets dm) ∅) as [L|e] eqn:Hloop.
  - intros f. destruct (label_loop_Ok dm _ _ _ Hloop f) as [Hout Hin]. split.
    + intros Hf. destruct (Hin Hf) as [[-> _]|[-> _]]; by eexists.
    + intros [l Hl]. destruct (decide (f ∈ exterior_facets dm)) as [|Hf]; [done|].
      rewrite (Hout Hf), lookup_empty in Hl. done.
  - by apply label_loop_Raise in Hloop.
Qed.

End labelling.

(** ** pulley.py: when [matrices] returns, and what it returns *)

Lemma expand_rows_in_range (dim n : nat) (rows : list nat) :
  dim ≠ 0 →
  Forall (λ k, k < n * dim) (expand_rows dim rows) ↔ Forall (λ r, r < n) rows.
Proof.
  intros Hd. rewrite !Forall_forall. split.
  - intros Hk r Hr.
    assert (dim * r + 0 < n * dim) as Hlt; [|nia].
    apply Hk, elem_of_expand_rows. exists r, 0. split_and!; [done|lia|done].
  - intros Hr k Hk. apply elem_of_expand_rows in Hk as (r & c & Hin & Hc & ->).
    specialize (Hr r Hin). nia.
Qed.

Lemma mapM_returns {A B} (f : A → result B) (l : list A) :
  Forall (λ x, ∃ y, f x = Ok y) l → ∃ k, mapM f l = Ok k.
Proof.
  induction 1 as [|x l [y Hy] _ [k Hk]]; simpl.
  - by exists [].
  - rewrite Hy. simpl. rewrite Hk. simpl. by eexists.
Qed.

Section matrices_return.
Import pulley.
Context {R : Type} `{Scalar R} `{Backend R}.
Implicit Types (self c : SubspaceCorrectionPrec R) (m : Mat R).

Lemma matrix_callable_returns self :
  (∃ mc c, matrix_callable self = Ok (mc, c))
  ↔ is_Some (cached_matrix_callable self) ∨ is_Some (cached_kernels self)
    ∨ ∃ ks, kernels tsfc_compile_form self = Ok ks.
Proof.
  unfold matrix_callable, self_kernels.
  destruct (cached_matrix_callable self) as [mc0|].
  { split; [by left|]. intros _. by eexists _, _. }
  destruct (cached_kernels self) as [ks0|]; simpl.
  { split; [by right; left|]. intros _. by eexists _, _. }
  destruct (kernels tsfc_compile_form self) as [ks|e]; simpl.
  - split; [intros _; right; right; by eexists|]. intros _. by eexists _, _.
  - split; [by intros (? & ? & ?)|].
    intros [[? [=]]|[[? [=]]|[? [=]]]].
Qed.

Lemma patch_matrix_returns self dim i :
  is_Some (offset (dof_patches self) !! i) →
  (∃ m, patch_matrix self dim i = Ok m)
  ↔ patch_ok self dim i ∧ ∃ mc c, matrix_callable self = Ok (mc, c).
Proof.
  intros [d0 Hd0]. unfold patch_ok. split.
  - intros [m Hm]. unfold patch_matrix in Hm. apply value_of_Ok in Hm as [c Hm].
    pose proof (matrices_turn_Ok _ _ _ _ _ Hm)
      as (g0 & g1 & rows & Hg0 & Hg1 & Hle & Hdim & Hrows & Hrange & _ & _
          & mc & Hmc & _).
    unfold matrices_turn in Hm.
    apply bind_Ok in Hm as (? & _ & Hm). apply bind_Ok in Hm as (? & _ & Hm).
    apply bind_Ok in Hm as (? & _ & Hm). apply bind_Ok in Hm as (? & _ & Hm).
    apply bind_Ok in Hm as (c0 & Hc0 & Hm). apply bind_Ok in Hm as (c1 & Hc1 & _).
    apply np_index_Ok in Hc0, Hc1.
    split; [|by exists mc, c]. split; [done|].
    split; [by eexists|]. split; [by eexists|].
    exists g0, g1, rows. split_and!; try done.
    by apply (expand_rows_in_range dim (g1 - g0)).
  - intros [(Hdim & [c0 Hc0] & [c1 Hc1] & g0 & g1 & rows & Hg0 & Hg1 & Hle & Hrows
             & Hrange) (mc & c & Hmc)].
    destruct (matrix_callable_Ok _ _ _ Hmc) as (_ & Hattr & _).
    same_attributes Hattr.
    unfold patch_matrix, matrices_turn.
    rewrite (proj2 (np_index_Ok _ _ _) Hg1). simpl.
    rewrite (proj2 (np_index_Ok _ _ _) Hg0). simpl.
    rewrite decide_False by done. rewrite decide_False by lia. simpl.
    rewrite (proj2 (np_index_Ok _ _ _) Hd0). simpl.
    rewrite (proj2 (np_index_Ok _ _ _) Hc0). simpl.
    rewrite (proj2 (np_index_Ok _ _ _) Hc1). simpl.
    rewrite Hmc. simpl. rewrite Hbc, Hrows. simpl. unfold zeroRowsColumns. simpl.
    rewrite decide_True by (by apply expand_rows_in_range). by eexists.
Qed.

Lemma matrices_returns (W : FunctionSpace) self :
  cached_matrices self = None →
  (length (offset (dof_patches self)) - 1 = 0
   ∨ ∃ mc c, matrix_callable self = Ok (mc, c)) →
  (∀ i, i < length (offset (dof_patches self)) - 1 →
        patch_ok self (dof_dset_cdim W) i) →
  ∃ ms c, matrices (Some W) self = Ok (ms, c).
Proof.
  intros Hc Hcall Hok. unfold matrices. rewrite Hc.
  destruct (matrices_loop_returns self (dof_dset_cdim W)
              (seq 0 (length (offset (dof_patches self)) - 1)) [])
    as (ms & c & Hms).
  { apply Forall_forall. intros i Hi. apply elem_of_seq in Hi.
    destruct Hcall as [Hn|Hmc]; [lia|].
    apply patch_matrix_returns; [apply lookup_lt_is_Some_2; lia|].
    split; [|done]. apply Hok. lia. }
  rewrite Hms. simpl. by eexists _, _.
Qed.

(** X17.  When [matrices], evaluated for the first time with the global
    [V] bound, returns.  It does when every patch is well formed for the
    block size of that [V] (the block size is at least one, the offsets of
    the patch are there in the cell and the dof arrays, the patch does not
    have a negative size, and its boundary-fixed local dofs lie inside it)
    and, unless there is no patch at all, [matrix_callable] returns.  It does
    only if, unless there is no patch at all, [matrix_callable] returns, and
    every offset that a turn of the loop indexes is there.
    [matrix_callable] returns exactly when it is cached, or the kernels are,
    or every compiled kernel passes the assertions of [kernels]. *)
Theorem matrices_returns_iff (W : FunctionSpace) self :
  cached_matrices self = None →
  let n := length (offset (dof_patches self)) - 1 in
  ((∀ i, i < n → patch_ok self (dof_dset_cdim W) i) →
   (n = 0 ∨ ∃ mc c, matrix_callable self = Ok (mc, c)) →
   ∃ ms c, matrices (Some W) self = Ok (ms, c))
  ∧ ((∃ ms c, matrices (Some W) self = Ok (ms, c)) →
     (n = 0 ∨ ∃ mc c, matrix_callable self = Ok (mc, c))
     ∧ ∀ i, i < n →
         is_Some (offset (glob_patches self) !! i)
         ∧ is_Some (offset (glob_patches self) !! (i + 1))
         ∧ is_Some (offset (cells self) !! i)
         ∧ is_Some (offset (cells self) !! (i + 1))
         ∧ is_Some (offset (bc_patches self) !! i)
         ∧ is_Some (offset (bc_patches self) !! (i + 1)))
  ∧ ((∃ mc c, matrix_callable self = Ok (mc, c))
     ↔ is_Some (cached_matrix_callable self) ∨ is_Some (cached_kernels self)
       ∨ ∃ ks, kernels tsfc_compile_form self = Ok ks).
Proof.
  intros Hc n. split_and!.
  - intros Hok Hcall. by apply matrices_returns.
  - intros (ms & c & Hm).
    pose proof (matrices_uncached _ _ _ _ Hc Hm) as [(c1 & _ & _ & Hc1) Hall].
    split.
    { destruct Hc1 as [[Hn _]|[mc Hmc]]; [by left|]. right. by exists mc, c1. }
    intros i Hi.
    destruct (Forall2_lookup_l _ _ _ i i Hall) as (m & _ & Hpm).
    { by apply lookup_seq_lt. }
    assert (patch_ok self (dof_dset_cdim W) i
            ∧ ∃ mc c, matrix_callable self = Ok (mc, c))
      as [(_ & Hc0 & Hc1' & g0 & g1 & rows & Hg0 & Hg1 & _ & Hrows & _) _].
    { apply patch_matrix_returns; [|by exists m].
      apply lookup_lt_is_Some_2. unfold n in Hi. lia. }
    apply patch_slice_Ok in Hrows as (lo & hi & Hlo & Hhi & _).
    split_and!; eauto.
  - apply matrix_callable_returns.
Qed.

(** X18.  The patch matrices are square, and symmetric when the element
    kernel fills symmetric entries: eliminating the boundary-fixed dofs by
    rows and columns keeps the symmetry.  The element kernel is the callable
    that [matrix_callable] returns on the context. *)
Theorem patch_matrices_symmetric (W : FunctionSpace) self ms c :
  cached_matrices self = None →
  (∀ mc c', matrix_callable self = Ok (mc, c') →
     ∀ n cs mm k j, mc n cs mm k j = mc n cs mm j k) →
  matrices (Some W) self = Ok (ms, c) →
  ∀ m, m ∈ ms → nrows m = ncols m ∧ ∀ k j, entry m k j = entry m j k.
Proof.
  intros Hc Hsym Hm m Hin.
  apply matrices_uncached in Hm as [_ Hall]; [|done].
  apply list_elem_of_lookup in Hin as [i Hi].
  destruct (Forall2_lookup_r _ _ _ _ _ Hall Hi) as (i' & _ & Hpm).
  apply patch_matrix_Ok in Hpm
    as (g0 & g1 & rows & _ & _ & _ & _ & _ & _ & Hn & Hcols & mc & c' & Hmc & Hentry).
  split; [by rewrite Hn, Hcols|]. intros k j. rewrite !Hentry.
  rewrite orb_comm. destruct (_ || _); [|by apply (Hsym mc c')].
  repeat case_decide; congruence.
Qed.

End matrices_return.

(** ** pulley.py: what [PatchPC.apply] writes and what it reads *)

Lemma np_reshape_returns {A} (bsize n : nat) (v : list A) :
  bsize ≠ 0 → length v = n * bsize →
  ∃ rows, np_reshape bsize v = Ok rows ∧ length rows = n.
Proof.
  intros Hb Hv. unfold np_reshape. rewrite decide_False by done.
  rewrite Hv, Nat.Div0.mod_mul, decide_True by done.
  eexists. split; [done|].
  by rewrite length_reshape, length_replicate, Nat.div_mul.
Qed.

Section apply_footprint.
Import pulley.
Context {R : Type} `{Scalar R} `{Backend R}.
Implicit Types (c : SubspaceCorrectionPrec R) (self : PatchPC R)
  (x y ly b : list R) (m : Mat R).

Lemma scatter_add_outside c bsize y i ly y' :
  scatter_add c bsize y (i, ly) = Ok y' →
  length y' = length y
  ∧ ∀ dofs g comp,
      patch_slice (glob_patches c) i = Ok dofs → g ∉ dofs → comp < bsize →
      y' !! (bsize * g + comp) = y !! (bsize * g + comp).
Proof.
  intros Hs. apply scatter_add_reshape in Hs as (yr & zs & Hyr & Hzs & -> & _).
  pose proof (scatter_plan_widths _ _ _ _ _ Hzs) as Hzw.
  apply np_reshape_Ok in Hyr as (Hbs & <- & Hyw & _).
  assert (Forall (λ r, length r = bsize) (bump zs yr)) as Hbw.
  { by apply bump_widths. }
  split.
  - rewrite !(length_join_uniform bsize) by done. by rewrite length_bump.
  - intros dofs g comp Hdofs Hg Hcomp.
    unfold scatter_plan in Hzs. simpl in Hzs. rewrite Hdofs in Hzs. simpl in Hzs.
    case_guard as Hrange; simpl in Hzs; [|done].
    destruct (np_reshape bsize ly) as [lr|e]; simpl in Hzs; [|done].
    destruct (np_broadcast (length dofs) lr) as [lr'|e]; simpl in Hzs; [|done].
    injection Hzs as <-.
    rewrite !(lookup_join_uniform bsize) by done. rewrite lookup_bump.
    rewrite assigned_not_elem by done. by destruct (yr !! g).
Qed.

Lemma scatter_loop_outside c bsize (tmp : list (nat * list R)) y y' :
  foldM (scatter_add c bsize) tmp y = Ok y' →
  length y' = length y
  ∧ ∀ g comp,
      (∀ i dofs, patch_slice (glob_patches c) i = Ok dofs → g ∉ dofs) →
      comp < bsize →
      y' !! (bsize * g + comp) = y !! (bsize * g + comp).
Proof.
  revert y. induction tmp as [|[i ly] tmp IH]; intros y; simpl.
  { by intros [= <-]. }
  intros Hloop. apply bind_Ok in Hloop as (y1 & Hadd & Hloop).
  destruct (IH _ Hloop) as [Hlen Hout].
  destruct (scatter_add_outside _ _ _ _ _ _ Hadd) as [Hlen1 Hout1].
  split; [congruence|]. intros g comp Hg Hcomp.
  rewrite (Hout g comp Hg Hcomp).
  destruct (patch_slice (glob_patches c) i) as [dofs|e] eqn:Hdofs.
  - by apply (Hout1 dofs g comp eq_refl (Hg i dofs Hdofs)).
  - discriminate Hadd.
Qed.

(** X19.  [PatchPC.apply] keeps the size of [y], and at the nodes that lie
    in no patch it leaves zeros, whatever [x] holds there and whatever [y]
    held before. *)
Theorem PatchPC_apply_outside_patches gV self x y y' (self' : PatchPC R) :
  PatchPC_apply gV self x y = Ok (y', self') →
  length y' = length y
  ∧ ∀ g comp,
      (∀ i dofs, patch_slice (glob_patches (ctx self)) i = Ok dofs → g ∉ dofs) →
      comp < dim (V (ctx self)) →
      dim (V (ctx self)) * g + comp < length y →
      y' !! (dim (V (ctx self)) * g + comp) = Some s0.
Proof.
  rewrite PatchPC_apply_eq. unfold vec_set0. intros Happly.
  apply bind_Ok in Happly as ([ms c] & Hm & Happly).
  apply bind_Ok in Happly as (tmp_ys & _ & Happly).
  apply bind_Ok in Happly as (y2 & Hadd & Happly).
  injection Happly as <- <-.
  apply matrices_Ok_cached in Hm as [_ Hattr]. same_attributes Hattr.
  apply scatter_loop_outside in Hadd as [Hlen Hout]. rewrite Hglob in Hout.
  rewrite length_replicate in Hlen. split; [done|].
  intros g comp Hg Hcomp Hrange. rewrite (Hout g comp Hg Hcomp).
  by apply lookup_replicate_2.
Qed.

(** X20.  With no patch at all, [PatchPC.apply] returns the zero vector of
    the size of [y] for every [x], of whatever size: nothing is read from
    [x], and the empty tuple of matrices is cached. *)
Theorem PatchPC_apply_no_patches (W : FunctionSpace) self x y :
  cached_matrices (ctx self) = None →
  length (offset (dof_patches (ctx self))) ≤ 1 →
  PatchPC_apply (Some W) self x y
  = Ok (replicate (length y) s0,
        {| ksp := ksp self; ctx := set_cached_matrices (ctx self) [] |}).
Proof.
  intros Hc Hlen. rewrite PatchPC_apply_eq. unfold matrices, vec_set0. rewrite Hc.
  replace (length (offset (dof_patches (ctx self))) - 1) with 0 by lia. done.
Qed.

Lemma local_rhs_returns c bsize x i m dofs bcd n :
  patch_slice (glob_patches c) i = Ok dofs →
  patch_slice (bc_patches c) i = Ok bcd →
  bsize ≠ 0 → length x = n * bsize → Forall (λ g, g < n) dofs →
  nrows m = length dofs * bsize → Forall (λ k, k < length dofs) bcd →
  ∃ b, local_rhs c bsize x (i, m) = Ok b.
Proof.
  intros Hd Hb Hbs Hx Hr Hn Hbc. unfold local_rhs. rewrite Hd, Hb. simpl.
  destruct (np_reshape_returns bsize n x Hbs Hx) as (xr & -> & Hxr). simpl.
  destruct (np_take_in_range xr dofs) as (rhs & -> & Hrhs); [by rewrite Hxr|]. simpl.
  unfold createVec. rewrite Hn, np_reshape_replicate by done. simpl.
  rewrite length_replicate, np_broadcast_same by done. simpl.
  unfold np_put_const. rewrite decide_True by (by rewrite Hrhs). by eexists.
Qed.

(** X21.  The right-hand side of a patch reads [x] only at the dofs of the
    patch that are not boundary-fixed: two residuals of one size that agree
    there give the same right-hand side.  (The matrix of the patch has one
    row per dof and component of the patch.) *)
Theorem local_rhs_reads_free_dofs c bsize x x' i m b dofs bcd :
  local_rhs c bsize x (i, m) = Ok b →
  patch_slice (glob_patches c) i = Ok dofs →
  patch_slice (bc_patches c) i = Ok bcd →
  nrows m = length dofs * bsize →
  length x' = length x →
  (∀ k g comp, dofs !! k = Some g → k ∉ bcd → comp < bsize →
     x' !! (bsize * g + comp) = x !! (bsize * g + comp)) →
  local_rhs c bsize x' (i, m) = Ok b.
Proof.
  intros Hb Hdofs Hbcd Hn Hlen Hagree.
  destruct (local_rhs_entries _ _ _ _ _ _ _ _ Hb Hdofs Hbcd Hn) as [Hlb Hentries].
  pose proof Hb as Hb0. apply local_rhs_Ok in Hb0
    as (dofs' & bcd' & xr & rhs & br & Hdofs' & Hbcd' & Hxr & Hrhs & Hbr & Hbcr & _).
  rewrite Hdofs in Hdofs'. rewrite Hbcd in Hbcd'.
  injection Hdofs' as <-. injection Hbcd' as <-.
  pose proof (np_reshape_Ok _ _ _ Hxr) as (Hbs & _ & _ & Hxlen).
  pose proof (np_take_Ok_range _ _ _ Hrhs) as Hrange.
  apply np_broadcast_Ok in Hbr as [Hbrlen _].
  rewrite Hbrlen, Hn, Nat.div_mul in Hbcr by done.
  destruct (local_rhs_returns c bsize x' i m dofs bcd (length xr)) as [b' Hb'];
    try done; [congruence|].
  rewrite Hb'. f_equal.
  destruct (local_rhs_entries _ _ _ _ _ _ _ _ Hb' Hdofs Hbcd Hn) as [Hlb' Hentries'].
  apply list_eq. intros j.
  destruct (decide (j < length dofs * bsize)) as [Hj|Hj].
  - assert (∃ k comp, j = bsize * k + comp ∧ k < length dofs ∧ comp < bsize)
      as (k & comp & -> & Hk & Hcomp).
    { exists (j `div` bsize), (j `mod` bsize). split_and!.
      - apply Nat.div_mod_eq.
      - apply Nat.Div0.div_lt_upper_bound. lia.
      - by apply Nat.mod_upper_bound. }
    destruct (lookup_lt_is_Some_2 dofs _ Hk) as [g Hg].
    rewrite (Hentries _ g _ Hg Hcomp), (Hentries' _ g _ Hg Hcomp).
    case_decide; [done|]. by apply (Hagree k g comp).
  - rewrite !(proj2 (lookup_ge_None _ _)); [done|lia..].
Qed.

End apply_footprint.

(** ** pulley.py: the sizes in [P1PC.apply] *)

Section coarse_sizes.
Import pulley.
Context {R : Type} `{Scalar R} `{Backend R}.
Implicit Types (self : P1PC R) (x y w : list R).

(** X22.  [P1PC.apply] returns only for an [x] and a [y] with one entry per
    column of the transfer matrix, and then returns a [y] of that size; the
    operator, the transfer matrix and the prefix of the instance stay, and
    the work vectors keep one entry per row of the transfer matrix, so that
    the instance can be applied again.  When it raises, either a size was
    wrong (PETScError), or the coarse solver raised on the restricted
    residual. *)
Theorem P1PC_apply_sizes self x y :
  length (work1 self) = nrows (transfer self) →
  match P1PC_apply self x y with
  | Ok (y', self') =>
      length x = ncols (transfer self) ∧ length y = ncols (transfer self)
      ∧ length y' = length y
      ∧ length (work1 self') = nrows (transfer self)
      ∧ length (work2 self') = length (work2 self)
      ∧ transfer self' = transfer self
      ∧ pc_operator self' = pc_operator self ∧ pc self' = pc self
  | Raise e =>
      e = PETScError
      ∧ (length x ≠ ncols (transfer self) ∨ length y ≠ ncols (transfer self)
         ∨ length (work2 self) ≠ nrows (transfer self))
      ∨ ∃ w1, P1PC_restrict self x = Ok w1
              ∧ length w1 = nrows (transfer self)
              ∧ pc_apply (pc self) (pc_operator self) w1 = Raise e
  end.
Proof.
  intros Hw1. unfold P1PC_apply.
  destruct (P1PC_restrict self x) as [w1|e] eqn:Hr; simpl.
  2: { left. unfold P1PC_restrict, Mat_mult, vec_set0 in Hr.
       rewrite length_replicate in Hr. case_decide as Hd; [done|].
       injection Hr as <-. split; [done|]. left. intros Hx. by apply Hd. }
  assert (length x = ncols (transfer self) ∧ length w1 = nrows (transfer self))
    as [Hx Hw1len].
  { unfold P1PC_restrict, Mat_mult, vec_set0 in Hr.
    rewrite length_replicate in Hr. case_decide as Hd; [|done].
    injection Hr as <-. rewrite length_fmap, length_seq. by destruct Hd. }
  destruct (pc_apply (pc self) (pc_operator self) w1) as [sol|e] eqn:Hsol; simpl.
  2: { right. by exists w1. }
  unfold P1PC_prolong. rewrite Mat_multTranspose_transpose.
  unfold Mat_mult, vec_set0. simpl. rewrite length_replicate, length_resize.
  destruct (decide (length (work2 self) = nrows (transfer self)
                    ∧ length y = ncols (transfer self))) as [[Hw2 Hy]|Hnot]; simpl.
  - rewrite length_fmap, length_seq, length_resize. split_and!; done.
  - left. split; [done|]. right.
    destruct (decide (length y = ncols (transfer self))) as [Hy|Hy]; [|by left].
    right. intros Hw2. by apply Hnot.
Qed.

End coarse_sizes.

(** ** pulley.py: [PatchPC.apply] on well-formed patches *)

Lemma lookup_enumerate {A} (l : list A) (k i : nat) (x : A) :
  enumerate l !! k = Some (i, x) ↔ i = k ∧ l !! k = Some x.
Proof.
  unfold enumerate. rewrite lookup_zip_with_Some. split.
  - intros (i' & x' & [= -> ->] & Hi & Hx). apply lookup_seq in Hi as [-> _]. done.
  - intros [-> Hx]. exists k, x. split_and!; try done.
    apply lookup_seq. split; [done|]. by eapply lookup_lt_Some.
Qed.

Section apply_returns.
Import pulley.
Context {R : Type} `{Scalar R} `{Backend R}.
Implicit Types (c : SubspaceCorrectionPrec R) (self : PatchPC R)
  (x y ly b : list R) (m : Mat R).
#[local] Arguments scatter_add : simpl never.
#[local] Arguments local_solve : simpl never.
#[local] Arguments matrices : simpl never.

Lemma scatter_add_returns c bsize y i ly dofs n :
  patch_slice (glob_patches c) i = Ok dofs →
  bsize ≠ 0 → length y = n * bsize → Forall (λ g, g < n) dofs →
  length ly = length dofs * bsize →
  ∃ y', scatter_add c bsize y (i, ly) = Ok y' ∧ length y' = length y.
Proof.
  intros Hd Hbs Hy Hr Hly.
  assert (∃ y', scatter_add c bsize y (i, ly) = Ok y') as [y' Hy'].
  { unfold scatter_add. rewrite Hd. simpl.
    destruct (np_reshape_returns bsize n y Hbs Hy) as (yr & -> & Hyr). simpl.
    destruct (np_take_in_range yr dofs) as (tmp & -> & Htmp); [by rewrite Hyr|]. simpl.
    destruct (np_reshape_returns bsize (length dofs) ly Hbs Hly) as (lr & -> & Hlr).
    simpl. rewrite np_broadcast_same by congruence. simpl. by eexists. }
  exists y'. split; [done|]. by apply scatter_add_outside in Hy' as [? _].
Qed.

Lemma scatter_loop_returns c bsize n (tmp : list (nat * list R)) y :
  bsize ≠ 0 → length y = n * bsize →
  Forall (λ ily, ∃ dofs, patch_slice (glob_patches c) ily.1 = Ok dofs
                         ∧ Forall (λ g, g < n) dofs
                         ∧ length ily.2 = length dofs * bsize) tmp →
  ∃ y', foldM (scatter_add c bsize) tmp y = Ok y'.
Proof.
  intros Hbs Hy Htmp. revert y Hy.
  induction Htmp as [|[i ly] tmp (dofs & Hd & Hr & Hly) _ IH]; intros y Hy; simpl.
  { by eexists. }
  destruct (scatter_add_returns c bsize y i ly dofs n Hd Hbs Hy Hr Hly)
    as (y1 & Hy1 & Hlen).
  rewrite Hy1. simpl. apply IH. congruence.
Qed.

(** X23.  [PatchPC.apply] returns, and returns a vector of the size of [y],
    whenever the global [V] is the space of the context, [x] and [y] hold
    [n] whole rows of the block size, every patch is well formed, lists its
    dofs inside its array and names nodes below [n] only, [matrix_callable]
    returns on the context (it is cached, or the kernels are, or every
    compiled kernel passes the assertions of [kernels]), and the local
    solver returns on every system it is handed.  No exception is raised on
    the way: not by an index, not by a reshape, not by a broadcast. *)
Theorem PatchPC_apply_returns self x y n :
  cached_matrices (ctx self) = None →
  dim (V (ctx self)) ≠ 0 →
  length x = n * dim (V (ctx self)) →
  length y = n * dim (V (ctx self)) →
  (∀ i, i < length (offset (dof_patches (ctx self))) - 1 →
     patch_ok (ctx self) (dim (V (ctx self))) i
     ∧ (∀ g1, offset (glob_patches (ctx self)) !! (i + 1) = Some g1 →
              g1 ≤ length (value (glob_patches (ctx self))))
     ∧ (∀ dofs, patch_slice (glob_patches (ctx self)) i = Ok dofs →
                Forall (λ g, g < n) dofs)) →
  (is_Some (cached_matrix_callable (ctx self)) ∨ is_Some (cached_kernels (ctx self))
   ∨ ∃ ks, kernels tsfc_compile_form (ctx self) = Ok ks) →
  (∀ m b, length b = nrows m →
          ∃ sol, ksp_solve (ksp_prefix (ksp self)) m b = Ok sol) →
  ∃ y' self', PatchPC_apply (Some (V (ctx self))) self x y = Ok (y', self')
              ∧ length y' = length y.
Proof.
  intros Hc Hbs Hx Hy Hwf Hcall Hsolve.
  apply matrix_callable_returns in Hcall.
  destruct (matrices_returns (V (ctx self)) (ctx self) Hc) as (ms & c & Hms).
  { by right. }
  { intros i Hi. by apply Hwf. }
  pose proof (matrices_uncached _ _ _ _ Hc Hms) as [_ Hall].
  pose proof (matrices_Ok_cached _ _ _ _ Hms) as [_ Hattr]. same_attributes Hattr.
  (* what is known of patch [i] and its matrix *)
  assert (∀ i m, ms !! i = Some m →
            ∃ dofs bcd,
              patch_slice (glob_patches c) i = Ok dofs
              ∧ patch_slice (bc_patches c) i = Ok bcd
              ∧ Forall (λ g, g < n) dofs
              ∧ nrows m = length dofs * dim (V (ctx self))
              ∧ Forall (λ k, k < length dofs) bcd) as Hpatch.
  { intros i m Hi. rewrite Hglob, Hbc.
    destruct (Forall2_lookup_r _ _ _ _ _ Hall Hi) as (i' & Hi' & Hpm).
    apply lookup_seq in Hi' as [-> Hlt]. simpl in Hpm.
    destruct (Hwf i Hlt) as (_ & Hval & Hrange).
    apply patch_matrix_Ok in Hpm
      as (g0 & g1 & rows & Hg0 & Hg1 & Hle & _ & Hrows & Hexp & Hn & _).
    exists (np_slice (value (glob_patches (ctx self))) g0 g1), rows.
    assert (patch_slice (glob_patches (ctx self)) i
            = Ok (np_slice (value (glob_patches (ctx self))) g0 g1)) as Hd.
    { apply patch_slice_Ok. by exists g0, g1. }
    rewrite length_np_slice by (done || by apply Hval).
    split_and!; try done; [by apply Hrange|].
    by apply (expand_rows_in_range (dof_dset_cdim (V (ctx self))) (g1 - g0)). }
  (* the first loop *)
  destruct (mapM_returns
              (local_solve self c (dim (V (ctx self))) x) (enumerate ms))
    as [tmp_ys Htmp].
  { apply Forall_lookup. intros k [i m] Hk.
    apply lookup_enumerate in Hk as [-> Hm].
    destruct (Hpatch k m Hm) as (dofs & bcd & Hd & Hb & Hr & Hn & Hbcd).
    destruct (local_rhs_returns c (dim (V (ctx self))) x k m dofs bcd n)
      as [b Hb']; try done.
    pose proof (local_rhs_entries _ _ _ _ _ _ _ _ Hb' Hd Hb Hn) as [Hlen _].
    destruct (Hsolve m b Hlen) as [sol Hsol].
    rewrite local_solve_eq, Hb'. simpl. rewrite Hsol. simpl. by eexists. }
  (* the second loop *)
  pose proof (mapM_Ok_length _ _ _ Htmp) as Hlen_tmp.
  apply mapM_Ok in Htmp as Hsolved.
  destruct (scatter_loop_returns c (dim (V (ctx self))) n (enumerate tmp_ys)
              (replicate (length y) s0)) as [y' Hy']; try done.
  { by rewrite length_replicate. }
  { apply Forall_lookup. intros k [i ly] Hk.
    apply lookup_enumerate in Hk as [-> Hly].
    destruct (Forall2_lookup_r _ _ _ _ _ Hsolved Hly) as ([i m] & Him & Hsol).
    apply lookup_enumerate in Him as [-> Hm].
    destruct (Hpatch k m Hm) as (dofs & bcd & Hd & _ & Hr & Hn & _).
    exists dofs. split_and!; try done. simpl.
    apply local_solve_length in Hsol. simpl in Hsol. congruence. }
  exists y', {| ksp := KSP_after (ksp self) (enumerate ms); ctx := c |}.
  pose proof (scatter_loop_outside _ _ _ _ _ Hy') as [Hlen _].
  rewrite length_replicate in Hlen. split; [|done].
  rewrite PatchPC_apply_eq. unfold vec_set0.
  change (dof_dset_cdim (V (ctx self))) with (dim (V (ctx self))) in *.
  rewrite Hms. simpl. rewrite Htmp. simpl. rewrite Hy'. done.
Qed.

End apply_returns.

(** ** Runs of the further properties *)

Section halo_runs.
Import halo fixtures.

Lemma get_mtype_memoised_witness :
  let st1 := (_get_mtype MPI_new st0 (dat_on float64 3)).1 in
  let st2 := (_get_mtype MPI_ints st0 (dat_on int64_l 1)).1 in
  _get_mtype MPI_new st0 (dat_on float64 3)
    = (st1, Ok (Contiguous 3 (Builtin "MPI_DOUBLE")))
  ∧ committed st1 = [Contiguous 3 (Builtin "MPI_DOUBLE")]
  ∧ _get_mtype MPI_bare st1 (dat_on float64 3)
    = (st1, Ok (Contiguous 3 (Builtin "MPI_DOUBLE")))
  ∧ (_get_mtype MPI_ints st0 (dat_on int64_q 1)).2 = Ok (Builtin "MPI_LONG_LONG")
  ∧ _get_mtype MPI_ints st2 (dat_on int64_q 1) = (st2, Ok (Builtin "MPI_LONG")).
Proof.
  split; [reflexivity|]. split; [reflexivity|]. split.
  { exact (get_mtype_memoised MPI_new MPI_bare st0 _ (dat_on float64 3)
             (dat_on float64 3) _ eq_refl eq_refl eq_refl). }
  split; [reflexivity|].
  exact (get_mtype_memoised MPI_ints MPI_ints st0 _ (dat_on int64_l 1)
           (dat_on int64_q 1) _ eq_refl eq_refl eq_refl).
Defined.

Lemma get_mtype_raise_witness :
  _get_mtype MPI_bare st0 (dat_on float64 3) = (st0, Raise AttributeError)
  ∧ _get_mtype MPI_old st0 (dat_on int128 1) = (st0, Raise RuntimeError)
  ∧ _MPI_types st0 !! mtype_key (dat_on int128 1) = None.
Proof.
  split; [reflexivity|]. split; [reflexivity|].
  exact (proj1 (proj2 (get_mtype_raise MPI_old st0 (dat_on int128 1) st0
                         RuntimeError eq_refl))).
Defined.

Lemma get_mtype_commits_witness :
  let st1 := (_get_mtype MPI_old st0 (dat_on float64 3)).1 in
  let st2 := (_get_mtype MPI_old st1 (dat_on float64 1)).1 in
  committed st2 = [Contiguous 3 (Builtin "MPI_DOUBLE")]
  ∧ length (committed st2) ≤ size (_MPI_types st2).
Proof.
  intros st1 st2. split; [reflexivity|].
  refine (proj2 (get_mtype_commits MPI_old st1 (dat_on float64 1) st2
                   (Ok (Builtin "MPI_DOUBLE")) eq_refl) _).
  refine (proj2 (get_mtype_commits MPI_old st0 (dat_on float64 3) st1
                   (Ok (Contiguous 3 (Builtin "MPI_DOUBLE"))) eq_refl) _).
  apply Nat.le_0_l.
Defined.

Lemma get_mtype_datatype_witness :
  let st1 := (_get_mtype MPI_ints st0 (dat_on int64_l 1)).1 in
  _get_mtype MPI_ints st0 (dat_on int64_l 1) = (st1, Ok (Builtin "MPI_LONG"))
  ∧ (_get_mtype MPI_ints st1 (dat_on int64_q 3)).2
    = Ok (Contiguous 3 (Builtin "MPI_LONG_LONG"))
  ∧ _get_mtype MPI_ints st1 (dat_on int64_q 1) = (st1, Ok (Builtin "MPI_LONG"))
  ∧ int_types !! "q" = Some (Builtin "MPI_LONG_LONG")
  ∧ ∃ ch b, int_types !! ch = Some b
            ∧ Builtin "MPI_LONG" = (if decide (1 = 1) then b else Contiguous 1 b)
            ∧ (_MPI_types st1 !! mtype_key (dat_on int64_q 1) = None → ch = "q").
Proof.
  intros st1.
  split; [reflexivity|]. split; [reflexivity|]. split; [reflexivity|].
  split; [reflexivity|].
  refine (proj1 (get_mtype_datatype MPI_ints int_types st1 (dat_on int64_q 1) st1
                   (Builtin "MPI_LONG") eq_refl _ eq_refl)).
  refine (proj2 (get_mtype_datatype MPI_ints int_types st0 (dat_on int64_l 1) st1
                   (Builtin "MPI_LONG") eq_refl _ eq_refl)).
  intros dt n t0 Hhit. unfold st0 in Hhit. simpl in Hhit.
  by rewrite lookup_empty in Hhit.
Defined.

Lemma Halo_end_after_begin_witness :
  let w1 := (Halo_begin two_processes MPI_new halo2 (dat_on float64 3) false world0).1 in
  Halo_begin two_processes MPI_new halo2 (dat_on float64 3) false world0 = (w1, Ok ())
  ∧ ∃ w2 d, Halo_end two_processes doubled MPI_new halo2 (dat_on float64 3) false w1
            = (w2, d, Ok ())
            ∧ committed (mpi_state w2) = committed (mpi_state w1)
            ∧ values (_data d) = [2; 4; 6]%Z
            ∧ WRITEABLE (_data d) = false.
Proof.
  intros w1. split; [reflexivity|].
  destruct (Halo_end_after_begin two_processes doubled MPI_new halo2 sf_basic
              (dat_on float64 3) false false world0 w1 eq_refl
              ltac:(discriminate) eq_refl)
    as (mtype & d1 & d3 & Hex & Hend & Hv1 & Hw1 & Hv3 & Hw3 & _).
  eexists _, d3. split; [exact Hend|]. split; [reflexivity|].
  split; [|exact Hw3].
  rewrite Hv3. unfold doubled. rewrite Hv1. reflexivity.
Defined.

End halo_runs.

Section pulley_runs.
Import pulley examples fixtures.
#[local] Existing Instance Z_Scalar.
#[local] Existing Instance Z_backend.

Lemma init_transfer_kernel_witness :
  SubspaceCorrectionPrec_init (form_on Vvector) (BcOne (bc_on Vvector)) = Ok scp_vector
  ∧ shape (P1 scp_vector) = shape (V scp_vector)
  ∧ ∃ k, transfer_kernel space_dimension riesz_matrix scp_vector false = Ok k
         ∧ out_shape k = [4; 2; 2; 2]
         ∧ space_dimension (P1 scp_vector) ≤ space_dimension (V scp_vector).
Proof.
  split; [reflexivity|].
  pose proof (init_transfer_kernel space_dimension riesz_matrix (form_on Vvector)
                (BcOne (bc_on Vvector)) scp_vector false eq_refl) as [Hshape Hk].
  split; [exact Hshape|]. eexists. split; [reflexivity|]. split; [reflexivity|].
  exact (proj1 Hk).
Defined.

Lemma matrices_evaluated_once_witness :
  ∃ ms c, matrices (Some Vscalar) scp_scalar = Ok (ms, c)
          ∧ length ms = 3
          ∧ cached_kernels c = Some [0]
          ∧ is_Some (cached_matrix_callable c)
          ∧ (matrices None c = Ok (ms, c)
             ∧ cached_matrices c = Some ms
             ∧ attributes c = attributes scp_scalar
             ∧ (cached_P1_form c, cached_P1_bcs c, cached_P1_op c, cached_transfer_op c)
               = (None, None, None, None)).
Proof.
  eexists _, _. split; [reflexivity|]. split; [reflexivity|].
  split; [reflexivity|]. split; [eexists; reflexivity|].
  exact (matrices_evaluated_once Z_backend (Some Vscalar) None scp_scalar _ _ eq_refl).
Defined.

Lemma PatchPC_apply_repeatable_witness :
  ∃ y1 self1,
    PatchPC_apply (Some Vscalar) smoother_scalar x4 [5; 5; 5; 5]%Z = Ok (y1, self1)
    ∧ y1 = [0; 40; 30; 40]%Z
    ∧ PatchPC_apply None self1 x4 [7; 7; 7; 7]%Z = Ok (y1, self1).
Proof.
  eexists _, _. split; [reflexivity|]. split; [reflexivity|].
  exact (PatchPC_apply_repeatable (Some Vscalar) None smoother_scalar _ x4
           [5; 5; 5; 5]%Z [7; 7; 7; 7]%Z _ eq_refl eq_refl).
Defined.

Lemma init_patches_witness :
  ∃ self bc_nodes,
    SubspaceCorrectionPrec_init (form_on Vscalar)
      (BcSeq [bc_at Vscalar [3; 1]; bc_at Vscalar [1; 0]]) = Ok self
    ∧ bcs self = [bc_at Vscalar [3; 1]; bc_at Vscalar [1; 0]]
    ∧ StronglySorted lt bc_nodes
    ∧ (∀ n, n ∈ bc_nodes ↔ ∃ bc, bc ∈ bcs self ∧ n ∈ nodes bc)
    ∧ (dof_patches self, glob_patches self, bc_patches self)
      = get_dof_patches mesh0 Vscalar bc_nodes (cells self) (facets self).
Proof.
  set (self := match SubspaceCorrectionPrec_init (form_on Vscalar)
                       (BcSeq [bc_at Vscalar [3; 1]; bc_at Vscalar [1; 0]]) with
               | Ok self => self
               | Raise _ => scp_scalar
               end).
  exists self.
  assert (SubspaceCorrectionPrec_init (form_on Vscalar)
            (BcSeq [bc_at Vscalar [3; 1]; bc_at Vscalar [1; 0]]) = Ok self) as Hinit.
  { vm_compute. reflexivity. }
  destruct (init_patches (form_on Vscalar)
              (BcSeq [bc_at Vscalar [3; 1]; bc_at Vscalar [1; 0]]) self Hinit)
    as (bc_nodes & Hbcs & Hsorted & Hin & _ & Hpatches).
  exists bc_nodes. split; [exact Hinit|]. split; [exact Hbcs|].
  split; [exact Hsorted|]. split; [exact Hin|]. exact Hpatches.
Defined.

Lemma scp_scalar_patches_ok i : i < 3 → patch_ok scp_scalar 1 i.
Proof.
  intros Hi. assert (i = 0 ∨ i = 1 ∨ i = 2) as [-> | [-> | ->]] by lia.
  all: split; [discriminate|]; split; [by eexists|]; split; [by eexists|];
    eexists _, _, _; split; [reflexivity|]; split; [reflexivity|];
    split; [vm_compute; lia|]; split; [reflexivity|]; repeat constructor.
Qed.

Lemma matrices_returns_iff_witness :
  cached_matrices scp_scalar = None
  ∧ kernels tsfc_compile_form scp_scalar = Ok [0]
  ∧ (∃ mc c, matrix_callable scp_scalar = Ok (mc, c))
  ∧ (∃ ms c, matrices (Some Vscalar) scp_scalar = Ok (ms, c))
  ∧ is_Some (offset (bc_patches scp_scalar) !! 3).
Proof.
  pose proof (matrices_returns_iff Vscalar scp_scalar eq_refl) as Hthm.
  cbv zeta in Hthm. destruct Hthm as (Hif & Honly & Hcall).
  assert (∃ mc c, matrix_callable scp_scalar = Ok (mc, c)) as Hmc.
  { apply Hcall. right. right. exists [0]. reflexivity. }
  assert (∃ ms c, matrices (Some Vscalar) scp_scalar = Ok (ms, c)) as Hret.
  { apply Hif; [|by right]. intros i Hi. by apply scp_scalar_patches_ok. }
  split; [reflexivity|]. split; [reflexivity|]. split; [exact Hmc|].
  split; [exact Hret|].
  destruct (Honly Hret) as [_ Hoff].
  destruct (Hoff 2) as (_ & _ & _ & _ & _ & Hbc); [vm_compute; lia|]. exact Hbc.
Defined.

Lemma patch_matrices_symmetric_witness :
  ∃ ms c, matrices (Some Vscalar) scp_scalar = Ok (ms, c)
          ∧ length ms = 3
          ∧ ∀ m, m ∈ ms → nrows m = ncols m ∧ ∀ k j, entry m k j = entry m j k.
Proof.
  eexists _, _. split; [reflexivity|]. split; [reflexivity|].
  refine (patch_matrices_symmetric Vscalar scp_scalar _ _ eq_refl _ eq_refl).
  intros mc c' Hmc. injection Hmc as <- _.
  intros n cs mm k j. simpl. repeat case_decide; congruence.
Defined.

Lemma PatchPC_apply_outside_patches_witness :
  ∃ y' self',
    PatchPC_apply (Some Vscalar) smoother_scalar x5 [5; 5; 5; 5; 5]%Z = Ok (y', self')
    ∧ length y' = 5 ∧ y' !! 4 = Some 0%Z.
Proof.
  destruct (PatchPC_apply (Some Vscalar) smoother_scalar x5 [5; 5; 5; 5; 5]%Z)
    as [[y' self']|e] eqn:Happly; [|vm_compute in Happly; discriminate Happly].
  exists y', self'. split; [reflexivity|].
  destruct (PatchPC_apply_outside_patches (Some Vscalar) smoother_scalar x5
              [5; 5; 5; 5; 5]%Z y' self' Happly) as [Hlen Hout].
  split; [exact Hlen|]. refine (Hout 4 0 _ _ _).
  - intros i dofs Hd.
    destruct i as [|[|[|[|i]]]]; vm_compute in Hd; try discriminate Hd;
      injection Hd as <-; intros Hin;
      repeat (apply elem_of_cons in Hin as [Hin|Hin]; [discriminate Hin|]);
      by apply elem_of_nil in Hin.
  - vm_compute. lia.
  - vm_compute. lia.
Defined.

Lemma PatchPC_apply_no_patches_witness :
  PatchPC_apply (Some Vscalar) (PatchPC_setUp (outer_pc scp_empty)) x5 [5; 5]%Z
  = Ok ([0; 0]%Z,
        {| ksp := {| ksp_prefix := "sub_"; ksp_operators := None |};
           ctx := set_cached_matrices scp_empty [] |}).
Proof.
  exact (PatchPC_apply_no_patches Vscalar (PatchPC_setUp (outer_pc scp_empty)) x5
           [5; 5]%Z eq_refl (le_n 1)).
Defined.

Lemma local_rhs_reads_free_dofs_witness :
  local_rhs scp_scalar 1 x4 (0, patch0_matrix) = Ok [0; 20]%Z
  ∧ local_rhs scp_scalar 1 [99; 20; 77; 88]%Z (0, patch0_matrix) = Ok [0; 20]%Z.
Proof.
  split; [reflexivity|].
  refine (local_rhs_reads_free_dofs scp_scalar 1 x4 [99; 20; 77; 88]%Z 0
            patch0_matrix [0; 20]%Z [0; 1] [0] eq_refl eq_refl eq_refl eq_refl
            eq_refl _).
  intros k g comp Hk Hbc Hcomp. destruct k as [|[|k]].
  - exfalso. apply Hbc, list_elem_of_here.
  - injection Hk as <-. replace comp with 0 by lia. reflexivity.
  - discriminate Hk.
Defined.

Lemma P1PC_apply_sizes_witness :
  let self := coarse_scalar in
  length (work1 self) = nrows (transfer self)
  ∧ ∃ y' self', P1PC_apply self x4 [5; 5; 5; 5]%Z = Ok (y', self')
                ∧ length y' = 4 ∧ length (work1 self') = 2.
Proof.
  intros self. split; [reflexivity|].
  pose proof (P1PC_apply_sizes self x4 [5; 5; 5; 5]%Z eq_refl) as Hs.
  eexists _, _. split; [reflexivity|].
  split; [exact (proj1 (proj2 (proj2 Hs))) | exact (proj1 (proj2 (proj2 (proj2 Hs))))].
Defined.

Lemma PatchPC_apply_returns_witness :
  ∃ y' self',
    PatchPC_apply (Some Vscalar) smoother_scalar x4 [5; 5; 5; 5]%Z = Ok (y', self')
    ∧ length y' = 4.
Proof.
  refine (PatchPC_apply_returns smoother_scalar x4 [5; 5; 5; 5]%Z 4
            eq_refl _ eq_refl eq_refl _ _ _).
  - discriminate.
  - intros i Hi. split; [by apply scp_scalar_patches_ok|].
    assert (i = 0 ∨ i = 1 ∨ i = 2) as [-> | [-> | ->]] by (vm_compute in Hi; lia).
    all: split;
      [ intros g1 Hg; injection Hg as <-; vm_compute; lia
      | intros dofs Hd; vm_compute in Hd; injection Hd as <-;
        repeat constructor ].
  - right. right. exists [0]. reflexivity.
  - intros m b _. eexists. reflexivity.
Defined.

Lemma P1PC_setUp_once_witness :
  P1PC_setUp (outer_pc scp_scalar) = Ok (coarse_scalar, coarse_setUp.2)
  ∧ P1PC_setUp (H0 := empty_backend) (outer_pc coarse_setUp.2)
    = Ok (coarse_scalar, coarse_setUp.2)
  ∧ nrows (transfer coarse_scalar) = 2
  ∧ work1 coarse_scalar = [0; 0]%Z
  ∧ cached_matrices coarse_setUp.2 = None.
Proof.
  destruct (P1PC_setUp_once empty_backend (outer_pc scp_scalar) coarse_scalar
              coarse_setUp.2 coarse_setUp_run)
    as (Hagain & _ & _ & _ & Hslots & Hw1 & _).
  split; [exact coarse_setUp_run|]. split; [exact Hagain|].
  split; [reflexivity|]. split; [exact Hw1|]. exact (f_equal snd Hslots).
Defined.

Lemma solver_prefixes_distinct_witness :
  ksp_prefix (ksp smoother_scalar) = "sub_" ∧ pc coarse_scalar = "lo_"
  ∧ ksp_prefix (ksp smoother_scalar) ≠ pc coarse_scalar
  ∧ ∃ y' q, PatchPC_apply (Some Vscalar) smoother_scalar x4 [5; 5; 5; 5]%Z = Ok (y', q)
            ∧ ksp_prefix (ksp q) = "sub_"
            ∧ (nrows <$> ksp_operators (ksp q)) = Some 1.
Proof.
  destruct (solver_prefixes_distinct (outer_pc scp_scalar)) as (_ & Hlo & Hsub & _).
  destruct (Hlo coarse_scalar coarse_setUp.2 coarse_setUp_run) as [Hpc Hne].
  split; [reflexivity|]. split; [exact Hpc|]. split; [exact Hne|].
  eexists _, _. split; [reflexivity|].
  split; [exact (Hsub (Some Vscalar) x4 [5; 5; 5; 5]%Z _ _ eq_refl)|reflexivity].
Defined.

Lemma P1PC_setUp_failures_witness :
  P1PC_setUp (outer_pc scp_scalar) = Ok (coarse_scalar, coarse_setUp.2)
  ∧ fiat_space_dimension (P1 scp_scalar) ≤ fiat_space_dimension (V scp_scalar)
  ∧ P1PC_setUp (outer_pc scp_odd) = Raise KeyError
  ∧ P1PC_setUp (H0 := empty_backend) (outer_pc scp_scalar) = Raise AssertionError
  ∧ ¬ ∃ a_ b_, block_shape (Backend := empty_backend) (P1 scp_scalar) (V scp_scalar)
               = [[[a_; b_]]].
Proof.
  pose proof (P1PC_setUp_failures (outer_pc scp_scalar) eq_refl eq_refl eq_refl) as Hok.
  rewrite coarse_setUp_run in Hok. destruct Hok as (_ & _ & Hdim & _).
  split; [exact coarse_setUp_run|]. split; [exact Hdim|]. split; [reflexivity|].
  split; [reflexivity|].
  pose proof (P1PC_setUp_failures (H0 := empty_backend) (outer_pc scp_scalar)
                eq_refl eq_refl eq_refl) as Hbad.
  destruct Hbad as [[Hkey _]|(_ & _ & Hnot)]; [discriminate Hkey|].
  intros Hsh. apply Hnot. split; [exact Hsh|]. split; [vm_compute; lia|reflexivity].
Defined.

Lemma bad_kernel_AssertionError_witness :
  kernels (tsfc_compile_form (Backend := facet_backend)) scp_scalar = Raise AssertionError
  ∧ matrices (H0 := facet_backend) (Some Vscalar) scp_scalar = Raise AssertionError
  ∧ PatchPC_apply (H0 := facet_backend) (Some Vscalar) smoother_scalar x4 [5; 5; 5; 5]%Z
    = Raise AssertionError
  ∧ matrices (H0 := facet_backend) (Some Vscalar) scp_empty
    = Ok ([], set_cached_matrices scp_empty []).
Proof.
  destruct (bad_kernel_AssertionError (H0 := facet_backend) Vscalar scp_scalar
              AssertionError eq_refl eq_refl eq_refl eq_refl)
    as (_ & _ & _ & _ & Hraise).
  destruct Hraise as [Hm Happly].
  { discriminate. }
  { discriminate. }
  { exists 0, 2. split; [reflexivity|]. split; [reflexivity|]. lia. }
  { by eexists. }
  { by eexists. }
  split; [reflexivity|]. split; [exact Hm|].
  split; [exact (Happly smoother_scalar x4 [5; 5; 5; 5]%Z eq_refl)|].
  destruct (bad_kernel_AssertionError (H0 := facet_backend) Vscalar scp_empty
              AssertionError eq_refl eq_refl eq_refl eq_refl)
    as (_ & _ & Hnone & _).
  exact (Hnone eq_refl).
Defined.

End pulley_runs.

Section labelling_runs.
Import pulley_script fixtures.

Lemma label_boundary_labels_witness :
  ∃ L, label_boundary dm2 = Ok L
       ∧ L !! 10 = Some 1 ∧ L !! 11 = Some 2
       ∧ (12 ∉ exterior_facets dm2 → L !! 12 = None)
       ∧ (L !! 11 = Some 2
          ∧ ∃ pre v post,
              last3 (getTransitiveClosure dm2 11) = pre ++ v :: post
              ∧ Forall (λ v, inner_surface (vecGetClosure dm2 v) = Ok true) pre
              ∧ inner_surface (vecGetClosure dm2 v) = Ok false).
Proof.
  set (L := match label_boundary dm2 with Ok L => L | Raise _ => ∅ end).
  assert (label_boundary dm2 = Ok L) as HL by (vm_compute; reflexivity).
  exists L. split; [exact HL|].
  split; [vm_compute; reflexivity|]. split; [vm_compute; reflexivity|].
  destruct (label_boundary_labels dm2 L HL 12) as (_ & Hnone & _).
  split; [exact Hnone|].
  destruct (label_boundary_labels dm2 L HL 11) as (_ & _ & Hin).
  destruct Hin as [[Hone _]|Htwo].
  - apply (bool_decide_unpack (11 ∈ [10; 11])). reflexivity.
  - discriminate Hone.
  - exact Htwo.
Defined.

End labelling_runs.
